(** * opkg: version algebra, package records, conflicts and the dependency resolver

    A shallow embedding of the parts of libopkg that decide the package
    manager's behaviour: Debian version comparison ([verrevcmp],
    [pkg_compare_versions]), the constraint check of a dependency atom
    ([version_constraints_satisfied]), the blob-backed package record and
    [pkg_merge], the state-flag (de)serialisation, the conffile check, the
    conflict scan ([pkg_hash_fetch_conflicts]) and the recursive resolver
    ([pkg_hash_fetch_unsatisfied_dependencies]).

    Conventions.  A C string is a [string]; a possibly-NULL [char *] is an
    [option string].  [int] results that the callers only test for zero are
    [bool]; comparison results stay in [Z] with their sign.  Pointers to
    packages and abstract packages are indices into the two arenas of
    [hash_t]; a dereference that has no target is a [Fault].  Diagnostics
    written with [opkg_msg] do not change any state the functions read and
    are left out. *)

From Stdlib Require Import ZArith String Ascii List Bool Lia.
From stdpp Require Import base option list.
Import ListNotations.
Open Scope Z_scope.

(** ** C strings and <ctype.h> (C locale) *)

Definition code (c : ascii) : Z := Z.of_N (N_of_ascii c).

(** Reading the character under the pointer: NUL at the end of the string. *)
Definition deref (s : string) : Z :=
  match s with
  | EmptyString => 0
  | String c _ => code c
  end.

(** [s++] *)
Definition advance (s : string) : string :=
  match s with
  | EmptyString => EmptyString
  | String _ s' => s'
  end.

Definition isdigit (x : Z) : bool := (48 <=? x) && (x <=? 57).

Definition isalpha (x : Z) : bool :=
  ((65 <=? x) && (x <=? 90)) || ((97 <=? x) && (x <=? 122)).

Definition isspace (x : Z) : bool := (x =? 32) || ((9 <=? x) && (x <=? 13)).

Lemma code_range c : 0 <= code c < 256.
Proof.
  unfold code. pose proof (N_ascii_bounded c) as H.
  split; [apply N2Z.is_nonneg | ]. change 256 with (Z.of_N 256). lia.
Qed.

Lemma deref_range s : 0 <= deref s < 256.
Proof. destruct s; simpl; [lia | apply code_range]. Qed.

(** ** Version comparison (pkg.c, after libdpkg's vercmp.c) *)

(** The [order(x)] macro. *)
Definition order (x : Z) : Z :=
  if x =? 126 then -1
  else if isdigit x then 0
  else if x =? 0 then 0
  else if isalpha x then x
  else x + 256.

(** The character under the pointer is neither NUL nor a digit. *)
Definition is_nondigit (s : string) : bool :=
  negb (deref s =? 0) && negb (isdigit (deref s)).

(** The first inner loop of [verrevcmp]: [inl r] is [return r], [inr] the
    two pointers when the loop is left.  Both pointers advance only while
    both characters have the same order; the branch for the empty [val]
    is never taken then (see [nondigit_loop_advances]). *)
Fixpoint nondigit_loop (val ref : string) {struct val} : Z + (string * string) :=
  if is_nondigit val || is_nondigit ref then
    let vc := order (deref val) in
    let rc := order (deref ref) in
    if negb (vc =? rc) then inl (vc - rc)
    else match val with
         | EmptyString => inr (val, ref)
         | String _ val' => nondigit_loop val' (advance ref)
         end
  else inr (val, ref).

(** The loop that skips the leading zeros of a digit run. *)
Fixpoint skip_zeros (s : string) : string :=
  match s with
  | EmptyString => s
  | String c s' => if code c =? 48 then skip_zeros s' else s
  end.

(** The loop over two digit runs of equal length so far: it remembers the
    first difference of two digits and advances both pointers. *)
Fixpoint digit_loop (first_diff : Z) (val ref : string) {struct val}
  : Z * string * string :=
  if isdigit (deref val) && isdigit (deref ref) then
    match val with
    | EmptyString => (first_diff, val, ref)
    | String _ val' =>
        digit_loop (if first_diff =? 0 then deref val - deref ref else first_diff)
                   val' (advance ref)
    end
  else (first_diff, val, ref).

(** The outer loop, entered while either string has a character left; every round that does not return
    consumes a character, so [fuel] beyond the two lengths is never used up
    ([verrevcmp_loop_fuel]). *)
Fixpoint verrevcmp_loop (fuel : nat) (val ref : string) : Z :=
  match fuel with
  | O => 0
  | S fuel' =>
      if negb (deref val =? 0) || negb (deref ref =? 0) then
        match nondigit_loop val ref with
        | inl r => r
        | inr (val1, ref1) =>
            let val2 := skip_zeros val1 in
            let ref2 := skip_zeros ref1 in
            let '(first_diff, val3, ref3) := digit_loop 0 val2 ref2 in
            if isdigit (deref val3) then 1
            else if isdigit (deref ref3) then -1
            else if negb (first_diff =? 0) then first_diff
            else verrevcmp_loop fuel' val3 ref3
        end
      else 0
  end.

(** A NULL argument of [verrevcmp] is replaced by the empty string. *)
Definition or_empty (s : option string) : string :=
  match s with
  | Some s => s
  | None => EmptyString
  end.

Definition verrevcmp (val ref : option string) : Z :=
  let val := or_empty val in
  let ref := or_empty ref in
  verrevcmp_loop (S (String.length val + String.length ref)) val ref.

Example verrevcmp_tilde : verrevcmp (Some "1.0~rc1"%string) (Some "1.0"%string) < 0.
Proof. vm_compute. reflexivity. Qed.

Example verrevcmp_leading_zeros : verrevcmp (Some "1.00"%string) (Some "1.0"%string) = 0.
Proof. reflexivity. Qed.

Example verrevcmp_null_vs_zero : verrevcmp None (Some "0"%string) = 0.
Proof. reflexivity. Qed.

Example verrevcmp_letters : verrevcmp (Some "1.0a"%string) (Some "1.0+"%string) < 0.
Proof. vm_compute. reflexivity. Qed.

(** *** The sort key of a version string

    Every round of [verrevcmp_loop] looks at one segment of each string: a
    run of non-digits followed by a run of digits.  [seg_key] lists the
    numbers the round compares, in the order it compares them: the orders
    of the non-digits, the order 0 of what ends them, the length of the
    digit run without its leading zeros, and its digits.  [verrevcmp] is the
    lexicographic comparison of the concatenated keys. *)

Fixpoint drop_nd (s : string) : string :=
  match s with
  | EmptyString => s
  | String _ s' => if is_nondigit s then drop_nd s' else s
  end.

Fixpoint nd_key (s : string) : list Z :=
  match s with
  | EmptyString => []
  | String _ s' => if is_nondigit s then order (deref s) :: nd_key s' else []
  end.

Fixpoint drop_digits (s : string) : string :=
  match s with
  | EmptyString => s
  | String _ s' => if isdigit (deref s) then drop_digits s' else s
  end.

Fixpoint digits (s : string) : list Z :=
  match s with
  | EmptyString => []
  | String _ s' => if isdigit (deref s) then deref s :: digits s' else []
  end.

Definition num_key (s : string) : list Z :=
  Z.of_nat (length (digits s)) :: digits s.

Definition seg_key (s : string) : list Z :=
  nd_key s ++ 0 :: num_key (skip_zeros (drop_nd s)).

Definition next_seg (s : string) : string :=
  drop_digits (skip_zeros (drop_nd s)).

Fixpoint key (n : nat) (s : string) : list Z :=
  match n with
  | O => []
  | S n' => seg_key s ++ key n' (next_seg s)
  end.

Fixpoint lexcmp (k1 k2 : list Z) : comparison :=
  match k1, k2 with
  | [], [] => Eq
  | [], _ :: _ => Lt
  | _ :: _, [] => Gt
  | x :: k1', y :: k2' =>
      match x ?= y with
      | Eq => lexcmp k1' k2'
      | c => c
      end
  end.

Ltac zbool :=
  repeat match goal with
    | |- context [Z.eqb ?a ?b] => destruct (Z.eqb_spec a b)
    | |- context [Z.leb ?a ?b] => destruct (Z.leb_spec a b)
    | H : context [Z.eqb ?a ?b] |- _ => destruct (Z.eqb_spec a b)
    | H : context [Z.leb ?a ?b] |- _ => destruct (Z.leb_spec a b)
    end; simpl in *; try lia; try congruence.

Lemma order_nondigit s : is_nondigit s = true -> order (deref s) <> 0.
Proof.
  unfold is_nondigit, order, isdigit, isalpha.
  pose proof (deref_range s). zbool.
Qed.

Lemma order_not_nondigit s : is_nondigit s = false -> order (deref s) = 0.
Proof.
  unfold is_nondigit, order, isdigit, isalpha.
  pose proof (deref_range s). zbool.
Qed.

Lemma is_nondigit_cons s : is_nondigit s = true -> exists c s', s = String c s'.
Proof. destruct s; [discriminate | eauto]. Qed.

Lemma isdigit_cons s : isdigit (deref s) = true -> exists c s', s = String c s'.
Proof. destruct s; [discriminate | eauto]. Qed.

Lemma isdigit_not_nondigit s : isdigit (deref s) = true -> is_nondigit s = false.
Proof. unfold is_nondigit. intros ->. apply andb_false_r. Qed.

(** The two keys of a round differ at some position, by [x] against [y]. *)
Definition differ_at (k1 k2 : list Z) (x y : Z) : Prop :=
  exists p t1 t2, k1 = p ++ x :: t1 /\ k2 = p ++ y :: t2.

Lemma differ_at_cons z k1 k2 x y :
  differ_at k1 k2 x y -> differ_at (z :: k1) (z :: k2) x y.
Proof. intros (p & t1 & t2 & -> & ->). by exists (z :: p), t1, t2. Qed.

Lemma differ_at_app p k1 k2 x y :
  differ_at k1 k2 x y -> differ_at (p ++ k1) (p ++ k2) x y.
Proof. induction p; simpl; [done | auto using differ_at_cons]. Qed.

Lemma differ_at_here x y t1 t2 : differ_at (x :: t1) (y :: t2) x y.
Proof. by exists [], t1, t2. Qed.

Lemma differ_at_ext k1 k2 x y r1 r2 :
  differ_at k1 k2 x y -> differ_at (k1 ++ r1) (k2 ++ r2) x y.
Proof.
  intros (p & t1 & t2 & -> & ->). exists p, (t1 ++ r1), (t2 ++ r2).
  by rewrite <- !app_assoc.
Qed.

Lemma lexcmp_differ_at k1 k2 x y :
  differ_at k1 k2 x y -> x <> y -> lexcmp k1 k2 = (x ?= y).
Proof.
  intros (p & t1 & t2 & -> & ->) Hxy. induction p as [|z p IH]; simpl.
  - destruct (Z.compare_spec x y); congruence.
  - by rewrite Z.compare_refl.
Qed.

Lemma lexcmp_refl k : lexcmp k k = Eq.
Proof. induction k; simpl; [done | by rewrite Z.compare_refl]. Qed.

Lemma lexcmp_app_same p k1 k2 : lexcmp (p ++ k1) (p ++ k2) = lexcmp k1 k2.
Proof. induction p; simpl; [done | by rewrite Z.compare_refl]. Qed.

Lemma lexcmp_eq k1 k2 : lexcmp k1 k2 = Eq -> k1 = k2.
Proof.
  revert k2. induction k1 as [|x k1 IH]; intros [|y k2]; simpl; try done.
  destruct (Z.compare_spec x y); try done. intros. f_equal; auto.
Qed.

Lemma lexcmp_antisym k1 k2 : lexcmp k2 k1 = CompOpp (lexcmp k1 k2).
Proof.
  revert k2. induction k1 as [|x k1 IH]; intros [|y k2]; simpl; try done.
  rewrite (Z.compare_antisym x y).
  destruct (x ?= y); simpl; auto.
Qed.

Lemma lexcmp_trans k1 k2 k3 :
  lexcmp k1 k2 = Lt -> lexcmp k2 k3 = Lt -> lexcmp k1 k3 = Lt.
Proof.
  revert k2 k3. induction k1 as [|x k1 IH]; intros [|y k2] [|z k3]; simpl; try done.
  destruct (Z.compare_spec x y), (Z.compare_spec y z), (Z.compare_spec x z);
    try done; try lia; eauto.
Qed.

(** The non-digit loop compares the two non-digit keys. *)
Lemma nondigit_loop_spec a : forall b,
  match nondigit_loop a b with
  | inl r => exists x y, r = x - y /\ x <> y /\
             differ_at (nd_key a ++ [0]) (nd_key b ++ [0]) x y
  | inr (a', b') => nd_key a = nd_key b /\ a' = drop_nd a /\ b' = drop_nd b
  end.
Proof.
  induction a as [|c a IH]; intros b.
  - cbn [nondigit_loop]. destruct (is_nondigit b) eqn:Hb.
    + change (is_nondigit "" || true) with true. cbv iota.
      pose proof (order_nondigit b Hb) as Ho.
      destruct (is_nondigit_cons b Hb) as (d & b' & ->).
      change (order (deref "")) with 0.
      destruct (Z.eqb_spec 0 (order (deref (String d b')))); [lia|]. simpl negb. cbv iota.
      exists 0, (order (deref (String d b'))). split; [done|]. split; [done|].
      cbn [nd_key]. rewrite Hb. apply differ_at_here.
    + change (is_nondigit "" || false) with false. cbv iota.
      destruct b; [done|]. cbn [nd_key drop_nd]. by rewrite Hb.
  - cbn [nondigit_loop nd_key drop_nd].
    destruct (is_nondigit (String c a)) eqn:Ha.
    + rewrite orb_true_l. pose proof (order_nondigit _ Ha) as Hoa.
      destruct (Z.eqb_spec (order (deref (String c a))) (order (deref b))) as [He|Hne];
        simpl negb; cbv iota.
      * destruct (is_nondigit b) eqn:Hb.
        2:{ apply order_not_nondigit in Hb. congruence. }
        destruct (is_nondigit_cons b Hb) as (d & b' & ->).
        cbn [advance nd_key drop_nd]. rewrite Hb.
        specialize (IH b'). destruct (nondigit_loop a b') as [r|[a' b'']].
        -- destruct IH as (x & y & -> & Hxy & Hd). exists x, y.
           split; [done|]. split; [done|].
           rewrite He. cbn [app]. by apply differ_at_cons.
        -- destruct IH as (Hk & -> & ->). by rewrite He, Hk.
      * exists (order (deref (String c a))), (order (deref b)).
        split; [done|]. split; [done|].
        destruct (is_nondigit b) eqn:Hb.
        -- destruct (is_nondigit_cons b Hb) as (d & b' & ->).
           cbn [nd_key]. rewrite Hb. apply differ_at_here.
        -- rewrite (order_not_nondigit _ Hb).
           destruct b; cbn [nd_key]; rewrite ?Hb; apply differ_at_here.
    + rewrite orb_false_l. destruct (is_nondigit b) eqn:Hb.
      * pose proof (order_nondigit _ Hb) as Hob.
        rewrite (order_not_nondigit _ Ha) in *.
        destruct (Z.eqb_spec 0 (order (deref b))); [lia|]. simpl negb. cbv iota.
        exists 0, (order (deref b)). split; [done|]. split; [done|].
        destruct (is_nondigit_cons b Hb) as (d & b' & ->).
        cbn [nd_key]. rewrite Hb. apply differ_at_here.
      * destruct b; [done|]. cbn [nd_key drop_nd]. by rewrite Hb.
Qed.

(** The digit loop compares two digit runs: the longer run wins, and runs
    of the same length are decided by their first difference. *)
Lemma digit_loop_spec a : forall b fd,
  let '(fd', a3, b3) := digit_loop fd a b in
  if isdigit (deref a3) then (length (digits b) < length (digits a))%nat
  else if isdigit (deref b3) then (length (digits a) < length (digits b))%nat
  else length (digits a) = length (digits b) /\
       a3 = drop_digits a /\ b3 = drop_digits b /\
       (if fd =? 0
        then (fd' = 0 /\ digits a = digits b) \/
             (exists x y, fd' = x - y /\ x <> y /\ differ_at (digits a) (digits b) x y)
        else fd' = fd).
Proof.
  induction a as [|c a IH]; intros b fd.
  - cbn [digit_loop deref]. change (isdigit 0) with false. cbv iota. simpl andb. cbv iota.
    change (isdigit (deref "")) with false. cbv iota.
    destruct (isdigit (deref b)) eqn:Hb.
    + destruct (isdigit_cons b Hb) as (d & b' & ->). cbn [digits]. rewrite Hb. simpl. lia.
    + destruct b; cbn [digits drop_digits]; rewrite ?Hb;
        (split; [done|]; split; [done|]; split; [done|]);
        destruct (fd =? 0) eqn:E; zbool; auto.
  - cbn [digit_loop]. destruct (isdigit (deref (String c a))) eqn:Ha.
    + destruct (isdigit (deref b)) eqn:Hb; simpl andb; cbv iota.
      * destruct (isdigit_cons b Hb) as (d & b' & ->). cbn [advance].
        specialize (IH b' (if fd =? 0 then deref (String c a) - deref (String d b') else fd)).
        destruct (digit_loop _ a b') as [[fd' a3] b3].
        cbn [digits drop_digits]. rewrite Ha, Hb. cbn [length].
        destruct (isdigit (deref a3)); [lia|].
        destruct (isdigit (deref b3)); [lia|].
        destruct IH as (Hl & -> & -> & Hfd). split; [lia|]. split; [done|]. split; [done|].
        destruct (Z.eqb_spec fd 0) as [->|Hfd0].
        2:{ cbv iota in Hfd. destruct (Z.eqb_spec fd 0); [lia|done]. }
        cbn [deref] in *.
        destruct (Z.eqb_spec (code c - code d) 0) as [E|E].
        -- assert (code c = code d) as -> by lia.
           destruct Hfd as [[-> ->]|(x & y & -> & Hxy & Hd)]; [by left|].
           right. exists x, y. auto using differ_at_cons.
        -- right. exists (code c), (code d). subst fd'.
           split; [done|]. split; [lia|]. apply differ_at_here.
      * rewrite Ha. destruct b as [|d b']; cbn [digits]; rewrite ?Ha, ?Hb; simpl; lia.
    + simpl andb. cbv iota. rewrite Ha.
      destruct (isdigit (deref b)) eqn:Hb.
      * destruct (isdigit_cons b Hb) as (d & b' & ->). cbn [digits]. rewrite Ha, Hb. simpl. lia.
      * cbn [digits drop_digits]. rewrite Ha.
        destruct b; cbn [digits drop_digits]; rewrite ?Hb;
          (split; [done|]; split; [done|]; split; [done|]);
          destruct (fd =? 0) eqn:E; zbool; auto.
Qed.

Lemma verrevcmp_loop_nul f a b :
  deref a = 0 -> deref b = 0 -> verrevcmp_loop f a b = 0.
Proof. intros Ha Hb. destruct f; [done|]. cbn [verrevcmp_loop]. by rewrite Ha, Hb. Qed.

Lemma drop_nd_nul s : is_nondigit s = false -> drop_nd s = s /\ nd_key s = [].
Proof. intros H. destruct s; [done|]. cbn [drop_nd nd_key]. by rewrite H. Qed.

Lemma skip_zeros_id s : deref s <> 48 -> skip_zeros s = s.
Proof. destruct s; [done|]. cbn [skip_zeros deref]. intros. zbool. Qed.

Lemma digits_nul s : isdigit (deref s) = false -> drop_digits s = s /\ digits s = [].
Proof. intros H. destruct s; [done|]. cbn [drop_digits digits]. by rewrite H. Qed.

Lemma next_seg_nul s : deref s = 0 -> next_seg s = s /\ seg_key s = [0; 0].
Proof.
  intros H. unfold next_seg, seg_key, num_key.
  assert (is_nondigit s = false) as Hn by (unfold is_nondigit; rewrite H; done).
  destruct (drop_nd_nul s Hn) as [-> ->].
  rewrite skip_zeros_id by lia.
  assert (isdigit (deref s) = false) as Hd by (rewrite H; done).
  by destruct (digits_nul s Hd) as [-> ->].
Qed.

Lemma drop_nd_length s : (String.length (drop_nd s) <= String.length s)%nat.
Proof. induction s; cbn [drop_nd]; [done|]. destruct (is_nondigit _); simpl in *; lia. Qed.

Lemma skip_zeros_length s : (String.length (skip_zeros s) <= String.length s)%nat.
Proof. induction s; cbn [skip_zeros]; [done|]. destruct (_ =? _); simpl in *; lia. Qed.

Lemma drop_digits_length s : (String.length (drop_digits s) <= String.length s)%nat.
Proof. induction s; cbn [drop_digits]; [done|]. destruct (isdigit _); simpl in *; lia. Qed.

Lemma next_seg_length s :
  deref s <> 0 -> (String.length (next_seg s) < String.length s)%nat.
Proof.
  intros H. destruct s as [|c s]; [done|]. unfold next_seg.
  destruct (is_nondigit (String c s)) eqn:Hn.
  - cbn [drop_nd]. rewrite Hn.
    pose proof (drop_nd_length s). pose proof (skip_zeros_length (drop_nd s)).
    pose proof (drop_digits_length (skip_zeros (drop_nd s))). simpl. lia.
  - destruct (drop_nd_nul _ Hn) as [-> _].
    assert (isdigit (deref (String c s)) = true) as Hd.
    { unfold is_nondigit in Hn. destruct (isdigit _); [done|]. zbool. }
    cbn [skip_zeros]. destruct (Z.eqb_spec (code c) 48).
    + pose proof (skip_zeros_length s).
      pose proof (drop_digits_length (skip_zeros s)). simpl. lia.
    + cbn [drop_digits]. rewrite Hd. pose proof (drop_digits_length s). simpl. lia.
Qed.

(** One round of the outer loop either returns with the sign of the first
    difference of the two segment keys, or finds them equal and goes on
    with the next segments. *)
Lemma verrevcmp_round a b f :
  (exists x y, x <> y /\ differ_at (seg_key a) (seg_key b) x y /\
               (verrevcmp_loop (S f) a b ?= 0) = (x ?= y))
  \/ (seg_key a = seg_key b /\
      verrevcmp_loop (S f) a b = verrevcmp_loop f (next_seg a) (next_seg b)).
Proof.
  destruct (negb (deref a =? 0) || negb (deref b =? 0)) eqn:Hnz.
  2:{ right. assert (deref a = 0 /\ deref b = 0) as [Ha Hb] by zbool.
      destruct (next_seg_nul a Ha) as [-> ->]. destruct (next_seg_nul b Hb) as [-> ->].
      split; [done|]. by rewrite !verrevcmp_loop_nul. }
  cbn [verrevcmp_loop]. rewrite Hnz.
  pose proof (nondigit_loop_spec a b) as Hnd.
  destruct (nondigit_loop a b) as [r|[a1 b1]].
  - left. destruct Hnd as (x & y & -> & Hxy & Hd). exists x, y.
    split; [done|]. split.
    + unfold seg_key. rewrite !(cons_middle 0), !app_assoc. by apply differ_at_ext.
    + by rewrite <- Z.compare_sub.
  - destruct Hnd as (Hk & -> & ->).
    pose proof (digit_loop_spec (skip_zeros (drop_nd a)) (skip_zeros (drop_nd b)) 0) as Hdg.
    destruct (digit_loop 0 _ _) as [[fd a3] b3].
    unfold seg_key, num_key, next_seg. rewrite Hk.
    destruct (isdigit (deref a3)).
    { left. eexists _, _. split; [|split; [apply differ_at_app, differ_at_cons, differ_at_here|]].
      - lia.
      - simpl. symmetry. apply Z.compare_gt_iff. lia. }
    destruct (isdigit (deref b3)).
    { left. eexists _, _. split; [|split; [apply differ_at_app, differ_at_cons, differ_at_here|]].
      - lia.
      - simpl. symmetry. apply Z.compare_lt_iff. lia. }
    destruct Hdg as (Hl & -> & -> & Hfd). rewrite Hl.
    change (0 =? 0) with true in Hfd. cbv iota in Hfd.
    destruct Hfd as [[-> Hd]|(x & y & -> & Hxy & Hd)].
    + right. by rewrite Hd.
    + left. exists x, y. split; [done|]. split.
      * by apply differ_at_app, differ_at_cons, differ_at_cons.
      * destruct (Z.eqb_spec (x - y) 0); [lia|]. simpl negb. cbv iota.
        by rewrite <- Z.compare_sub.
Qed.

(** The part of a string the loop can still read. *)
Definition readable (s : string) : nat :=
  if deref s =? 0 then O else String.length s.

Lemma readable_le s : (readable s <= String.length s)%nat.
Proof. unfold readable. destruct (_ =? _); lia. Qed.

Lemma readable_next s : (readable (next_seg s) <= Nat.pred (readable s))%nat.
Proof.
  unfold readable at 2. destruct (Z.eqb_spec (deref s) 0) as [H|H].
  - destruct (next_seg_nul s H) as [-> _]. unfold readable. by rewrite H.
  - pose proof (next_seg_length s H). pose proof (readable_le (next_seg s)). lia.
Qed.

Lemma key_nul n a b : deref a = 0 -> deref b = 0 -> key n a = key n b.
Proof.
  intros Ha Hb. induction n; [done|]. cbn [key].
  destruct (next_seg_nul a Ha) as [-> ->]. destruct (next_seg_nul b Hb) as [-> ->].
  by rewrite IHn.
Qed.

(** [verrevcmp_loop] with enough fuel is the lexicographic comparison of the
    keys. *)
Lemma verrevcmp_loop_key n : forall a b f,
  (readable a <= n)%nat -> (readable b <= n)%nat ->
  (readable a + readable b < f)%nat ->
  (verrevcmp_loop f a b ?= 0) = lexcmp (key n a) (key n b).
Proof.
  induction n as [|n IH]; intros a b f Ha Hb Hf.
  - assert (deref a = 0 /\ deref b = 0) as [Ea Eb].
    { unfold readable in *. destruct (Z.eqb_spec (deref a) 0), (Z.eqb_spec (deref b) 0);
        destruct a, b; simpl in *; try done; lia. }
    by rewrite verrevcmp_loop_nul.
  - destruct f as [|f]; [lia|].
    destruct (negb (deref a =? 0) || negb (deref b =? 0)) eqn:Hnz.
    2:{ assert (deref a = 0 /\ deref b = 0) as [Ea Eb] by zbool.
        rewrite verrevcmp_loop_nul by done.
        by rewrite (key_nul (S n) a b), lexcmp_refl. }
    cbn [key].
    destruct (verrevcmp_round a b f) as [(x & y & Hxy & Hd & ->)|[Hk ->]].
    + symmetry. apply lexcmp_differ_at; [|done]. by apply differ_at_ext.
    + rewrite Hk, lexcmp_app_same.
      pose proof (readable_next a). pose proof (readable_next b).
      apply IH; [lia | lia |].
      assert (readable a <> 0 \/ readable b <> 0)%nat.
      { unfold readable. destruct (Z.eqb_spec (deref a) 0), (Z.eqb_spec (deref b) 0);
          simpl in Hnz; try done; destruct a, b; simpl in *; try done; lia. }
      lia.
Qed.

(** More fuel than the two strings have characters changes nothing. *)
Lemma verrevcmp_loop_fuel a b f :
  (String.length a + String.length b < f)%nat ->
  (verrevcmp_loop f a b ?= 0) =
  (verrevcmp_loop (S (String.length a + String.length b)) a b ?= 0).
Proof.
  intros Hf. pose proof (readable_le a). pose proof (readable_le b).
  rewrite !(verrevcmp_loop_key (String.length a + String.length b)); try lia. done.
Qed.

Definition vkey (n : nat) (s : option string) : list Z := key n (or_empty s).

Lemma verrevcmp_key n a b :
  (String.length (or_empty a) <= n)%nat -> (String.length (or_empty b) <= n)%nat ->
  (verrevcmp a b ?= 0) = lexcmp (vkey n a) (vkey n b).
Proof.
  intros Ha Hb. unfold verrevcmp, vkey.
  pose proof (readable_le (or_empty a)). pose proof (readable_le (or_empty b)).
  apply verrevcmp_loop_key; lia.
Qed.

Lemma verrevcmp_refl a : verrevcmp a a = 0.
Proof.
  apply Z.compare_eq.
  by rewrite (verrevcmp_key (String.length (or_empty a))), lexcmp_refl.
Qed.

Lemma verrevcmp_antisym a b : (verrevcmp b a ?= 0) = CompOpp (verrevcmp a b ?= 0).
Proof.
  set (n := (String.length (or_empty a) + String.length (or_empty b))%nat).
  rewrite !(verrevcmp_key n) by lia. apply lexcmp_antisym.
Qed.

Lemma verrevcmp_eq_l a b c :
  verrevcmp a b = 0 -> (verrevcmp a c ?= 0) = (verrevcmp b c ?= 0).
Proof.
  intros H.
  set (n := (String.length (or_empty a) + String.length (or_empty b) +
             String.length (or_empty c))%nat).
  assert (vkey n a = vkey n b) as Hk.
  { apply lexcmp_eq. rewrite <- (verrevcmp_key n) by lia. by rewrite H. }
  rewrite !(verrevcmp_key n) by lia. by rewrite Hk.
Qed.

Lemma verrevcmp_eq_r a b c :
  verrevcmp b c = 0 -> (verrevcmp a b ?= 0) = (verrevcmp a c ?= 0).
Proof.
  intros H.
  set (n := (String.length (or_empty a) + String.length (or_empty b) +
             String.length (or_empty c))%nat).
  assert (vkey n b = vkey n c) as Hk.
  { apply lexcmp_eq. rewrite <- (verrevcmp_key n) by lia. by rewrite H. }
  rewrite !(verrevcmp_key n) by lia. by rewrite Hk.
Qed.

Lemma verrevcmp_trans a b c :
  verrevcmp a b < 0 -> verrevcmp b c < 0 -> verrevcmp a c < 0.
Proof.
  set (n := (String.length (or_empty a) + String.length (or_empty b) +
             String.length (or_empty c))%nat).
  rewrite <- !Z.compare_lt_iff, !(verrevcmp_key n) by lia. apply lexcmp_trans.
Qed.

(** ** Results of code that can dereference NULL *)

Inductive res (A : Type) : Type :=
| Ok (a : A)
| Fault.
Arguments Ok {A} a.
Arguments Fault {A}.

#[global] Instance res_ret : MRet res := fun A a => Ok a.

#[global] Instance res_bind : MBind res := fun A B k m =>
  match m with
  | Ok a => k a
  | Fault => Fault
  end.

(** A pointer that must not be NULL. *)
Definition nonnull {A} (p : option A) : res A :=
  match p with
  | Some a => Ok a
  | None => Fault
  end.

(** <string.h>.  A string is read up to its first NUL character. *)
Fixpoint strcmp (a b : string) : Z :=
  if negb (deref a =? deref b) then deref a - deref b
  else if deref a =? 0 then 0
  else match a, b with
       | String _ a', String _ b' => strcmp a' b'
       | _, _ => 0
       end.

Definition streq (a b : string) : bool := strcmp a b =? 0.

(** [strncmp(s, prefix, strlen(prefix)) == 0] *)
Fixpoint has_prefix (s prefix : string) : bool :=
  match prefix with
  | EmptyString => true
  | String p prefix' =>
      if code p =? 0 then true
      else match s with
           | EmptyString => false
           | String c s' => (code c =? code p) && has_prefix s' prefix'
           end
  end.

Fixpoint strlen (s : string) : nat :=
  match s with
  | EmptyString => O
  | String c s' => if code c =? 0 then O else S (strlen s')
  end.

(** [s + n] for [n] within the string *)
Fixpoint skipn_str (n : nat) (s : string) : string :=
  match n with
  | O => s
  | S n' => skipn_str n' (advance s)
  end.

(** [strchr(s, c)]: the suffix that starts at the first [c]. *)
Fixpoint strchr (s : string) (c : Z) : option string :=
  match s with
  | EmptyString => None
  | String d s' =>
      if code d =? 0 then None
      else if code d =? c then Some s
      else strchr s' c
  end.

(** [strrchr(s, c)] followed by cutting the string there: the part
    before the last [c] and the part after it. *)
Fixpoint split_last (s : string) (c : Z) : option (string * string) :=
  match s with
  | EmptyString => None
  | String d s' =>
      if code d =? 0 then None
      else match split_last s' c with
           | Some (before, after) => Some (String d before, after)
           | None => if code d =? c then Some (EmptyString, s') else None
           end
  end.

(** The characters up to the first NUL. *)
Fixpoint c_str (s : string) : string :=
  match s with
  | EmptyString => EmptyString
  | String c s' => if code c =? 0 then EmptyString else String c (c_str s')
  end.

Lemma code_inj c d : code c = code d -> c = d.
Proof.
  unfold code. intros H. apply N2Z.inj in H.
  rewrite <- (ascii_N_embedding c), <- (ascii_N_embedding d). by rewrite H.
Qed.

Lemma strcmp_zero_iff a b : strcmp a b = 0 <-> c_str a = c_str b.
Proof.
  revert b. induction a as [|c a IH]; intros [|d b]; cbn [strcmp c_str deref].
  - done.
  - pose proof (code_range d). destruct (Z.eqb_spec 0 (code d)) as [E|E]; simpl negb; cbv iota.
    + rewrite <- E. simpl. done.
    + destruct (Z.eqb_spec (code d) 0); [lia|]. split; [lia|done].
  - destruct (Z.eqb_spec (code c) 0) as [E|E]; simpl negb; cbv iota.
    + simpl. done.
    + split; [lia|done].
  - destruct (Z.eqb_spec (code c) (code d)) as [E|E]; simpl negb; cbv iota.
    + rewrite <- E. destruct (Z.eqb_spec (code c) 0); [done|].
      apply code_inj in E. subst d. rewrite IH. split; [by intros ->|by intros [=]].
    + destruct (Z.eqb_spec (code c) 0), (Z.eqb_spec (code d) 0); try lia;
        (split; [lia|]); try done. intros [= -> _]. done.
Qed.

Lemma strcmp_refl a : strcmp a a = 0.
Proof. by apply strcmp_zero_iff. Qed.

(** ** Package records (pkg.h, pkg_depends.h) *)

Inductive pkg_state_want_t := SW_UNKNOWN | SW_INSTALL | SW_DEINSTALL | SW_PURGE.

Inductive pkg_state_status_t :=
| SS_NOT_INSTALLED | SS_UNPACKED | SS_HALF_CONFIGURED | SS_INSTALLED
| SS_HALF_INSTALLED | SS_CONFIG_FILES | SS_POST_INST_FAILED | SS_REMOVAL_FAILED.

Inductive version_constraint :=
| NONE | EARLIER | EARLIER_EQUAL | EQUAL | LATER_EQUAL | LATER.

(** The kinds of a compound dependency.  The zero value [UNSPEC] only ends
    an array of compound dependencies, which is a list here. *)
Inductive depend_type :=
| PREDEPEND | DEPEND | CONFLICTS | GREEDY_DEPEND | RECOMMEND | SUGGEST.

#[global] Instance pkg_state_want_eq_dec : EqDecision pkg_state_want_t.
Proof. solve_decision. Defined.
#[global] Instance pkg_state_status_eq_dec : EqDecision pkg_state_status_t.
Proof. solve_decision. Defined.
#[global] Instance version_constraint_eq_dec : EqDecision version_constraint.
Proof. solve_decision. Defined.
#[global] Instance depend_type_eq_dec : EqDecision depend_type.
Proof. solve_decision. Defined.

(** Pointers into the two arenas of the package hash. *)
Definition abstract_pkg_ptr := nat.
Definition pkg_ptr := nat.

(** [struct depend]: one atom; [dep_pkg] is its [pkg] member. *)
Record depend_t := {
  constraint : version_constraint;
  version : option string;
  dep_pkg : abstract_pkg_ptr
}.

(** [struct compound_depend]; [possibility_count] is the length. *)
Record compound_depend_t := {
  type : depend_type;
  possibilities : list depend_t
}.

(** [nv_pair_t]: a conffile with its recorded digest. *)
Record conffile_t := {
  cf_name : string;
  cf_value : option string
}.

(** The ids of the attributes kept in a package's blob. *)
Inductive pkg_field :=
| PKG_MAINTAINER | PKG_PRIORITY | PKG_SOURCE | PKG_TAGS | PKG_SECTION
| PKG_EPOCH | PKG_FILENAME | PKG_LOCAL_FILENAME | PKG_VERSION | PKG_REVISION
| PKG_DESCRIPTION | PKG_MD5SUM | PKG_SHA256SUM | PKG_SIZE | PKG_INSTALLED_SIZE
| PKG_INSTALLED_TIME | PKG_TMP_UNPACK_DIR | PKG_REPLACES | PKG_PROVIDES
| PKG_DEPENDS | PKG_CONFLICTS | PKG_CONFFILES | PKG_ALTERNATIVES
| PKG_ARCHITECTURE | PKG_ARCH_PRIORITY.

#[global] Instance pkg_field_eq_dec : EqDecision pkg_field.
Proof. solve_decision. Defined.

(** The payload of an attribute.  Every id is used with one kind of
    payload; a pointer payload can be NULL.

    A string attribute keeps the size it was created with: [BString size s]
    is an attribute of [size] bytes that reads as the C string [s]; when
    [s] has [size] characters the attribute holds no NUL.  As the argument
    of [pkg_set_raw], [BString len s] is the [len] bytes at the pointer
    [s].

    [BConffiles l] is a pointer to the list [l].  [BListHead l] is a
    [conffile_list_t] stored by value, as [pkg_merge] does: the two
    pointers of a list head whose ring holds the nodes of [l] and runs
    through the local variable of [pkg_merge] the head was copied from. *)
Inductive blob_data :=
| BString (size : nat) (s : string)
| BInt (i : Z)
| BDepends (p : option (list compound_depend_t))
| BAbstracts (p : option (list abstract_pkg_ptr))
| BConffiles (l : list conffile_t)
| BListHead (l : list conffile_t).

(** The empty flag set of [pkg_state_flag_t]. *)
Definition SF_OK : Z := 0.

Record pkg_t := {
  name : option string;
  src : option nat;
  dest : option nat;
  state_want : pkg_state_want_t;
  state_flag : Z;
  state_status : pkg_state_status_t;
  installed_files : option (list string);
  installed_files_ref_cnt : Z;
  essential : bool;
  provided_by_hand : bool;
  auto_installed : bool;
  parent : option abstract_pkg_ptr;
  blob : list (pkg_field * blob_data)
}.

Record abstract_pkg_t := {
  ab_name : option string;
  pkgs : option (list pkg_ptr);
  provided_by : list abstract_pkg_ptr;
  replaced_by : option (list abstract_pkg_ptr);
  dependencies_checked : bool;
  ab_state_flag : Z;
  ab_state_status : pkg_state_status_t
}.

Definition set_blob (pkg : pkg_t) (b : list (pkg_field * blob_data)) : pkg_t :=
  {| name := name pkg; src := src pkg; dest := dest pkg;
     state_want := state_want pkg; state_flag := state_flag pkg;
     state_status := state_status pkg; installed_files := installed_files pkg;
     installed_files_ref_cnt := installed_files_ref_cnt pkg;
     essential := essential pkg; provided_by_hand := provided_by_hand pkg;
     auto_installed := auto_installed pkg; parent := parent pkg; blob := b |}.

(** [pkg_init] after [xcalloc]. *)
Definition pkg_new : pkg_t :=
  {| name := None; src := None; dest := None;
     state_want := SW_UNKNOWN; state_flag := SF_OK;
     state_status := SS_NOT_INSTALLED; installed_files := None;
     installed_files_ref_cnt := 0; essential := false;
     provided_by_hand := false; auto_installed := false; parent := None;
     blob := [] |}.

(** *** The blob accessors of pkg.c *)

(** [pkg_get_raw]: the payload of the first attribute with this id. *)
Fixpoint blob_get (b : list (pkg_field * blob_data)) (id : pkg_field)
  : option blob_data :=
  match b with
  | [] => None
  | (i, d) :: b' => if decide (i = id) then Some d else blob_get b' id
  end.

Definition pkg_get_raw (pkg : pkg_t) (id : pkg_field) : option blob_data :=
  blob_get (blob pkg) id.

(** The C string that [size] bytes copied from the pointer [s] read as:
    the string, or its first [size] characters when it is longer. *)
Definition copied_string (size : nat) (s : string) : string :=
  String.substring 0 size (c_str s).

(** [blob_put] copies [len] bytes into a new attribute of that size. *)
Definition blob_put_data (val : blob_data) : blob_data :=
  match val with
  | BString len s => BString len (copied_string len s)
  | _ => val
  end.

(** [memcpy(blob_data(cur), val, blob_len(cur))] into an attribute that
    exists copies as many bytes as the attribute was created with,
    whatever [len] is: an int or a pointer is replaced, and of a string
    the first [size] bytes are taken.  What the copy reads behind the NUL
    of a shorter string does not show in the string the attribute reads
    as. *)
Definition blob_overwrite (cur val : blob_data) : blob_data :=
  match cur, val with
  | BString size _, BString _ s => BString size (copied_string size s)
  | _, _ => val
  end.

(** [pkg_set_raw]: overwrite the first attribute with this id, or append a
    new one ([blob_put]). *)
Fixpoint blob_set (b : list (pkg_field * blob_data)) (id : pkg_field)
  (val : blob_data) : list (pkg_field * blob_data) :=
  match b with
  | [] => [(id, blob_put_data val)]
  | (i, d) :: b' =>
      if decide (i = id) then (i, blob_overwrite d val) :: b'
      else (i, d) :: blob_set b' id val
  end.

Definition pkg_set_raw (pkg : pkg_t) (id : pkg_field) (val : blob_data) : pkg_t :=
  set_blob pkg (blob_set (blob pkg) id val).

(** Conversions between C integer types. *)
Definition to_int (z : Z) : Z := (z + 2 ^ 31) mod 2 ^ 32 - 2 ^ 31.
Definition to_unsigned (z : Z) : Z := z mod 2 ^ 32.

(** [pkg_get_string], [pkg_get_int], [pkg_get_ptr] (pkg.h) read the payload
    at its type.  Of a string attribute that holds no NUL the bytes of the
    attribute are given; the read goes on into the padding of the
    attribute, which is zero, when there is some. *)
Definition pkg_get_string (pkg : pkg_t) (id : pkg_field) : option string :=
  match pkg_get_raw pkg id with
  | Some (BString _ s) => Some s
  | _ => None
  end.

Definition pkg_get_int (pkg : pkg_t) (id : pkg_field) : Z :=
  match pkg_get_raw pkg id with
  | Some (BInt i) => to_int i
  | _ => 0
  end.

Definition pkg_get_depends_ptr (pkg : pkg_t) (id : pkg_field)
  : option (list compound_depend_t) :=
  match pkg_get_raw pkg id with
  | Some (BDepends p) => p
  | _ => None
  end.

Definition pkg_get_abstracts_ptr (pkg : pkg_t) (id : pkg_field)
  : option (list abstract_pkg_ptr) :=
  match pkg_get_raw pkg id with
  | Some (BAbstracts p) => p
  | _ => None
  end.

(** What a [conffile_list_t *] read from the blob points to.  [CfList l]
    is the list [l].  [CfRing l] is what the first word of a list head
    stored by value points to: the first node of the ring of [l], taken for
    the head of a list, or, when [l] is empty, the local variable of
    [pkg_merge] the head was copied from.  That variable is gone when
    [pkg_merge] has returned, and every ring runs through it. *)
Inductive conffiles_ptr :=
| CfList (l : list conffile_t)
| CfRing (l : list conffile_t).

Definition pkg_get_conffiles (pkg : pkg_t) : option conffiles_ptr :=
  match pkg_get_raw pkg PKG_CONFFILES with
  | Some (BConffiles l) => Some (CfList l)
  | Some (BListHead l) => Some (CfRing l)
  | _ => None
  end.

Definition pkg_set_int (pkg : pkg_t) (id : pkg_field) (val : Z) : pkg_t :=
  pkg_set_raw pkg id (BInt (to_int val)).

(** [pkg_set_string]: the string is stored without the white space around
    it; NULL and blank strings are not stored. *)
Fixpoint skip_spaces (s : string) : string :=
  match s with
  | EmptyString => s
  | String c s' => if isspace (code c) then skip_spaces s' else s
  end.

(** The string without the white space at its end ([len] counted down). *)
Fixpoint trim_right (s : string) : string :=
  match s with
  | EmptyString => EmptyString
  | String c s' =>
      if code c =? 0 then EmptyString
      else match trim_right s' with
           | EmptyString => if isspace (code c) then EmptyString else String c EmptyString
           | t => String c t
           end
  end.

Definition trim (s : string) : string := trim_right (skip_spaces s).

(** [p[len] = 0] on the attribute [pkg_set_raw] has written.  Inside the
    attribute the NUL ends the string there.  When [len] is not less than
    the size of the attribute the NUL is stored past it, in the padding
    of the attribute or in what follows it in the blob: that byte is not
    followed here, and the attribute is left holding no NUL. *)
Definition blob_put_nul (len : nat) (d : blob_data) : blob_data :=
  match d with
  | BString size s =>
      if (len <? size)%nat then BString size (String.substring 0 len s) else d
  | _ => d
  end.

Fixpoint blob_update (b : list (pkg_field * blob_data)) (id : pkg_field)
  (f : blob_data -> blob_data) : list (pkg_field * blob_data) :=
  match b with
  | [] => []
  | (i, d) :: b' =>
      if decide (i = id) then (i, f d) :: b' else (i, d) :: blob_update b' id f
  end.

Definition pkg_set_string (pkg : pkg_t) (id : pkg_field) (s : option string)
  : pkg_t :=
  match s with
  | None => pkg
  | Some s =>
      match trim s with
      | EmptyString => pkg
      | t =>
          let len := strlen t in
          let pkg := pkg_set_raw pkg id (BString (S len) (skip_spaces s)) in
          set_blob pkg (blob_update (blob pkg) id (blob_put_nul len))
      end
  end.

(** [pkg_get_architecture] (pkg.h) *)
Definition pkg_get_architecture (pkg : pkg_t) : option string :=
  pkg_get_string pkg PKG_ARCHITECTURE.

Lemma blob_get_set_eq b id v :
  blob_get b id = None -> blob_get (blob_set b id v) id = Some (blob_put_data v).
Proof.
  induction b as [|[i d] b IH]; simpl.
  - by rewrite decide_True.
  - destruct (decide (i = id)); [done|]. simpl. by rewrite decide_False.
Qed.

Lemma blob_get_set_ne b id id' v :
  id <> id' -> blob_get (blob_set b id v) id' = blob_get b id'.
Proof.
  intros Hne. induction b as [|[i d] b IH]; simpl.
  - by rewrite decide_False.
  - destruct (decide (i = id)) as [->|]; simpl.
    + by rewrite !decide_False.
    + destruct (decide (i = id')); auto.
Qed.

Lemma blob_get_set_same b id v d :
  blob_get b id = Some d -> blob_get (blob_set b id v) id = Some (blob_overwrite d v).
Proof.
  induction b as [|[i c] b IH]; simpl; [done|].
  destruct (decide (i = id)); simpl.
  - rewrite decide_True by done. by intros [= ->].
  - rewrite decide_False by done. auto.
Qed.

Example trim_example : trim " 1.0-2  "%string = "1.0-2"%string.
Proof. reflexivity. Qed.

(** ** Comparing and parsing versions (pkg.c, pkg_parse.c) *)

Definition pkg_compare_versions (pkg ref_pkg : pkg_t) : Z :=
  let epoch1 := to_unsigned (pkg_get_int pkg PKG_EPOCH) in
  let epoch2 := to_unsigned (pkg_get_int ref_pkg PKG_EPOCH) in
  let revision1 := pkg_get_string pkg PKG_REVISION in
  let revision2 := pkg_get_string ref_pkg PKG_REVISION in
  let version1 := pkg_get_string pkg PKG_VERSION in
  let version2 := pkg_get_string ref_pkg PKG_VERSION in
  if epoch1 >? epoch2 then 1
  else if epoch1 <? epoch2 then -1
  else
    let r := verrevcmp version1 version2 in
    if negb (r =? 0) then r
    else verrevcmp revision1 revision2.

(** [pkg_version_satisfied]: the check used for a version given on the
    command line; [op] is the operator as text. *)
Definition pkg_version_satisfied (it ref : pkg_t) (op : string) : bool :=
  let r := pkg_compare_versions it ref in
  if streq op "<=" || streq op "<" then r <=? 0
  else if streq op ">=" || streq op ">" then r >=? 0
  else if streq op "<<" then r <? 0
  else if streq op ">>" then r >? 0
  else if streq op "=" then r =? 0
  else false.

(** libc's [strtoul] in base 10, for a 32-bit [unsigned long]. *)
Definition ULONG_MAX : Z := 2 ^ 32 - 1.

Fixpoint strtoul_digits (acc : Z) (s : string) : Z :=
  match s with
  | EmptyString => acc
  | String c s' =>
      if isdigit (code c) then strtoul_digits (acc * 10 + (code c - 48)) s'
      else acc
  end.

Definition strtoul (s : string) : Z :=
  let s := skip_spaces s in
  let neg := deref s =? 45 in
  let s := if (deref s =? 45) || (deref s =? 43) then advance s else s in
  let v := strtoul_digits 0 s in
  if v >? ULONG_MAX then ULONG_MAX
  else if neg then (- v) mod (ULONG_MAX + 1)
  else v.

(** [parse_version]: an optional [Version:] tag, the epoch before the
    first colon, the revision after the last dash. *)
Definition parse_version (pkg : pkg_t) (vstr : string) : pkg_t :=
  let vstr := if has_prefix vstr "Version:" then skipn_str 8 vstr else vstr in
  let vstr := skip_spaces vstr in
  let '(pkg, vstr) :=
    match strchr vstr 58 with
    | Some colon => (pkg_set_int pkg PKG_EPOCH (strtoul vstr), advance colon)
    | None => (pkg, vstr)
    end in
  match split_last vstr 45 with
  | Some (dup, rev) =>
      pkg_set_string (pkg_set_string pkg PKG_REVISION (Some rev)) PKG_VERSION (Some dup)
  | None => pkg_set_string pkg PKG_VERSION (Some vstr)
  end.

(** The version of a package as the three attributes [parse_version]
    stores. *)
Definition version_of (s : string) : pkg_t := parse_version pkg_new s.

Example parse_version_full :
  blob (version_of "1:2.0-1") =
  [(PKG_EPOCH, BInt 1); (PKG_REVISION, BString 2 "1"); (PKG_VERSION, BString 4 "2.0")].
Proof. reflexivity. Qed.

Example parse_version_plain : blob (version_of "1.0") = [(PKG_VERSION, BString 4 "1.0")].
Proof. reflexivity. Qed.

Example compare_epoch_wins :
  pkg_compare_versions (version_of "1:2.0-1") (version_of "2.0-1") = 1.
Proof. reflexivity. Qed.

Example compare_tilde :
  pkg_compare_versions (version_of "1.0~rc1") (version_of "1.0") < 0.
Proof. vm_compute. reflexivity. Qed.

Example compare_leading_zeros :
  pkg_compare_versions (version_of "1.00") (version_of "1.0") = 0.
Proof. reflexivity. Qed.

(** ** The constraint of a dependency atom (pkg_depends.c) *)

Definition version_constraints_satisfied (depends : depend_t) (pkg : pkg_t)
  : res bool :=
  if decide (constraint depends = NONE) then Ok true
  else
    vstr ← nonnull (version depends);
    let temp := parse_version pkg_new vstr in
    let comparison := pkg_compare_versions pkg temp in
    if bool_decide (constraint depends = EARLIER) && (comparison <? 0) then Ok true
    else if bool_decide (constraint depends = LATER) && (comparison >? 0) then Ok true
    else if comparison =? 0 then Ok true
    else if bool_decide (constraint depends = LATER_EQUAL) && (comparison >=? 0) then Ok true
    else if bool_decide (constraint depends = EARLIER_EQUAL) && (comparison <=? 0) then Ok true
    else Ok false.

(** *** The order of versions *)

Definition version_less (a b : pkg_t) : Prop := pkg_compare_versions a b < 0.
Definition version_equal (a b : pkg_t) : Prop := pkg_compare_versions a b = 0.
Definition version_greater (a b : pkg_t) : Prop := pkg_compare_versions a b > 0.

Lemma pkg_compare_versions_antisym a b :
  (pkg_compare_versions b a ?= 0) = CompOpp (pkg_compare_versions a b ?= 0).
Proof.
  unfold pkg_compare_versions.
  set (e1 := to_unsigned (pkg_get_int a PKG_EPOCH)).
  set (e2 := to_unsigned (pkg_get_int b PKG_EPOCH)).
  pose proof (verrevcmp_antisym (pkg_get_string a PKG_VERSION) (pkg_get_string b PKG_VERSION)) as Hv.
  pose proof (verrevcmp_antisym (pkg_get_string a PKG_REVISION) (pkg_get_string b PKG_REVISION)) as Hr.
  destruct (Z.gtb_spec e1 e2), (Z.ltb_spec e1 e2), (Z.gtb_spec e2 e1), (Z.ltb_spec e2 e1);
    try lia; try done.
  revert Hv.
  generalize (verrevcmp (pkg_get_string a PKG_VERSION) (pkg_get_string b PKG_VERSION)).
  generalize (verrevcmp (pkg_get_string b PKG_VERSION) (pkg_get_string a PKG_VERSION)).
  intros vba vab Hv.
  destruct (Z.eqb_spec vab 0) as [Eab|Eab], (Z.eqb_spec vba 0) as [Eba|Eba];
    simpl negb; cbv iota; try done.
  - subst vab. simpl in Hv. apply Z.compare_eq in Hv. done.
  - subst vba. rewrite Z.compare_refl in Hv.
    destruct (Z.compare_spec vab 0); simpl in Hv; done.
Qed.

(** C5: version comparison is a total order on versions: every pair
    compares Less, Equal or Greater; [compare a b] is Less exactly when
    [compare b a] is Greater; and Less is transitive. *)
Theorem pkg_compare_versions_total_order (a b c : pkg_t) :
  (version_less a b \/ version_equal a b \/ version_greater a b) /\
  (version_less a b <-> version_greater b a) /\
  (version_less a b /\ version_less b c -> version_less a c).
Proof.
  unfold version_less, version_equal, version_greater. split; [lia|]. split.
  - pose proof (pkg_compare_versions_antisym a b) as H.
    destruct (Z.compare_spec (pkg_compare_versions a b) 0),
             (Z.compare_spec (pkg_compare_versions b a) 0); simpl in H; try done; lia.
  - intros [Hab Hbc]. revert Hab Hbc. unfold pkg_compare_versions.
    set (e1 := to_unsigned (pkg_get_int a PKG_EPOCH)).
    set (e2 := to_unsigned (pkg_get_int b PKG_EPOCH)).
    set (e3 := to_unsigned (pkg_get_int c PKG_EPOCH)).
    set (v1 := pkg_get_string a PKG_VERSION). set (v2 := pkg_get_string b PKG_VERSION).
    set (v3 := pkg_get_string c PKG_VERSION).
    set (r1 := pkg_get_string a PKG_REVISION). set (r2 := pkg_get_string b PKG_REVISION).
    set (r3 := pkg_get_string c PKG_REVISION).
    destruct (Z.gtb_spec e1 e2); [lia|]. destruct (Z.gtb_spec e2 e3); [lia|].
    destruct (Z.gtb_spec e1 e3); [lia|].
    destruct (Z.ltb_spec e1 e2), (Z.ltb_spec e2 e3), (Z.ltb_spec e1 e3); try lia.
    pose proof (verrevcmp_trans v1 v2 v3) as Hvt.
    pose proof (verrevcmp_trans r1 r2 r3) as Hrt.
    pose proof (verrevcmp_eq_l v1 v2 v3) as Hvl.
    pose proof (verrevcmp_eq_r v1 v2 v3) as Hvr.
    destruct (Z.eqb_spec (verrevcmp v1 v2) 0) as [E12|E12],
             (Z.eqb_spec (verrevcmp v2 v3) 0) as [E23|E23]; simpl negb; cbv iota; intros H12 H23.
    + specialize (Hvl E12). rewrite E23, Z.compare_refl in Hvl.
      apply Z.compare_eq in Hvl. rewrite Hvl. simpl. auto.
    + specialize (Hvl E12).
      destruct (Z.eqb_spec (verrevcmp v1 v3) 0) as [E13|E13]; simpl negb; cbv iota.
      * rewrite E13, Z.compare_refl in Hvl. symmetry in Hvl. apply Z.compare_eq in Hvl. lia.
      * unfold Z.lt in *. by rewrite Hvl.
    + specialize (Hvr E23).
      destruct (Z.eqb_spec (verrevcmp v1 v3) 0) as [E13|E13]; simpl negb; cbv iota.
      * rewrite E13, Z.compare_refl in Hvr. apply Z.compare_eq in Hvr. lia.
      * unfold Z.lt in *. by rewrite <- Hvr.
    + specialize (Hvt H12 H23).
      destruct (Z.eqb_spec (verrevcmp v1 v3) 0) as [E13|E13]; simpl negb; cbv iota; lia.
Qed.

(** What [version_constraints_satisfied] computes for an atom that carries a
    version: the comparison against the atom's version, where Equal is
    accepted under every operator. *)
Lemma version_constraints_satisfied_spec depends pkg vstr :
  version depends = Some vstr ->
  version_constraints_satisfied depends pkg =
  Ok (let comparison := pkg_compare_versions pkg (parse_version pkg_new vstr) in
      match constraint depends with
      | NONE => true
      | EARLIER | EARLIER_EQUAL => comparison <=? 0
      | EQUAL => comparison =? 0
      | LATER | LATER_EQUAL => comparison >=? 0
      end).
Proof.
  intros Hv. unfold version_constraints_satisfied. rewrite Hv. simpl.
  destruct (constraint depends); simpl; try done;
    destruct (Z.ltb_spec (pkg_compare_versions pkg (parse_version pkg_new vstr)) 0);
    destruct (Z.gtb_spec (pkg_compare_versions pkg (parse_version pkg_new vstr)) 0);
    destruct (Z.eqb_spec (pkg_compare_versions pkg (parse_version pkg_new vstr)) 0);
    destruct (Z.leb_spec (pkg_compare_versions pkg (parse_version pkg_new vstr)) 0);
    destruct (Z.geb_spec (pkg_compare_versions pkg (parse_version pkg_new vstr)) 0);
    try done; lia.
Qed.

Lemma version_constraints_satisfied_none depends pkg :
  constraint depends = NONE -> version_constraints_satisfied depends pkg = Ok true.
Proof. intros H. unfold version_constraints_satisfied. by rewrite H. Qed.

(** C1: a package at version 1.0 against the atom [(<< 1.0)]: the versions
    compare Equal, the strict operator is reported as satisfied all the
    same, and [pkg_version_satisfied] rejects the same pair under the same
    operator. *)
Theorem version_constraints_satisfied_strict_on_equal :
  let pkg := version_of "1.0" in
  let atom := {| constraint := EARLIER; version := Some "1.0"%string; dep_pkg := O |} in
  pkg_compare_versions pkg (version_of "1.0") = 0 /\
  version_constraints_satisfied atom pkg = Ok true /\
  version_constraints_satisfied
    {| constraint := LATER; version := Some "1.0"%string; dep_pkg := O |} pkg = Ok true /\
  pkg_version_satisfied pkg (version_of "1.0") "<<" = false /\
  pkg_version_satisfied pkg (version_of "1.0") ">>" = false.
Proof. vm_compute. repeat split. Qed.

(** C2, as stated, fails: version 1.0 without a revision is not Less than
    1.0-0, whose revision is the string 0; the two compare Equal. *)
Lemma null_revision_less_than_zero_fails :
  let a := version_of "1.0" in
  let b := version_of "1.0-0" in
  pkg_get_int a PKG_EPOCH = pkg_get_int b PKG_EPOCH /\
  pkg_get_string a PKG_VERSION = pkg_get_string b PKG_VERSION /\
  pkg_get_string a PKG_REVISION = None /\
  pkg_get_string b PKG_REVISION = Some "0"%string /\
  ~ version_less a b.
Proof. vm_compute. repeat split; congruence. Qed.

(** C2, amended: two versions equal in epoch and upstream, one with an
    absent or empty revision and the other with revision 0, compare Equal
    in both directions: the leading zeros of a digit run are skipped, so
    the revision 0 is an empty digit run like the absent revision. *)
Theorem null_revision_equals_zero (a b : pkg_t) :
  to_unsigned (pkg_get_int a PKG_EPOCH) = to_unsigned (pkg_get_int b PKG_EPOCH) ->
  pkg_get_string a PKG_VERSION = pkg_get_string b PKG_VERSION ->
  or_empty (pkg_get_string a PKG_REVISION) = EmptyString ->
  pkg_get_string b PKG_REVISION = Some "0"%string ->
  version_equal a b /\ version_equal b a.
Proof.
  intros He Hv Ha Hb. unfold version_equal, pkg_compare_versions.
  rewrite He, Hv, Hb, !verrevcmp_refl.
  destruct (Z.gtb_spec (to_unsigned (pkg_get_int b PKG_EPOCH))
                       (to_unsigned (pkg_get_int b PKG_EPOCH))); [lia|].
  destruct (Z.ltb_spec (to_unsigned (pkg_get_int b PKG_EPOCH))
                       (to_unsigned (pkg_get_int b PKG_EPOCH))); [lia|].
  simpl negb. cbv iota. unfold verrevcmp. rewrite Ha. by vm_compute.
Qed.

Lemma null_revision_equals_zero_witness :
  version_equal (version_of "1.0") (version_of "1.0-0") /\
  version_equal (version_of "1.0-0") (version_of "1.0").
Proof. apply null_revision_equals_zero; reflexivity. Defined.

(** ** The state flags in the Status line (pkg.c)

    The values of [enum pkg_state_flag] and the mask
    [SF_NONVOLATILE_FLAGS] come from pkg.h and are parameters here. *)

Section StateFlags.

Variables SF_REINSTREQ SF_HOLD SF_REPLACE SF_NOPRUNE SF_PREFER SF_OBSOLETE SF_USER : Z.
Variable SF_NONVOLATILE_FLAGS : Z.

Definition pkg_state_flag_map : list (Z * string) :=
  [ (SF_OK, "ok"%string);
    (SF_REINSTREQ, "reinstreq"%string);
    (SF_HOLD, "hold"%string);
    (SF_REPLACE, "replace"%string);
    (SF_NOPRUNE, "noprune"%string);
    (SF_PREFER, "prefer"%string);
    (SF_OBSOLETE, "obsolete"%string);
    (SF_USER, "user"%string) ].

(** [strncat(dst, src, n)] *)
Definition strncat (dst src : string) (n : nat) : string :=
  String.append dst (String.substring 0 (Nat.min n (strlen src)) src).

(** [str[strlen(str) - 1] = 0]; on the empty string this writes in front
    of the buffer. *)
Fixpoint squash_last (s : string) : res string :=
  match s with
  | EmptyString => Fault
  | String c EmptyString => Ok EmptyString
  | String c s' => s'' ← squash_last s'; Ok (String c s'')
  end.

Definition pkg_state_flag_to_str (sf : Z) : res string :=
  let sf := Z.land sf SF_NONVOLATILE_FLAGS in
  if sf =? 0 then Ok "ok"%string
  else
    let len :=
      fold_left (fun len (e : Z * string) =>
                   if negb (Z.land sf (fst e) =? 0) then (len + strlen (snd e) + 1)%nat
                   else len)
                pkg_state_flag_map O in
    let str :=
      fold_left (fun str (e : Z * string) =>
                   if negb (Z.land sf (fst e) =? 0)
                   then strncat (strncat str (snd e) len) "," len
                   else str)
                pkg_state_flag_map EmptyString in
    squash_last str.

(** The loop of [pkg_state_flag_from_str]: one pass over the map, the
    string pointer moving past every name it matches. *)
Fixpoint flag_from_str_loop (map : list (Z * string)) (sf : Z) (str : string) : Z :=
  match map with
  | [] => sf
  | (value, sfname) :: map' =>
      if has_prefix str sfname then
        let sf := Z.lor sf value in
        let str := skipn_str (strlen sfname) str in
        if deref str =? 44 then flag_from_str_loop map' sf (advance str)
        else sf
      else flag_from_str_loop map' sf str
  end.

Definition pkg_state_flag_from_str (str : string) : Z :=
  if streq str "ok" then SF_OK
  else flag_from_str_loop pkg_state_flag_map SF_OK str.

Definition single_bit (v : Z) : Prop := exists k, 0 <= k /\ v = 2 ^ k.

Definition all_named_flags : Z :=
  Z.lor SF_REINSTREQ (Z.lor SF_HOLD (Z.lor SF_REPLACE (Z.lor SF_NOPRUNE
    (Z.lor SF_PREFER (Z.lor SF_OBSOLETE SF_USER))))).

Hypothesis reinstreq_bit : single_bit SF_REINSTREQ.
Hypothesis hold_bit : single_bit SF_HOLD.
Hypothesis replace_bit : single_bit SF_REPLACE.
Hypothesis noprune_bit : single_bit SF_NOPRUNE.
Hypothesis prefer_bit : single_bit SF_PREFER.
Hypothesis obsolete_bit : single_bit SF_OBSOLETE.
Hypothesis user_bit : single_bit SF_USER.
Hypothesis nonvolatile_named :
  Z.land SF_NONVOLATILE_FLAGS all_named_flags = SF_NONVOLATILE_FLAGS.

Lemma single_bit_land v x :
  single_bit v ->
  (Z.land x v =? 0) = true \/ ((Z.land x v =? 0) = false /\ Z.land x v = v).
Proof.
  intros (k & Hk & ->).
  assert (Z.land x (2 ^ k) = if Z.testbit x k then 2 ^ k else 0) as ->.
  { apply Z.bits_inj'. intros n Hn. rewrite Z.land_spec, Z.pow2_bits_eqb by done.
    destruct (Z.eqb_spec k n) as [->|Hne].
    - destruct (Z.testbit x n); simpl.
      + by rewrite Z.pow2_bits_eqb, Z.eqb_refl.
      + by rewrite Z.bits_0.
    - rewrite andb_false_r. destruct (Z.testbit x k).
      + rewrite Z.pow2_bits_eqb by done. symmetry. by apply Z.eqb_neq.
      + by rewrite Z.bits_0. }
  destruct (Z.testbit x k); [right|left; done].
  split; [|done]. apply Z.eqb_neq. pose proof (Z.pow_pos_nonneg 2 k). lia.
Qed.

Lemma nonvolatile_decompose sf :
  let sf' := Z.land sf SF_NONVOLATILE_FLAGS in
  sf' =
  Z.lor (Z.land sf' SF_REINSTREQ) (Z.lor (Z.land sf' SF_HOLD) (Z.lor (Z.land sf' SF_REPLACE)
    (Z.lor (Z.land sf' SF_NOPRUNE) (Z.lor (Z.land sf' SF_PREFER)
      (Z.lor (Z.land sf' SF_OBSOLETE) (Z.land sf' SF_USER)))))).
Proof.
  intros sf'. rewrite <- !Z.land_lor_distr_r. fold all_named_flags.
  unfold sf'. by rewrite <- Z.land_assoc, nonvolatile_named.
Qed.

Lemma fold_left_selected {A} (sel : Z -> bool) (f : A -> string -> A) l : forall a,
  fold_left (fun acc (e : Z * string) => if sel (fst e) then f acc (snd e) else acc) l a =
  fold_left (fun acc (e : bool * string) => if fst e then f acc (snd e) else acc)
            (map (fun e : Z * string => (sel (fst e), snd e)) l) a.
Proof. induction l as [|e l IH]; intros a; simpl; [done|]. by rewrite IH. Qed.

(** Which entries of the map [flag_from_str_loop] matches depends on the
    names only. *)
Fixpoint matched (names : list string) (str : string) : list bool :=
  match names with
  | [] => []
  | sfname :: names' =>
      if has_prefix str sfname then
        let str := skipn_str (strlen sfname) str in
        true :: (if deref str =? 44 then matched names' (advance str)
                 else map (fun _ => false) names')
      else false :: matched names' str
  end.

Definition lor_selected (sf : Z) (sel : list (Z * bool)) : Z :=
  fold_left (fun sf (e : Z * bool) => if snd e then Z.lor sf (fst e) else sf) sel sf.

Lemma lor_selected_none (l : list (Z * string)) sf :
  lor_selected sf (combine (map fst l) (map (fun _ => false) (map snd l))) = sf.
Proof. revert sf. induction l as [|e l IH]; intros sf; simpl; [done|]. apply IH. Qed.

Lemma flag_from_str_loop_matched l : forall sf str,
  flag_from_str_loop l sf str =
  lor_selected sf (combine (map fst l) (matched (map snd l) str)).
Proof.
  induction l as [|[v n] l IH]; intros sf str; [done|].
  cbn [flag_from_str_loop map fst snd matched].
  destruct (has_prefix str n); [|apply IH].
  cbv zeta. destruct (deref _ =? 44); cbn [combine]; unfold lor_selected; cbn [fold_left fst snd].
  - apply IH.
  - symmetry. apply lor_selected_none.
Qed.

(** C10: writing a flag set and reading the text back gives the
    non-volatile part of the set, whatever flag set is written; the empty
    set is written as ok, and ok is read as the empty set. *)
Theorem pkg_state_flag_round_trip (sf : Z) :
  (exists str, pkg_state_flag_to_str sf = Ok str /\
               pkg_state_flag_from_str str = Z.land sf SF_NONVOLATILE_FLAGS) /\
  pkg_state_flag_to_str SF_OK = Ok "ok"%string /\
  pkg_state_flag_from_str "ok" = SF_OK.
Proof.
  split; [|split; [done|done]].
  pose proof (nonvolatile_decompose sf) as Hdec. cbv zeta in Hdec.
  unfold pkg_state_flag_to_str.
  set (sf' := Z.land sf SF_NONVOLATILE_FLAGS) in *.
  destruct (Z.eqb_spec sf' 0) as [E|E]; [rewrite E; by exists "ok"%string|].
  cbv zeta.
  rewrite (fold_left_selected (fun v => negb (Z.land sf' v =? 0))
             (fun len n => (len + strlen n + 1)%nat)).
  rewrite (fold_left_selected (fun v => negb (Z.land sf' v =? 0))
             (fun str n => strncat (strncat str n _) "," _)).
  unfold pkg_state_flag_map. cbn [map fst snd].
  unfold SF_OK. rewrite !Z.land_0_r. change (negb (0 =? 0)) with false.
  destruct (single_bit_land _ sf' reinstreq_bit) as [H1|[H1 E1]];
  destruct (single_bit_land _ sf' hold_bit) as [H2|[H2 E2]];
  destruct (single_bit_land _ sf' replace_bit) as [H3|[H3 E3]];
  destruct (single_bit_land _ sf' noprune_bit) as [H4|[H4 E4]];
  destruct (single_bit_land _ sf' prefer_bit) as [H5|[H5 E5]];
  destruct (single_bit_land _ sf' obsolete_bit) as [H6|[H6 E6]];
  destruct (single_bit_land _ sf' user_bit) as [H7|[H7 E7]];
  rewrite H1, H2, H3, H4, H5, H6, H7; simpl negb;
  repeat match goal with
         | H : (Z.land sf' ?v =? 0) = true |- _ =>
             apply Z.eqb_eq in H; rewrite H in Hdec; clear H
         | H : Z.land sf' ?v = ?v |- _ => rewrite H in Hdec; clear H
         end;
  rewrite ?Z.lor_0_l, ?Z.lor_0_r in Hdec; try done.
  all: (eexists; split; [vm_compute; reflexivity|]).
  all: (rewrite Hdec; unfold pkg_state_flag_from_str, pkg_state_flag_map, SF_OK;
  rewrite flag_from_str_loop_matched; cbn [map fst snd];
  match goal with
  | |- context [streq ?s ?t] =>
      let b := eval vm_compute in (streq s t) in change (streq s t) with b
  end;
  match goal with
  | |- context [matched ?l ?s] =>
      let m := eval vm_compute in (matched l s) in change (matched l s) with m
  end;
  cbv [lor_selected combine fold_left fst snd];
  rewrite ?Z.lor_0_l, ?Z.lor_assoc; reflexivity).
Qed.

End StateFlags.

(** The flag values of opkg's pkg.h satisfy the assumptions. *)
Lemma pkg_state_flag_round_trip_witness :
  (exists str, pkg_state_flag_to_str 1 2 4 8 16 32 256 314 (2 + 16 + 64) = Ok str /\
               pkg_state_flag_from_str 1 2 4 8 16 32 256 str = Z.land (2 + 16 + 64) 314) /\
  pkg_state_flag_to_str 1 2 4 8 16 32 256 314 SF_OK = Ok "ok"%string /\
  pkg_state_flag_from_str 1 2 4 8 16 32 256 "ok" = SF_OK.
Proof.
  apply pkg_state_flag_round_trip.
  - by exists 0.
  - by exists 1.
  - by exists 2.
  - by exists 3.
  - by exists 4.
  - by exists 5.
  - by exists 8.
  - reflexivity.
Defined.

Example pkg_state_flag_to_str_example :
  pkg_state_flag_to_str 1 2 4 8 16 32 256 314 (2 + 16 + 64) = Ok "hold,prefer"%string.
Proof. reflexivity. Qed.

(** ** The conffile check (conffile.c)

    [HAVE_MD5] is a build option; the digests of the file system come from
    file_util.c and are parameters. *)

Section Conffile.

Variable HAVE_MD5 : bool.
Variable root_filename_alloc : string -> string.
Variable file_md5sum_alloc : string -> option string.
Variable file_sha256sum_alloc : string -> option string.

Definition conffile_has_been_modified (conffile : conffile_t) : Z :=
  let filename := cf_name conffile in
  match cf_value conffile with
  | None => 1
  | Some value =>
      let root_filename := root_filename_alloc filename in
      let chksum :=
        if HAVE_MD5 then
          if (33 <? strlen value)%nat then file_sha256sum_alloc root_filename
          else file_md5sum_alloc root_filename
        else file_sha256sum_alloc root_filename in
      match chksum with
      | Some chksum => strcmp chksum value
      | None => 1
      end
  end.

(** C9: with MD5 support built in, a conffile without a recorded digest
    or whose digest cannot be computed is modified; otherwise the digest is
    MD5 for a recorded digest of at most 33 characters and SHA-256 for a
    longer one, and the conffile is modified exactly when the computed
    digest differs from the recorded one. *)
Theorem conffile_has_been_modified_spec (conffile : conffile_t) :
  HAVE_MD5 = true ->
  let modified := conffile_has_been_modified conffile <> 0 in
  match cf_value conffile with
  | None => modified
  | Some recorded =>
      let digest :=
        if (strlen recorded <=? 33)%nat
        then file_md5sum_alloc (root_filename_alloc (cf_name conffile))
        else file_sha256sum_alloc (root_filename_alloc (cf_name conffile)) in
      match digest with
      | None => modified
      | Some fresh => modified <-> c_str fresh <> c_str recorded
      end
  end.
Proof.
  intros Hmd5. unfold conffile_has_been_modified. rewrite Hmd5.
  destruct (cf_value conffile) as [recorded|]; [|done]. cbv zeta.
  destruct (Nat.leb_spec (strlen recorded) 33) as [Hle|Hgt].
  - destruct (Nat.ltb_spec 33 (strlen recorded)); [lia|].
    destruct (file_md5sum_alloc _) as [fresh|]; [|done].
    by rewrite strcmp_zero_iff.
  - destruct (Nat.ltb_spec 33 (strlen recorded)); [|lia].
    destruct (file_sha256sum_alloc _) as [fresh|]; [|done].
    by rewrite strcmp_zero_iff.
Qed.

(** Without MD5 support the digest is always SHA-256. *)
Lemma conffile_has_been_modified_sha256_only conffile recorded :
  HAVE_MD5 = false -> cf_value conffile = Some recorded ->
  conffile_has_been_modified conffile =
  match file_sha256sum_alloc (root_filename_alloc (cf_name conffile)) with
  | Some chksum => strcmp chksum recorded
  | None => 1
  end.
Proof. intros H1 H2. unfold conffile_has_been_modified. by rewrite H1, H2. Qed.

End Conffile.

(** A file whose MD5 digest is the recorded one is not modified. *)
Lemma conffile_has_been_modified_spec_witness :
  let md5 := "d41d8cd98f00b204e9800998ecf8427e"%string in
  let conffile := {| cf_name := "/etc/motd"; cf_value := Some md5 |} in
  conffile_has_been_modified true (fun f => f) (fun _ => Some md5) (fun _ => None) conffile <> 0
  <-> c_str md5 <> c_str md5.
Proof.
  exact (conffile_has_been_modified_spec true (fun f => f)
           (fun _ => Some "d41d8cd98f00b204e9800998ecf8427e"%string) (fun _ => None)
           {| cf_name := "/etc/motd";
              cf_value := Some "d41d8cd98f00b204e9800998ecf8427e"%string |} eq_refl).
Defined.

(** ** Merging two records of one package (pkg.c) *)

Definition set_auto_installed (pkg : pkg_t) (v : bool) : pkg_t :=
  {| name := name pkg; src := src pkg; dest := dest pkg;
     state_want := state_want pkg; state_flag := state_flag pkg;
     state_status := state_status pkg; installed_files := installed_files pkg;
     installed_files_ref_cnt := installed_files_ref_cnt pkg;
     essential := essential pkg; provided_by_hand := provided_by_hand pkg;
     auto_installed := v; parent := parent pkg; blob := blob pkg |}.

Definition set_src (pkg : pkg_t) (v : option nat) : pkg_t :=
  {| name := name pkg; src := v; dest := dest pkg;
     state_want := state_want pkg; state_flag := state_flag pkg;
     state_status := state_status pkg; installed_files := installed_files pkg;
     installed_files_ref_cnt := installed_files_ref_cnt pkg;
     essential := essential pkg; provided_by_hand := provided_by_hand pkg;
     auto_installed := auto_installed pkg; parent := parent pkg; blob := blob pkg |}.

Definition set_dest (pkg : pkg_t) (v : option nat) : pkg_t :=
  {| name := name pkg; src := src pkg; dest := v;
     state_want := state_want pkg; state_flag := state_flag pkg;
     state_status := state_status pkg; installed_files := installed_files pkg;
     installed_files_ref_cnt := installed_files_ref_cnt pkg;
     essential := essential pkg; provided_by_hand := provided_by_hand pkg;
     auto_installed := auto_installed pkg; parent := parent pkg; blob := blob pkg |}.

Definition set_installed_files (pkg : pkg_t) (v : option (list string)) (cnt : Z) : pkg_t :=
  {| name := name pkg; src := src pkg; dest := dest pkg;
     state_want := state_want pkg; state_flag := state_flag pkg;
     state_status := state_status pkg; installed_files := v;
     installed_files_ref_cnt := cnt;
     essential := essential pkg; provided_by_hand := provided_by_hand pkg;
     auto_installed := auto_installed pkg; parent := parent pkg; blob := blob pkg |}.

Definition set_essential (pkg : pkg_t) (v : bool) : pkg_t :=
  {| name := name pkg; src := src pkg; dest := dest pkg;
     state_want := state_want pkg; state_flag := state_flag pkg;
     state_status := state_status pkg; installed_files := installed_files pkg;
     installed_files_ref_cnt := installed_files_ref_cnt pkg;
     essential := v; provided_by_hand := provided_by_hand pkg;
     auto_installed := auto_installed pkg; parent := parent pkg; blob := blob pkg |}.

(** [if (!pkg_get_string(oldpkg, id)) pkg_set_string(oldpkg, id,
    pkg_get_string(newpkg, id));] *)
Definition merge_string (id : pkg_field) (oldpkg newpkg : pkg_t) : pkg_t :=
  match pkg_get_string oldpkg id with
  | Some _ => oldpkg
  | None => pkg_set_string oldpkg id (pkg_get_string newpkg id)
  end.

Definition merge_int (id : pkg_field) (oldpkg newpkg : pkg_t) : pkg_t :=
  if pkg_get_int oldpkg id =? 0
  then pkg_set_int oldpkg id (pkg_get_int newpkg id)
  else oldpkg.

(** A pointer to an array of compound dependencies moves to the old
    record and is cleared in the new one. *)
Definition merge_depends (id : pkg_field) (pkgs : pkg_t * pkg_t) : pkg_t * pkg_t :=
  let '(oldpkg, newpkg) := pkgs in
  match pkg_get_depends_ptr oldpkg id with
  | Some _ => (oldpkg, newpkg)
  | None =>
      (pkg_set_raw oldpkg id (BDepends (pkg_get_depends_ptr newpkg id)),
       pkg_set_raw newpkg id (BDepends None))
  end.

Definition merge_replaces (pkgs : pkg_t * pkg_t) : pkg_t * pkg_t :=
  let '(oldpkg, newpkg) := pkgs in
  match pkg_get_abstracts_ptr oldpkg PKG_REPLACES with
  | Some _ => (oldpkg, newpkg)
  | None =>
      (pkg_set_raw oldpkg PKG_REPLACES (BAbstracts (pkg_get_abstracts_ptr newpkg PKG_REPLACES)),
       pkg_set_raw newpkg PKG_REPLACES (BAbstracts None))
  end.

(** [ab = pkg_get_ptr(oldpkg, PKG_PROVIDES); if (!ab || !ab[0] || !ab[1])]:
    the old list counts as missing unless it has two entries. *)
Definition provides_missing (ab : option (list abstract_pkg_ptr)) : bool :=
  match ab with
  | None => true
  | Some [] => true
  | Some [_] => true
  | Some (_ :: _ :: _) => false
  end.

Definition merge_provides (pkgs : pkg_t * pkg_t) : pkg_t * pkg_t :=
  let '(oldpkg, newpkg) := pkgs in
  if provides_missing (pkg_get_abstracts_ptr oldpkg PKG_PROVIDES) then
    (pkg_set_raw oldpkg PKG_PROVIDES (BAbstracts (pkg_get_abstracts_ptr newpkg PKG_PROVIDES)),
     pkg_set_raw newpkg PKG_PROVIDES (BAbstracts None))
  else (oldpkg, newpkg).

(** The conffiles of the new record are spliced out of its list into the
    local variable [head], which leaves the list of the new record empty,
    and [head] is stored in the old record by value:
    [pkg_set_raw(oldpkg, PKG_CONFFILES, &head, sizeof(head))].  When the
    pointer of the new record is itself one into a ring, the splice writes
    to the local variable of the earlier call. *)
Definition merge_conffiles (pkgs : pkg_t * pkg_t) : res (pkg_t * pkg_t) :=
  let '(oldpkg, newpkg) := pkgs in
  match pkg_get_conffiles oldpkg with
  | Some _ => Ok (oldpkg, newpkg)
  | None =>
      match pkg_get_conffiles newpkg with
      | Some (CfList cf) =>
          Ok (pkg_set_raw oldpkg PKG_CONFFILES (BListHead cf),
              pkg_set_raw newpkg PKG_CONFFILES (BConffiles []))
      | Some (CfRing _) => Fault
      | None => Ok (oldpkg, newpkg)
      end
  end.

Definition merge_installed_files (pkgs : pkg_t * pkg_t) : pkg_t * pkg_t :=
  let '(oldpkg, newpkg) := pkgs in
  match installed_files oldpkg with
  | Some _ => (oldpkg, newpkg)
  | None =>
      (set_installed_files oldpkg (installed_files newpkg) (installed_files_ref_cnt newpkg),
       set_installed_files newpkg None (installed_files_ref_cnt newpkg))
  end.

Definition merge_auto_installed (oldpkg newpkg : pkg_t) : pkg_t :=
  if auto_installed oldpkg then oldpkg
  else set_auto_installed oldpkg (auto_installed newpkg).

Definition merge_src (oldpkg newpkg : pkg_t) : pkg_t :=
  match src oldpkg with
  | Some _ => oldpkg
  | None => set_src oldpkg (src newpkg)
  end.

Definition merge_dest (oldpkg newpkg : pkg_t) : pkg_t :=
  match dest oldpkg with
  | Some _ => oldpkg
  | None => set_dest oldpkg (dest newpkg)
  end.

Definition merge_essential (oldpkg newpkg : pkg_t) : pkg_t :=
  if essential oldpkg then oldpkg
  else set_essential oldpkg (essential newpkg).

(** [pkg_merge] for two different records, in the order of the source. *)
Definition pkg_merge_fields (oldpkg newpkg : pkg_t) : res (pkg_t * pkg_t) :=
  let oldpkg := merge_auto_installed oldpkg newpkg in
  let oldpkg := merge_src oldpkg newpkg in
  let oldpkg := merge_dest oldpkg newpkg in
  let oldpkg := merge_string PKG_ARCHITECTURE oldpkg newpkg in
  let oldpkg := merge_int PKG_ARCH_PRIORITY oldpkg newpkg in
  let oldpkg := merge_string PKG_SECTION oldpkg newpkg in
  let oldpkg := merge_string PKG_MAINTAINER oldpkg newpkg in
  let oldpkg := merge_string PKG_DESCRIPTION oldpkg newpkg in
  let '(oldpkg, newpkg) := merge_depends PKG_DEPENDS (oldpkg, newpkg) in
  let '(oldpkg, newpkg) := merge_provides (oldpkg, newpkg) in
  let '(oldpkg, newpkg) := merge_depends PKG_CONFLICTS (oldpkg, newpkg) in
  let '(oldpkg, newpkg) := merge_replaces (oldpkg, newpkg) in
  let oldpkg := merge_string PKG_FILENAME oldpkg newpkg in
  let oldpkg := merge_string PKG_LOCAL_FILENAME oldpkg newpkg in
  let oldpkg := merge_string PKG_TMP_UNPACK_DIR oldpkg newpkg in
  let oldpkg := merge_string PKG_MD5SUM oldpkg newpkg in
  let oldpkg := merge_string PKG_SHA256SUM oldpkg newpkg in
  let oldpkg := merge_int PKG_SIZE oldpkg newpkg in
  let oldpkg := merge_int PKG_INSTALLED_SIZE oldpkg newpkg in
  let oldpkg := merge_string PKG_PRIORITY oldpkg newpkg in
  let oldpkg := merge_string PKG_SOURCE oldpkg newpkg in
  pkgs ← merge_conffiles (oldpkg, newpkg);
  let '(oldpkg, newpkg) := merge_installed_files pkgs in
  let oldpkg := merge_essential oldpkg newpkg in
  Ok (oldpkg, newpkg).

(** What [pkg_set_string] leaves in the blob for a given string. *)
Definition stored_string (s : option string) : option string :=
  match s with
  | None => None
  | Some s =>
      match trim s with
      | EmptyString => None
      | t => Some t
      end
  end.

Definition merged_string_fields : list pkg_field :=
  [PKG_ARCHITECTURE; PKG_SECTION; PKG_MAINTAINER; PKG_DESCRIPTION; PKG_FILENAME;
   PKG_LOCAL_FILENAME; PKG_TMP_UNPACK_DIR; PKG_MD5SUM; PKG_SHA256SUM;
   PKG_PRIORITY; PKG_SOURCE].

Definition merged_int_fields : list pkg_field :=
  [PKG_ARCH_PRIORITY; PKG_SIZE; PKG_INSTALLED_SIZE].

Definition merged_depends_fields : list pkg_field := [PKG_DEPENDS; PKG_CONFLICTS].

(** Keep the old value when there is one, take the new one otherwise. *)
Definition old_or_new {A} (old new : option A) : option A :=
  match old with
  | Some a => Some a
  | None => new
  end.

Lemma to_int_idem z : to_int (to_int z) = to_int z.
Proof.
  unfold to_int.
  pose proof (Z.mod_pos_bound (z + 2 ^ 31) (2 ^ 32) ltac:(lia)).
  replace ((z + 2 ^ 31) mod 2 ^ 32 - 2 ^ 31 + 2 ^ 31) with ((z + 2 ^ 31) mod 2 ^ 32) by lia.
  by rewrite Z.mod_mod.
Qed.

Lemma pkg_get_raw_set pkg id v i :
  pkg_get_raw (pkg_set_raw pkg id v) i =
  if decide (i = id)
  then Some (match pkg_get_raw pkg id with
             | Some d => blob_overwrite d v
             | None => blob_put_data v
             end)
  else pkg_get_raw pkg i.
Proof.
  unfold pkg_get_raw, pkg_set_raw. cbn [blob set_blob].
  destruct (decide (i = id)) as [->|Hne].
  - destruct (blob_get (blob pkg) id) eqn:E.
    + by apply blob_get_set_same.
    + by apply blob_get_set_eq.
  - by apply blob_get_set_ne.
Qed.

(** The effect of each step of [pkg_merge] on the attributes. *)

Definition raw_string (r : option blob_data) : option string :=
  match r with
  | Some (BString _ s) => Some s
  | _ => None
  end.

Definition merged_string_raw (ro rn : option blob_data) : option blob_data :=
  match raw_string ro with
  | Some _ => ro
  | None =>
      match stored_string (raw_string rn) with
      | Some t => Some (BString (S (strlen t)) t)
      | None => ro
      end
  end.

(** A string is cut where [trim_right] ends: what is trimmed off follows
    it. *)
Lemma trim_right_prefix x : exists r, x = String.append (trim_right x) r.
Proof.
  induction x as [|c x [r IH]]; [by exists EmptyString|]. cbn [trim_right].
  destruct (code c =? 0); [by exists (String c x)|].
  destruct (trim_right x) as [|d t] eqn:Et.
  - destruct (isspace (code c)); [by exists (String c x)|].
    exists r. simpl. by rewrite IH at 1.
  - exists r. simpl. by rewrite IH at 1.
Qed.

Lemma trim_right_c_str_prefix x :
  exists r, c_str x = String.append (trim_right x) r.
Proof.
  induction x as [|c x [r IH]]; [by exists EmptyString|]. cbn [trim_right c_str].
  destruct (code c =? 0); [by exists EmptyString|].
  destruct (trim_right x) as [|d t] eqn:Et.
  - destruct (isspace (code c)); [by exists (String c (c_str x))|].
    exists r. simpl. by rewrite IH.
  - exists r. simpl. by rewrite IH.
Qed.

Lemma trim_right_no_nul x : strlen (trim_right x) = String.length (trim_right x).
Proof.
  induction x as [|c x IH]; [done|]. cbn [trim_right].
  destruct (Z.eqb_spec (code c) 0) as [E|E]; [done|].
  destruct (trim_right x) as [|d t] eqn:Et.
  - destruct (isspace (code c)); [done|]. simpl. by destruct (Z.eqb_spec (code c) 0).
  - change (strlen (String c (String d t)))
      with (if code c =? 0 then O else S (strlen (String d t))).
    destruct (Z.eqb_spec (code c) 0); [done|]. rewrite IH. done.
Qed.

Lemma substring_app_l t r : String.substring 0 (String.length t) (String.append t r) = t.
Proof.
  induction t as [|c t IH]; simpl; [by destruct r|]. by rewrite IH.
Qed.

Lemma substring_le n m x :
  (n <= m)%nat -> String.substring 0 n (String.substring 0 m x) = String.substring 0 n x.
Proof.
  revert m x. induction n as [|n IH]; intros m x Hle.
  - destruct m, x; done.
  - destruct m as [|m]; [lia|]. destruct x as [|c x]; [done|]. simpl.
    by rewrite IH by lia.
Qed.

(** What [pkg_set_string] leaves of a string in an attribute it creates:
    the trimmed string, in an attribute one byte longer. *)
Lemma put_nul_stored s :
  let t := trim s in
  blob_put_nul (strlen t) (blob_put_data (BString (S (strlen t)) (skip_spaces s)))
  = BString (S (strlen t)) t /\
  blob_put_nul (strlen t) (BString (S (strlen t)) (skip_spaces s))
  = BString (S (strlen t)) t.
Proof.
  cbv zeta. unfold blob_put_nul, blob_put_data, copied_string, trim.
  assert ((strlen (trim_right (skip_spaces s)) <? S (strlen (trim_right (skip_spaces s))))%nat
          = true) as -> by (apply Nat.ltb_lt; lia).
  rewrite substring_le by lia. rewrite trim_right_no_nul. split; f_equal.
  - destruct (trim_right_c_str_prefix (skip_spaces s)) as [r Hr].
    etransitivity; [|apply (substring_app_l _ r)]. by rewrite <- Hr.
  - destruct (trim_right_prefix (skip_spaces s)) as [r Hr].
    etransitivity; [|apply (substring_app_l _ r)]. by rewrite <- Hr.
Qed.

Lemma blob_update_set b id v f :
  blob_get (blob_update (blob_set b id v) id f) id =
  Some (f (match blob_get b id with
           | Some d => blob_overwrite d v
           | None => blob_put_data v
           end)) /\
  forall i, i <> id -> blob_get (blob_update (blob_set b id v) id f) i = blob_get b i.
Proof.
  induction b as [|[j cur] b [IH1 IH2]]; simpl.
  - destruct (decide (id = id)); [|done]. simpl. rewrite decide_True by done.
    split; [done|]. intros i Hne. by rewrite decide_False.
  - destruct (decide (j = id)) as [->|Hj]; simpl.
    + destruct (decide (id = id)); [|done]. simpl. rewrite decide_True by done.
      split; [done|]. intros i Hne. by destruct (decide (id = i)).
    + destruct (decide (j = id)); [done|]. simpl. rewrite decide_False by done.
      split; [done|]. intros i Hne. destruct (decide (j = i)); [done|]. by apply IH2.
Qed.

(** The attributes after [pkg_set_string] on an attribute that does not
    hold a string yet. *)
Lemma pkg_get_raw_set_string pkg id s i :
  pkg_get_string pkg id = None ->
  pkg_get_raw (pkg_set_string pkg id s) i =
  if decide (i = id)
  then match stored_string s with
       | Some t => Some (BString (S (strlen t)) t)
       | None => pkg_get_raw pkg id
       end
  else pkg_get_raw pkg i.
Proof.
  intros Hnone. unfold pkg_set_string, stored_string.
  destruct s as [s|]; [|by destruct (decide (i = id)) as [->|]].
  destruct (trim s) as [|c t] eqn:Et; [by destruct (decide (i = id)) as [->|]|].
  rewrite <- Et. unfold pkg_get_raw, pkg_set_raw. cbn [blob set_blob].
  destruct (blob_update_set (blob pkg) id (BString (S (strlen (trim s))) (skip_spaces s))
              (blob_put_nul (strlen (trim s)))) as [H1 H2].
  destruct (decide (i = id)) as [->|Hne]; [|by apply H2].
  rewrite H1. f_equal. destruct (put_nul_stored s) as [Hp Ho].
  unfold pkg_get_string, pkg_get_raw in Hnone.
  destruct (blob_get (blob pkg) id) as [[| | | | |]|]; try done.
Qed.

Lemma raw_merge_string id o n i :
  pkg_get_raw (merge_string id o n) i =
  if decide (i = id)
  then merged_string_raw (pkg_get_raw o id) (pkg_get_raw n id)
  else pkg_get_raw o i.
Proof.
  unfold merge_string, merged_string_raw.
  destruct (pkg_get_string o id) as [t|] eqn:Eo.
  - unfold pkg_get_string in Eo. unfold raw_string.
    destruct (pkg_get_raw o id) as [[sz s| | | | |]|] eqn:Er; try done.
    by destruct (decide (i = id)) as [->|].
  - rewrite pkg_get_raw_set_string by done.
    assert (raw_string (pkg_get_raw o id) = None) as -> by exact Eo.
    change (raw_string (pkg_get_raw n id)) with (pkg_get_string n id). done.
Qed.

Definition raw_int (r : option blob_data) : Z :=
  match r with
  | Some (BInt i) => to_int i
  | _ => 0
  end.

Definition merged_int_raw (ro rn : option blob_data) : option blob_data :=
  if raw_int ro =? 0 then Some (BInt (to_int (raw_int rn))) else ro.

Lemma raw_merge_int id o n i :
  pkg_get_raw (merge_int id o n) i =
  if decide (i = id)
  then merged_int_raw (pkg_get_raw o id) (pkg_get_raw n id)
  else pkg_get_raw o i.
Proof.
  unfold merge_int, pkg_get_int, merged_int_raw, pkg_set_int.
  fold (raw_int (pkg_get_raw o id)). fold (raw_int (pkg_get_raw n id)).
  destruct (raw_int (pkg_get_raw o id) =? 0) eqn:E.
  - rewrite pkg_get_raw_set. destruct (decide (i = id)); [|done].
    unfold raw_int in E.
    destruct (pkg_get_raw o id) as [[sz s|z| | | |]|] eqn:Eo; try done.
  - by destruct (decide (i = id)) as [->|].
Qed.

Definition raw_depends (r : option blob_data) : option (list compound_depend_t) :=
  match r with
  | Some (BDepends p) => p
  | _ => None
  end.

Lemma raw_merge_depends_old id o n i :
  pkg_get_raw (merge_depends id (o, n)).1 i =
  if decide (i = id)
  then match raw_depends (pkg_get_raw o id) with
       | Some _ => pkg_get_raw o id
       | None => Some (BDepends (raw_depends (pkg_get_raw n id)))
       end
  else pkg_get_raw o i.
Proof.
  unfold merge_depends, pkg_get_depends_ptr, raw_depends.
  destruct (decide (i = id)) as [->|Hne].
  - destruct (pkg_get_raw o id) as [[| |[d|]| | |]|] eqn:Eo; cbn [fst];
      rewrite ?pkg_get_raw_set, ?decide_True, ?Eo by done; done.
  - destruct (pkg_get_raw o id) as [[| |[d|]| | |]|] eqn:Eo; cbn [fst];
      rewrite ?pkg_get_raw_set, ?decide_False by done; done.
Qed.

Lemma raw_merge_depends_new id o n i :
  i <> id -> pkg_get_raw (merge_depends id (o, n)).2 i = pkg_get_raw n i.
Proof.
  intros Hne. unfold merge_depends.
  destruct (pkg_get_depends_ptr o id); cbn [snd]; [done|].
  by rewrite pkg_get_raw_set, decide_False.
Qed.

Definition raw_abstracts (r : option blob_data) : option (list abstract_pkg_ptr) :=
  match r with
  | Some (BAbstracts p) => p
  | _ => None
  end.

Lemma raw_merge_replaces_old o n i :
  pkg_get_raw (merge_replaces (o, n)).1 i =
  if decide (i = PKG_REPLACES)
  then match raw_abstracts (pkg_get_raw o PKG_REPLACES) with
       | Some _ => pkg_get_raw o PKG_REPLACES
       | None => Some (BAbstracts (raw_abstracts (pkg_get_raw n PKG_REPLACES)))
       end
  else pkg_get_raw o i.
Proof.
  unfold merge_replaces, pkg_get_abstracts_ptr, raw_abstracts.
  destruct (decide (i = PKG_REPLACES)) as [->|Hne].
  - destruct (pkg_get_raw o PKG_REPLACES) as [[| | |[d|]| |]|] eqn:Eo; cbn [fst];
      rewrite ?pkg_get_raw_set, ?decide_True, ?Eo by done; done.
  - destruct (pkg_get_raw o PKG_REPLACES) as [[| | |[d|]| |]|] eqn:Eo; cbn [fst];
      rewrite ?pkg_get_raw_set, ?decide_False by done; done.
Qed.

Lemma raw_merge_replaces_new o n i :
  i <> PKG_REPLACES -> pkg_get_raw (merge_replaces (o, n)).2 i = pkg_get_raw n i.
Proof.
  intros Hne. unfold merge_replaces.
  destruct (pkg_get_abstracts_ptr o PKG_REPLACES); cbn [snd]; [done|].
  by rewrite pkg_get_raw_set, decide_False.
Qed.

Lemma raw_merge_provides_old o n i :
  pkg_get_raw (merge_provides (o, n)).1 i =
  if decide (i = PKG_PROVIDES)
  then if provides_missing (raw_abstracts (pkg_get_raw o PKG_PROVIDES))
       then Some (BAbstracts (raw_abstracts (pkg_get_raw n PKG_PROVIDES)))
       else pkg_get_raw o PKG_PROVIDES
  else pkg_get_raw o i.
Proof.
  unfold merge_provides, pkg_get_abstracts_ptr. fold (raw_abstracts (pkg_get_raw o PKG_PROVIDES)).
  fold (raw_abstracts (pkg_get_raw n PKG_PROVIDES)).
  destruct (provides_missing (raw_abstracts (pkg_get_raw o PKG_PROVIDES))) eqn:Em; cbn [fst].
  - rewrite pkg_get_raw_set. destruct (decide (i = PKG_PROVIDES)); [|done].
    unfold raw_abstracts in *.
    by destruct (pkg_get_raw o PKG_PROVIDES) as [[| | |[d|]| |]|].
  - by destruct (decide (i = PKG_PROVIDES)) as [->|].
Qed.

Lemma raw_merge_provides_new o n i :
  i <> PKG_PROVIDES -> pkg_get_raw (merge_provides (o, n)).2 i = pkg_get_raw n i.
Proof.
  intros Hne. unfold merge_provides.
  destruct (provides_missing _); cbn [snd]; [|done].
  by rewrite pkg_get_raw_set, decide_False.
Qed.

Definition raw_conffiles (r : option blob_data) : option conffiles_ptr :=
  match r with
  | Some (BConffiles l) => Some (CfList l)
  | Some (BListHead l) => Some (CfRing l)
  | _ => None
  end.

(** The one way [pkg_merge] does not return: the old record has no
    conffiles and the pointer of the new record is one into a ring. *)
Lemma merge_conffiles_fault o n :
  merge_conffiles (o, n) = Fault <->
  pkg_get_conffiles o = None /\ exists l, pkg_get_conffiles n = Some (CfRing l).
Proof.
  unfold merge_conffiles.
  destruct (pkg_get_conffiles o) as [po|]; [split; [done|by intros [? _]]|].
  destruct (pkg_get_conffiles n) as [[l|l]|].
  - split; [done|]. by intros [_ [l' ?]].
  - split; [|done]. intros _. split; [done|]. by exists l.
  - split; [done|]. by intros [_ [l' ?]].
Qed.

Lemma raw_merge_conffiles_old o n o' n' i :
  merge_conffiles (o, n) = Ok (o', n') ->
  pkg_get_raw o' i =
  if decide (i = PKG_CONFFILES)
  then match raw_conffiles (pkg_get_raw o PKG_CONFFILES) with
       | Some _ => pkg_get_raw o PKG_CONFFILES
       | None =>
           match raw_conffiles (pkg_get_raw n PKG_CONFFILES) with
           | Some (CfList cf) => Some (BListHead cf)
           | _ => pkg_get_raw o PKG_CONFFILES
           end
       end
  else pkg_get_raw o i.
Proof.
  unfold merge_conffiles, pkg_get_conffiles, raw_conffiles.
  destruct (decide (i = PKG_CONFFILES)) as [->|Hne].
  - destruct (pkg_get_raw o PKG_CONFFILES) as [[| | | |l|l]|] eqn:Eo;
      destruct (pkg_get_raw n PKG_CONFFILES) as [[| | | |l'|l']|] eqn:En;
      intros [= <- <-]; rewrite ?pkg_get_raw_set, ?decide_True, ?Eo by done; done.
  - destruct (pkg_get_raw o PKG_CONFFILES) as [[| | | |l|l]|] eqn:Eo;
      destruct (pkg_get_raw n PKG_CONFFILES) as [[| | | |l'|l']|] eqn:En;
      intros [= <- <-]; rewrite ?pkg_get_raw_set, ?decide_False by done; done.
Qed.

Lemma raw_merge_conffiles_new o n o' n' i :
  merge_conffiles (o, n) = Ok (o', n') ->
  i <> PKG_CONFFILES -> pkg_get_raw n' i = pkg_get_raw n i.
Proof.
  unfold merge_conffiles. intros Hm Hne.
  destruct (pkg_get_conffiles o); [by injection Hm as <- <-|].
  destruct (pkg_get_conffiles n) as [[l|l]|]; [|done|by injection Hm as <- <-].
  injection Hm as <- <-. by rewrite pkg_get_raw_set, decide_False.
Qed.

Lemma raw_merge_installed_files_old o n i :
  pkg_get_raw (merge_installed_files (o, n)).1 i = pkg_get_raw o i.
Proof. unfold merge_installed_files. by destruct (installed_files o). Qed.

Lemma raw_merge_installed_files_new o n i :
  pkg_get_raw (merge_installed_files (o, n)).2 i = pkg_get_raw n i.
Proof. unfold merge_installed_files. by destruct (installed_files o). Qed.

Lemma raw_merge_auto_installed o n i :
  pkg_get_raw (merge_auto_installed o n) i = pkg_get_raw o i.
Proof. unfold merge_auto_installed. by destruct (auto_installed o). Qed.

Lemma raw_merge_src o n i : pkg_get_raw (merge_src o n) i = pkg_get_raw o i.
Proof. unfold merge_src. by destruct (src o). Qed.

Lemma raw_merge_dest o n i : pkg_get_raw (merge_dest o n) i = pkg_get_raw o i.
Proof. unfold merge_dest. by destruct (dest o). Qed.

Lemma raw_merge_essential o n i :
  pkg_get_raw (merge_essential o n) i = pkg_get_raw o i.
Proof. unfold merge_essential. by destruct (essential o). Qed.

(** The members of the record outside the blob. *)
Definition header (pkg : pkg_t) : pkg_t := set_blob pkg [].

Lemma header_set_raw pkg id v : header (pkg_set_raw pkg id v) = header pkg.
Proof. done. Qed.

Lemma header_merge_string id o n : header (merge_string id o n) = header o.
Proof.
  unfold merge_string, pkg_set_string. destruct (pkg_get_string o id); [done|].
  destruct (pkg_get_string n id) as [t|]; [|done]. by destruct (trim t).
Qed.

Lemma header_merge_int id o n : header (merge_int id o n) = header o.
Proof. unfold merge_int. by destruct (_ =? _). Qed.

Lemma header_merge_depends_old id o n : header (merge_depends id (o, n)).1 = header o.
Proof. unfold merge_depends. by destruct (pkg_get_depends_ptr o id). Qed.

Lemma header_merge_depends_new id o n : header (merge_depends id (o, n)).2 = header n.
Proof. unfold merge_depends. by destruct (pkg_get_depends_ptr o id). Qed.

Lemma header_merge_replaces_old o n : header (merge_replaces (o, n)).1 = header o.
Proof. unfold merge_replaces. by destruct (pkg_get_abstracts_ptr o _). Qed.

Lemma header_merge_replaces_new o n : header (merge_replaces (o, n)).2 = header n.
Proof. unfold merge_replaces. by destruct (pkg_get_abstracts_ptr o _). Qed.

Lemma header_merge_provides_old o n : header (merge_provides (o, n)).1 = header o.
Proof. unfold merge_provides. by destruct (provides_missing _). Qed.

Lemma header_merge_provides_new o n : header (merge_provides (o, n)).2 = header n.
Proof. unfold merge_provides. by destruct (provides_missing _). Qed.

Lemma header_merge_conffiles o n o' n' :
  merge_conffiles (o, n) = Ok (o', n') -> header o' = header o /\ header n' = header n.
Proof.
  unfold merge_conffiles. intros Hm.
  destruct (pkg_get_conffiles o); [by injection Hm as <- <-|].
  destruct (pkg_get_conffiles n) as [[l|l]|]; [|done|by injection Hm as <- <-].
  by injection Hm as <- <-.
Qed.

Ltac decide_fields :=
  repeat match goal with
    | |- context [decide (?a = ?b)] =>
        first [ rewrite (decide_True (P := a = b)) by reflexivity
              | rewrite (decide_False (P := a = b)) by discriminate ]
    end.

(** Name the two results of every step that works on both records, and
    unfold a name only where an attribute of it is read. *)
Ltac name_steps :=
  repeat match goal with
    | |- context [let '(a, b) := ?X in _] =>
        let o := fresh "o" in
        let n := fresh "n" in
        let E := fresh "E" in
        destruct X as [o n] eqn:E;
        let Eo := fresh "Eo" in
        let En := fresh "En" in
        pose proof (f_equal fst E) as Eo; pose proof (f_equal snd E) as En;
        cbn [fst snd] in Eo, En; symmetry in Eo; symmetry in En; clear E
    end.

Definition header_fields (pkg : pkg_t)
  : bool * option nat * option nat * option (list string) * bool :=
  (auto_installed pkg, src pkg, dest pkg, installed_files pkg, essential pkg).

Ltac expand_step :=
  match goal with
  | E : ?v = _ |- context [pkg_get_raw ?v _] => is_var v; rewrite E
  | E : ?v = _ |- context [header_fields ?v] => is_var v; rewrite E
  end.

Ltac destruct_raw :=
  repeat match goal with
    | |- context [pkg_get_raw ?p ?i] =>
        destruct (pkg_get_raw p i) as [[? ?|?|[?|]|[?|]|?|?]|]
    end.

Ltac raw_step :=
  first
    [ rewrite raw_merge_string | rewrite raw_merge_int
    | rewrite raw_merge_depends_old | rewrite raw_merge_replaces_old
    | rewrite raw_merge_provides_old
    | match goal with
      | H : merge_conffiles (_, _) = Ok (?v, _) |- context [pkg_get_raw ?v _] =>
          rewrite (raw_merge_conffiles_old _ _ _ _ _ H)
      end
    | rewrite raw_merge_installed_files_old | rewrite raw_merge_installed_files_new
    | rewrite raw_merge_auto_installed | rewrite raw_merge_src
    | rewrite raw_merge_dest | rewrite raw_merge_essential
    | rewrite raw_merge_depends_new by discriminate
    | rewrite raw_merge_replaces_new by discriminate
    | rewrite raw_merge_provides_new by discriminate
    | match goal with
      | H : merge_conffiles (_, _) = Ok (_, ?v) |- context [pkg_get_raw ?v _] =>
          rewrite (raw_merge_conffiles_new _ _ _ _ _ H) by discriminate
      end ].

Ltac merge_raw := repeat (first [raw_step; decide_fields | expand_step]).

Lemma header_fields_header x y : header x = header y -> header_fields x = header_fields y.
Proof. intros H. change (header_fields (header x) = header_fields (header y)). by rewrite H. Qed.

Lemma hf_merge_string id o n : header_fields (merge_string id o n) = header_fields o.
Proof. apply header_fields_header, header_merge_string. Qed.
Lemma hf_merge_int id o n : header_fields (merge_int id o n) = header_fields o.
Proof. apply header_fields_header, header_merge_int. Qed.
Lemma hf_merge_depends_old id o n : header_fields (merge_depends id (o, n)).1 = header_fields o.
Proof. apply header_fields_header, header_merge_depends_old. Qed.
Lemma hf_merge_depends_new id o n : header_fields (merge_depends id (o, n)).2 = header_fields n.
Proof. apply header_fields_header, header_merge_depends_new. Qed.
Lemma hf_merge_replaces_old o n : header_fields (merge_replaces (o, n)).1 = header_fields o.
Proof. apply header_fields_header, header_merge_replaces_old. Qed.
Lemma hf_merge_replaces_new o n : header_fields (merge_replaces (o, n)).2 = header_fields n.
Proof. apply header_fields_header, header_merge_replaces_new. Qed.
Lemma hf_merge_provides_old o n : header_fields (merge_provides (o, n)).1 = header_fields o.
Proof. apply header_fields_header, header_merge_provides_old. Qed.
Lemma hf_merge_provides_new o n : header_fields (merge_provides (o, n)).2 = header_fields n.
Proof. apply header_fields_header, header_merge_provides_new. Qed.
Lemma hf_merge_conffiles_old o n o' n' :
  merge_conffiles (o, n) = Ok (o', n') -> header_fields o' = header_fields o.
Proof. intros H. by apply header_fields_header, (header_merge_conffiles o n o' n'). Qed.
Lemma hf_merge_conffiles_new o n o' n' :
  merge_conffiles (o, n) = Ok (o', n') -> header_fields n' = header_fields n.
Proof. intros H. by apply header_fields_header, (header_merge_conffiles o n o' n'). Qed.

Ltac expand_hf :=
  first
    [ expand_step
    | match goal with
      | H : merge_conffiles (_, _) = Ok (?v, _) |- context [header_fields ?v] =>
          rewrite (hf_merge_conffiles_old _ _ _ _ H)
      | H : merge_conffiles (_, _) = Ok (_, ?v) |- context [header_fields ?v] =>
          rewrite (hf_merge_conffiles_new _ _ _ _ H)
      end ].

Lemma hf_merge_auto_installed o n :
  header_fields (merge_auto_installed o n) =
  (let '(a, s, d, f, e) := header_fields o in
   let '(a', _, _, _, _) := header_fields n in
   (if a then a else a', s, d, f, e)).
Proof.
  unfold merge_auto_installed, header_fields.
  destruct (auto_installed o) eqn:E; cbn; rewrite ?E; done.
Qed.

Lemma hf_merge_src o n :
  header_fields (merge_src o n) =
  (let '(a, s, d, f, e) := header_fields o in
   let '(_, s', _, _, _) := header_fields n in
   (a, old_or_new s s', d, f, e)).
Proof.
  unfold merge_src, header_fields.
  destruct (src o) eqn:E; cbn; rewrite ?E; done.
Qed.

Lemma hf_merge_dest o n :
  header_fields (merge_dest o n) =
  (let '(a, s, d, f, e) := header_fields o in
   let '(_, _, d', _, _) := header_fields n in
   (a, s, old_or_new d d', f, e)).
Proof.
  unfold merge_dest, header_fields.
  destruct (dest o) eqn:E; cbn; rewrite ?E; done.
Qed.

Lemma hf_merge_installed_files_old o n :
  header_fields (merge_installed_files (o, n)).1 =
  (let '(a, s, d, f, e) := header_fields o in
   let '(_, _, _, f', _) := header_fields n in
   (a, s, d, old_or_new f f', e)).
Proof.
  unfold merge_installed_files, header_fields.
  destruct (installed_files o) eqn:E; cbn; rewrite ?E; done.
Qed.

Lemma hf_merge_installed_files_new o n :
  header_fields (merge_installed_files (o, n)).2 =
  (let '(_, _, _, f, _) := header_fields o in
   let '(a', s', d', f', e') := header_fields n in
   (a', s', d', match f with Some _ => f' | None => None end, e')).
Proof.
  unfold merge_installed_files, header_fields.
  destruct (installed_files o) eqn:E; cbn; rewrite ?E; done.
Qed.

Lemma hf_merge_essential o n :
  header_fields (merge_essential o n) =
  (let '(a, s, d, f, e) := header_fields o in
   let '(_, _, _, _, e') := header_fields n in
   (a, s, d, f, if e then e else e')).
Proof.
  unfold merge_essential, header_fields.
  destruct (essential o) eqn:E; cbn; rewrite ?E; done.
Qed.

Create Rewrite HintDb merge_hf.

#[local] Hint Rewrite
  hf_merge_string hf_merge_int hf_merge_depends_old hf_merge_depends_new
  hf_merge_replaces_old hf_merge_replaces_new hf_merge_provides_old
  hf_merge_provides_new
  hf_merge_auto_installed hf_merge_src hf_merge_dest
  hf_merge_installed_files_old hf_merge_installed_files_new hf_merge_essential
  : merge_hf.

Lemma hf_proj pkg a s d f e :
  header_fields pkg = (a, s, d, f, e) ->
  auto_installed pkg = a /\ src pkg = s /\ dest pkg = d /\
  installed_files pkg = f /\ essential pkg = e.
Proof. unfold header_fields. by intros [= -> -> -> -> ->]. Qed.

(** [pkg_merge] returns unless the old record has no conffiles and the
    pointer of the new record is one into a ring. *)
Lemma pkg_merge_fields_fault oldpkg newpkg :
  pkg_merge_fields oldpkg newpkg = Fault ->
  pkg_get_conffiles oldpkg = None /\ exists l, pkg_get_conffiles newpkg = Some (CfRing l).
Proof.
  unfold pkg_merge_fields. cbv zeta. name_steps.
  destruct (merge_conffiles _) as [[oc nc]|] eqn:Hcf; cbn [mbind res_bind].
  - name_steps. done.
  - intros _. apply merge_conffiles_fault in Hcf. revert Hcf.
    unfold pkg_get_conffiles. by merge_raw.
Qed.

(** C6, as stated, fails for Provides: an old record whose list holds only
    the package's own name has a non-null Provides, and the merge replaces
    it by the list of the new record. *)
Lemma pkg_merge_provides_overwritten :
  let oldpkg := pkg_set_raw pkg_new PKG_PROVIDES (BAbstracts (Some [0%nat])) in
  let newpkg := pkg_set_raw pkg_new PKG_PROVIDES (BAbstracts (Some [0%nat; 5%nat])) in
  pkg_get_abstracts_ptr oldpkg PKG_PROVIDES = Some [0%nat] /\
  exists merged rest,
    pkg_merge_fields oldpkg newpkg = Ok (merged, rest) /\
    pkg_get_abstracts_ptr merged PKG_PROVIDES <> pkg_get_abstracts_ptr oldpkg PKG_PROVIDES.
Proof.
  cbv zeta. split; [done|]. eexists _, _. split; [vm_compute; reflexivity|].
  vm_compute. congruence.
Qed.

(** C6, amended: [pkg_merge] returns, and the merged record keeps every
    value the old record has and takes the value of the new record for
    what the old one lacks: the flags auto_installed and essential, src,
    dest, the installed files, the string attributes (stored as
    [pkg_set_string] stores them), the integer attributes, Depends,
    Conflicts and Replaces.  The Provides list of the old record is kept
    only when it has two entries or more; a list that is missing, empty or
    holds one entry is replaced by the list of the new record.  The call
    does not return in one case only: the old record has no conffiles and
    the new record holds conffiles that an earlier merge gave it. *)
Theorem pkg_merge_fields_spec (oldpkg newpkg : pkg_t) :
  match pkg_merge_fields oldpkg newpkg with
  | Ok (merged, _) =>
      auto_installed merged =
        (if auto_installed oldpkg then auto_installed oldpkg else auto_installed newpkg) /\
      src merged = old_or_new (src oldpkg) (src newpkg) /\
      dest merged = old_or_new (dest oldpkg) (dest newpkg) /\
      installed_files merged =
        old_or_new (installed_files oldpkg) (installed_files newpkg) /\
      essential merged =
        (if essential oldpkg then essential oldpkg else essential newpkg) /\
      (forall id, In id merged_string_fields ->
         pkg_get_string merged id =
         old_or_new (pkg_get_string oldpkg id) (stored_string (pkg_get_string newpkg id))) /\
      (forall id, In id merged_int_fields ->
         pkg_get_int merged id =
         if pkg_get_int oldpkg id =? 0 then pkg_get_int newpkg id
         else pkg_get_int oldpkg id) /\
      (forall id, In id merged_depends_fields ->
         pkg_get_depends_ptr merged id =
         old_or_new (pkg_get_depends_ptr oldpkg id) (pkg_get_depends_ptr newpkg id)) /\
      pkg_get_abstracts_ptr merged PKG_REPLACES =
        old_or_new (pkg_get_abstracts_ptr oldpkg PKG_REPLACES)
                   (pkg_get_abstracts_ptr newpkg PKG_REPLACES) /\
      pkg_get_abstracts_ptr merged PKG_PROVIDES =
        (if provides_missing (pkg_get_abstracts_ptr oldpkg PKG_PROVIDES)
         then pkg_get_abstracts_ptr newpkg PKG_PROVIDES
         else pkg_get_abstracts_ptr oldpkg PKG_PROVIDES)
  | Fault =>
      pkg_get_conffiles oldpkg = None /\
      exists l, pkg_get_conffiles newpkg = Some (CfRing l)
  end.
Proof.
  destruct (pkg_merge_fields oldpkg newpkg) as [[merged rest]|] eqn:Hm;
    [|by apply pkg_merge_fields_fault].
  revert Hm. unfold pkg_merge_fields. cbv zeta. name_steps.
  destruct (merge_conffiles _) as [[oc nc]|] eqn:Hcf; cbn [mbind res_bind]; [|done].
  name_steps. intros [= <- <-].
  assert (forall a b c d e : Prop, (a /\ b /\ c /\ d /\ e) -> forall r : Prop, r ->
            a /\ b /\ c /\ d /\ e /\ r) as Hsplit by tauto.
  apply Hsplit; clear Hsplit.
  - apply hf_proj. repeat (autorewrite with merge_hf; try expand_hf).
    unfold header_fields.
    destruct (auto_installed oldpkg), (src oldpkg), (dest oldpkg),
      (installed_files oldpkg), (essential oldpkg); reflexivity.
  - split; [|split; [|split; [|split]]].
    + intros id Hin. unfold merged_string_fields in Hin. cbn [In] in Hin.
      repeat destruct Hin as [<-|Hin]; try done;
        unfold pkg_get_string; merge_raw;
        unfold merged_string_raw, raw_string, stored_string, old_or_new;
        destruct_raw; try reflexivity; destruct (trim _); reflexivity.
    + intros id Hin. unfold merged_int_fields in Hin. cbn [In] in Hin.
      repeat destruct Hin as [<-|Hin]; try done;
        unfold pkg_get_int; merge_raw;
        unfold merged_int_raw, raw_int;
        destruct_raw; change (0 =? 0) with true; cbv iota;
        repeat match goal with
          | |- context [to_int ?z =? 0] => destruct (to_int z =? 0)
          end; rewrite ?to_int_idem; reflexivity.
    + intros id Hin. unfold merged_depends_fields in Hin. cbn [In] in Hin.
      repeat destruct Hin as [<-|Hin]; try done;
        unfold pkg_get_depends_ptr; merge_raw;
        unfold raw_depends, old_or_new; destruct_raw; reflexivity.
    + unfold pkg_get_abstracts_ptr; merge_raw;
        unfold raw_abstracts, old_or_new; destruct_raw; reflexivity.
    + unfold pkg_get_abstracts_ptr; merge_raw;
        unfold raw_abstracts; destruct_raw; try reflexivity;
        match goal with
        | |- context [provides_missing (Some ?l)] => destruct l as [|? [|? ?]]
        end; reflexivity.
Qed.

(** ** The package hash as two arenas

    An [abstract_pkg_t *] is an index into [abstracts], a [pkg_t *] an index
    into [packages].  The resolver writes only the [dependencies_checked]
    marks. *)

Record hash_t := {
  abstracts : list abstract_pkg_t;
  packages : list pkg_t
}.

Definition get_abstract (h : hash_t) (ab : abstract_pkg_ptr) : res abstract_pkg_t :=
  nonnull (abstracts h !! ab).

Definition get_pkg (h : hash_t) (pkg : pkg_ptr) : res pkg_t :=
  nonnull (packages h !! pkg).

Definition mark_checked (ab : abstract_pkg_t) : abstract_pkg_t :=
  {| ab_name := ab_name ab; pkgs := pkgs ab; provided_by := provided_by ab;
     replaced_by := replaced_by ab; dependencies_checked := true;
     ab_state_flag := ab_state_flag ab; ab_state_status := ab_state_status ab |}.

(** [ab_pkg->dependencies_checked = 1] *)
Definition set_dependencies_checked (h : hash_t) (ab : abstract_pkg_ptr) : hash_t :=
  {| abstracts := alter mark_checked ab (abstracts h); packages := packages h |}.

(** [strcmp] on two pointers, neither of which may be NULL. *)
Definition strcmp_ptr (a b : option string) : res Z :=
  a ← nonnull a; b ← nonnull b; Ok (strcmp a b).

(** [pkg_merge]: nothing happens when both pointers are the same. *)
Definition pkg_merge (h : hash_t) (oldpkg newpkg : pkg_ptr) : res hash_t :=
  if decide (oldpkg = newpkg) then Ok h
  else
    o ← get_pkg h oldpkg;
    n ← get_pkg h newpkg;
    pkgs ← pkg_merge_fields o n;
    let '(o', n') := pkgs : pkg_t * pkg_t in
    Ok {| abstracts := abstracts h;
          packages := <[newpkg := n']> (<[oldpkg := o']> (packages h)) |}.

(** *** Conflicts (pkg_depends.c) *)

Fixpoint is_pkg_in_pkg_vec_loop (h : hash_t) (pkgs : list pkg_ptr) (pkg : pkg_t)
  (arch1 : option string) : res bool :=
  match pkgs with
  | [] => Ok false
  | p :: pkgs' =>
      q ← get_pkg h p;
      let arch2 := pkg_get_architecture q in
      c ← strcmp_ptr (name pkg) (name q);
      if negb (c =? 0) then is_pkg_in_pkg_vec_loop h pkgs' pkg arch1
      else if negb (pkg_compare_versions pkg q =? 0)
      then is_pkg_in_pkg_vec_loop h pkgs' pkg arch1
      else
        c ← strcmp_ptr arch1 arch2;
        if c =? 0 then Ok true else is_pkg_in_pkg_vec_loop h pkgs' pkg arch1
  end.

Definition is_pkg_in_pkg_vec (h : hash_t) (vec : list pkg_ptr) (pkg : pkg_ptr)
  : res bool :=
  p ← get_pkg h pkg;
  is_pkg_in_pkg_vec_loop h vec p (pkg_get_architecture p).

Fixpoint is_pkg_a_replaces_loop (h : hash_t) (pkg_scout : pkg_t)
  (replaces : list abstract_pkg_ptr) : res bool :=
  match replaces with
  | [] => Ok false
  | r :: replaces' =>
      ab ← get_abstract h r;
      c ← strcmp_ptr (name pkg_scout) (ab_name ab);
      if c =? 0 then Ok true else is_pkg_a_replaces_loop h pkg_scout replaces'
  end.

(** [is_pkg_a_replaces]: the name of the scout is the name of an entry of
    the Replaces list of [pkg]. *)
Definition is_pkg_a_replaces (h : hash_t) (pkg_scout pkg : pkg_t) : res bool :=
  match pkg_get_abstracts_ptr pkg PKG_REPLACES with
  | None => Ok false
  | Some replaces => is_pkg_a_replaces_loop h pkg_scout replaces
  end.

(** [pkg_replaces]: an entry of the Replaces list of [pkg] is an entry of
    the Provides list of [replacee]. *)
Definition pkg_replaces (pkg replacee : pkg_t) : bool :=
  let replaces := default [] (pkg_get_abstracts_ptr pkg PKG_REPLACES) in
  let provides := default [] (pkg_get_abstracts_ptr replacee PKG_PROVIDES) in
  existsb (fun r => existsb (fun p => Nat.eqb r p) provides) replaces.

(** Whether the scout is added to the installed conflicts. *)
Definition conflict_scout_test (h : hash_t) (pkg : pkg_t)
  (possible_satisfier : depend_t) (installed_conflicts : list pkg_ptr)
  (pkg_scout : pkg_ptr) : res bool :=
  scout ← get_pkg h pkg_scout;
  if bool_decide (state_status scout = SS_INSTALLED)
     || bool_decide (state_want scout = SW_INSTALL)
  then
    sat ← version_constraints_satisfied possible_satisfier scout;
    if (sat : bool) then
      replaced ← is_pkg_a_replaces h scout pkg;
      if negb (replaced : bool) then
        known ← is_pkg_in_pkg_vec h installed_conflicts pkg_scout;
        Ok (negb known)
      else Ok false
    else Ok false
  else Ok false.

Fixpoint conflicts_scan_vec (h : hash_t) (pkg : pkg_t) (possible_satisfier : depend_t)
  (test_vec : list pkg_ptr) (installed_conflicts : list pkg_ptr)
  : res (list pkg_ptr) :=
  match test_vec with
  | [] => Ok installed_conflicts
  | pkg_scout :: test_vec' =>
      add ← conflict_scout_test h pkg possible_satisfier installed_conflicts pkg_scout;
      conflicts_scan_vec h pkg possible_satisfier test_vec'
        (if (add : bool) then installed_conflicts ++ [pkg_scout] else installed_conflicts)
  end.

Fixpoint conflicts_scan_possibilities (h : hash_t) (pkg : pkg_t)
  (possible_satisfiers : list depend_t) (installed_conflicts : list pkg_ptr)
  : res (list pkg_ptr) :=
  match possible_satisfiers with
  | [] => Ok installed_conflicts
  | possible_satisfier :: rest =>
      ab ← get_abstract h (dep_pkg possible_satisfier);
      installed_conflicts ←
        match pkgs ab with
        | Some test_vec =>
            conflicts_scan_vec h pkg possible_satisfier test_vec installed_conflicts
        | None => Ok installed_conflicts
        end;
      conflicts_scan_possibilities h pkg rest installed_conflicts
  end.

Fixpoint conflicts_scan (h : hash_t) (pkg : pkg_t) (conflicts : list compound_depend_t)
  (installed_conflicts : list pkg_ptr) : res (list pkg_ptr) :=
  match conflicts with
  | [] => Ok installed_conflicts
  | conflict :: conflicts' =>
      installed_conflicts ←
        conflicts_scan_possibilities h pkg (possibilities conflict) installed_conflicts;
      conflicts_scan h pkg conflicts' installed_conflicts
  end.

(** [pkg_hash_fetch_conflicts]: NULL ([None]) when there is nothing to
    report. *)
Definition pkg_hash_fetch_conflicts (h : hash_t) (pkg : pkg_ptr)
  : res (option (list pkg_ptr)) :=
  p ← get_pkg h pkg;
  match parent p with
  | None => Ok None
  | Some _ =>
      match pkg_get_depends_ptr p PKG_CONFLICTS with
      | None => Ok None
      | Some conflicts =>
          installed_conflicts ← conflicts_scan h p conflicts [];
          match (installed_conflicts : list pkg_ptr) with
          | [] => Ok None
          | _ => Ok (Some installed_conflicts)
          end
      end
  end.

(** *** The unresolved list and the text of a dependency *)

Definition constraint_to_str (c : version_constraint) : string :=
  match c with
  | NONE => ""
  | EARLIER => "< "
  | EARLIER_EQUAL => "<= "
  | EQUAL => "= "
  | LATER_EQUAL => ">= "
  | LATER => "> "
  end.

(** The two passes of [pkg_depend_str] over the atoms: the length, then
    the text. *)
Fixpoint depend_str_len (h : hash_t) (first : bool) (possibilities : list depend_t)
  (len : nat) : res nat :=
  match possibilities with
  | [] => Ok len
  | dep :: rest =>
      let len := if first then len else (len + 3)%nat in
      ab ← get_abstract h (dep_pkg dep);
      nm ← nonnull (ab_name ab);
      let len := (len + strlen nm)%nat in
      let len :=
        match version dep with
        | Some v => (len + 2 + 3 + strlen v + 1)%nat
        | None => len
        end in
      depend_str_len h false rest len
  end.

Fixpoint depend_str_cat (h : hash_t) (first : bool) (possibilities : list depend_t)
  (len : nat) (str : string) : res string :=
  match possibilities with
  | [] => Ok str
  | dep :: rest =>
      let str := if first then str else strncat str " | " len in
      ab ← get_abstract h (dep_pkg dep);
      nm ← nonnull (ab_name ab);
      let str := strncat str nm len in
      let str :=
        match version dep with
        | Some v =>
            strncat (strncat (strncat (strncat str " (" len)
                                      (constraint_to_str (constraint dep)) len)
                             v len)
                    ")" len
        | None => str
        end in
      depend_str_cat h false rest len str
  end.

(** [pkg_depend_str]: NULL when the package has no dependency at [idx]. *)
Definition pkg_depend_str (h : hash_t) (pkg : pkg_t) (idx : nat) : res (option string) :=
  match default [] (pkg_get_depends_ptr pkg PKG_DEPENDS) !! idx with
  | None => Ok None
  | Some cdep =>
      len ← depend_str_len h true (possibilities cdep) O;
      str ← depend_str_cat h true (possibilities cdep) len EmptyString;
      Ok (Some str)
  end.

(** A [char **] list ended by NULL; [None] is the NULL pointer. *)
Definition unresolved_t := option (list string).

Definition add_unresolved_dep (h : hash_t) (pkg : pkg_t) (the_lost : unresolved_t)
  (ref_ndx : nat) : res unresolved_t :=
  str ← pkg_depend_str h pkg ref_ndx;
  Ok (Some (default [] the_lost ++ match str with Some s => [s] | None => [] end)).

Definition merge_unresolved (oldstuff newstuff : unresolved_t) : unresolved_t :=
  match newstuff with
  | None => oldstuff
  | Some new => Some (default [] oldstuff ++ new)
  end.

(** *** The resolver (pkg_depends.c) *)

Definition pkg_installed_and_constraint_satisfied (pkg : pkg_t) (depend : depend_t)
  : res bool :=
  if bool_decide (state_status pkg = SS_INSTALLED)
     || bool_decide (state_status pkg = SS_UNPACKED)
  then version_constraints_satisfied depend pkg
  else Ok false.

Definition pkg_constraint_satisfied (pkg : pkg_t) (depend : depend_t) : res bool :=
  version_constraints_satisfied depend pkg.

(** A run of the resolver with a bound on the depth of its recursion:
    [None] when the bound is reached. *)
Definition fres (A : Type) : Type := option (res A).

Definition fret {A} (a : A) : fres A := Some (Ok a).

Definition lift {A} (m : res A) : fres A := Some m.

Definition fbind {A B} (m : fres A) (k : A -> fres B) : fres B :=
  match m with
  | Some (Ok a) => k a
  | Some Fault => Some Fault
  | None => None
  end.

Notation "x <-- m ;; k" := (fbind m (fun x => k))
  (at level 100, m at next level, right associativity).

(** The values a call of the resolver leaves: its return value, the
    unresolved list, the vector it was given, and the marks. *)
Definition resolved_t : Type := Z * unresolved_t * list pkg_ptr * hash_t.

Definition resolver_t : Type := hash_t -> pkg_ptr -> list pkg_ptr -> fres resolved_t.

Fixpoint fold_fres {A S} (f : A -> S -> fres S) (l : list A) (s : S) : fres S :=
  match l with
  | [] => fret s
  | a :: l' => s' <-- f a s ;; fold_fres f l' s'
  end.

Section Resolver.

(** [pkg_hash_fetch_best_installation_candidate] (pkg_hash.c): it reads the
    hash and calls the constraint function it is given. *)
Variable pkg_hash_fetch_best_installation_candidate :
  hash_t -> abstract_pkg_ptr -> (pkg_t -> res bool) -> res (option pkg_ptr).

(** The loop over [tmp_vec->pkgs[m]] for [m < rc] in the greedy branch. *)
Fixpoint greedy_all_wanted (h : hash_t) (tmp_vec : list pkg_ptr) (m : nat) (n : nat)
  : res bool :=
  match n with
  | O => Ok true
  | S n' =>
      ptr ← nonnull (tmp_vec !! m);
      p ← get_pkg h ptr;
      if bool_decide (state_want p = SW_INSTALL)
      then greedy_all_wanted h tmp_vec (S m) n'
      else Ok false
  end.

(** One [pkg_scout] of the greedy branch. *)
Definition greedy_scout (self : resolver_t) (pkg_scout : pkg_ptr)
  (st : list pkg_ptr * hash_t) : fres (list pkg_ptr * hash_t) :=
  let '(unsatisfied, h) := st in
  scout <-- lift (get_pkg h pkg_scout) ;;
  if negb (bool_decide (state_want scout = SW_INSTALL)) then
    par <-- lift (nonnull (parent scout)) ;;
    ab <-- lift (get_abstract h par) ;;
    if negb (dependencies_checked ab) then
      known <-- lift (is_pkg_in_pkg_vec h unsatisfied pkg_scout) ;;
      if negb known then
        r <-- self h pkg_scout [] ;;
        let '(rc, newstuff, tmp_vec, h) := r in
        match newstuff with
        | None =>
            ok <-- lift (greedy_all_wanted h tmp_vec O (Z.to_nat rc)) ;;
            fret (if (ok : bool) then unsatisfied ++ [pkg_scout] else unsatisfied, h)
        | Some _ => fret (unsatisfied, h)
        end
      else fret st
    else fret st
  else fret st.

(** One provider of a greedy atom: its vector of packages, if any. *)
Definition greedy_provider (self : resolver_t) (provider : abstract_pkg_ptr)
  (st : list pkg_ptr * hash_t) : fres (list pkg_ptr * hash_t) :=
  ab <-- lift (get_abstract (snd st) provider) ;;
  match pkgs ab with
  | None => fret st
  | Some test_vec => fold_fres (greedy_scout self) test_vec st
  end.

(** One atom of a greedy compound: every abstract package that provides
    it. *)
Definition greedy_possibility (self : resolver_t) (possible_satisfier : depend_t)
  (st : list pkg_ptr * hash_t) : fres (list pkg_ptr * hash_t) :=
  abpkg <-- lift (get_abstract (snd st) (dep_pkg possible_satisfier)) ;;
  fold_fres (greedy_provider self) (provided_by abpkg) st.

(** The first pass over the atoms: an installed package that satisfies
    one of them. *)
Fixpoint find_installed_satisfier (h : hash_t) (possible_satisfiers : list depend_t)
  : res bool :=
  match possible_satisfiers with
  | [] => Ok false
  | dependence_to_satisfy :: rest =>
      satisfying_pkg ←
        pkg_hash_fetch_best_installation_candidate h (dep_pkg dependence_to_satisfy)
          (fun p => pkg_installed_and_constraint_satisfied p dependence_to_satisfy);
      satisfying_pkg ←
        match (satisfying_pkg : option pkg_ptr) with
        | Some ptr =>
            p ← get_pkg h ptr;
            ok ← pkg_installed_and_constraint_satisfied p dependence_to_satisfy;
            Ok (if (ok : bool) then Some ptr else None)
        | None => Ok None
        end;
      match (satisfying_pkg : option pkg_ptr) with
      | Some _ => Ok true
      | None => find_installed_satisfier h rest
      end
  end.

(** The second pass: any package that satisfies an atom, unless the user
    asked to remove the package a recommendation or suggestion finds. *)
Fixpoint find_satisfier (h : hash_t) (type : depend_type)
  (possible_satisfiers : list depend_t) : res (option pkg_ptr) :=
  match possible_satisfiers with
  | [] => Ok None
  | dependence_to_satisfy :: rest =>
      satisfying_pkg ←
        pkg_hash_fetch_best_installation_candidate h (dep_pkg dependence_to_satisfy)
          (fun p => pkg_constraint_satisfied p dependence_to_satisfy);
      satisfying_pkg ←
        match (satisfying_pkg : option pkg_ptr) with
        | Some ptr =>
            p ← get_pkg h ptr;
            ok ← pkg_constraint_satisfied p dependence_to_satisfy;
            Ok (if (ok : bool) then Some (ptr, p) else None)
        | None => Ok None
        end;
      match (satisfying_pkg : option (pkg_ptr * pkg_t)) with
      | Some (ptr, p) =>
          if (bool_decide (type = RECOMMEND) || bool_decide (type = SUGGEST))
             && (bool_decide (state_want p = SW_DEINSTALL)
                 || bool_decide (state_want p = SW_PURGE))
          then find_satisfier h type rest
          else Ok (Some ptr)
      | None => find_satisfier h type rest
      end
  end.

(** [compound_depend->possibilities[0]->pkg->name], the name given in the
    notice about a recommendation that nothing satisfies.  A compound
    without atoms has no first atom to read. *)
Definition first_possibility_name (h : hash_t) (compound_depend : compound_depend_t)
  : res (option string) :=
  first_possibility ← nonnull (head (possibilities compound_depend));
  ab_pkg ← get_abstract h (dep_pkg first_possibility);
  Ok (ab_name ab_pkg).

(** What is done with the outcome of the two passes.  Of the messages
    only the pointers read for them are followed. *)
Definition settle_compound (self : resolver_t) (pkg : pkg_ptr) (p : pkg_t)
  (i : nat) (compound_depend : compound_depend_t) (satisfier_entry_pkg : option pkg_ptr)
  (st : unresolved_t * list pkg_ptr * hash_t)
  : fres (unresolved_t * list pkg_ptr * hash_t) :=
  let '(the_lost, unsatisfied, h) := st in
  match satisfier_entry_pkg with
  | None =>
      if negb (bool_decide (type compound_depend = RECOMMEND))
         && negb (bool_decide (type compound_depend = SUGGEST))
      then
        the_lost <-- lift (add_unresolved_dep h p the_lost i) ;;
        fret (the_lost, unsatisfied, h)
      else
        _ <-- lift (first_possibility_name h compound_depend) ;;
        fret st
  | Some satisfier =>
      if bool_decide (type compound_depend = SUGGEST) then fret st
      else if negb (bool_decide (satisfier = pkg)) then
        known <-- lift (is_pkg_in_pkg_vec h unsatisfied satisfier) ;;
        if negb known then
          r <-- self h satisfier unsatisfied ;;
          let '(_, newstuff, unsatisfied, h) := r in
          fret (merge_unresolved the_lost newstuff, unsatisfied ++ [satisfier], h)
        else fret st
      else fret st
  end.

(** One compound dependency, the [i]-th of [pkg]. *)
Definition resolve_compound (self : resolver_t) (pkg : pkg_ptr) (p : pkg_t)
  (i : nat) (compound_depend : compound_depend_t)
  (st : unresolved_t * list pkg_ptr * hash_t)
  : fres (unresolved_t * list pkg_ptr * hash_t) :=
  let '(the_lost, unsatisfied, h) := st in
  let possible_satisfiers := possibilities compound_depend in
  if bool_decide (type compound_depend = GREEDY_DEPEND) then
    r <-- fold_fres (greedy_possibility self) possible_satisfiers (unsatisfied, h) ;;
    fret (the_lost, fst r, snd r)
  else
    found <-- lift (find_installed_satisfier h possible_satisfiers) ;;
    if (found : bool) then fret st
    else
      satisfier_entry_pkg <--
        lift (find_satisfier h (type compound_depend) possible_satisfiers) ;;
      settle_compound self pkg p i compound_depend satisfier_entry_pkg st.

(** The loop over the compound dependencies, [i] counting them. *)
Fixpoint resolve_compounds (self : resolver_t) (pkg : pkg_ptr) (p : pkg_t)
  (i : nat) (compound_depends : list compound_depend_t)
  (st : unresolved_t * list pkg_ptr * hash_t)
  : fres (unresolved_t * list pkg_ptr * hash_t) :=
  match compound_depends with
  | [] => fret st
  | compound_depend :: rest =>
      st <-- resolve_compound self pkg p i compound_depend st ;;
      resolve_compounds self pkg p (S i) rest st
  end.

(** The body of [pkg_hash_fetch_unsatisfied_dependencies], [self] being the
    function itself. *)
Definition resolver_body (self : resolver_t) : resolver_t :=
  fun h pkg unsatisfied =>
    p <-- lift (get_pkg h pkg) ;;
    match parent p with
    | None => fret (0, None, unsatisfied, h)
    | Some ab_ptr =>
        ab_pkg <-- lift (get_abstract h ab_ptr) ;;
        if dependencies_checked ab_pkg then fret (0, None, unsatisfied, h)
        else
          let h := set_dependencies_checked h ab_ptr in
          match pkg_get_depends_ptr p PKG_DEPENDS with
          | None => fret (0, None, unsatisfied, h)
          | Some [] => fret (0, None, unsatisfied, h)
          | Some compound_depend =>
              r <-- resolve_compounds self pkg p O compound_depend (None, unsatisfied, h) ;;
              let '(the_lost, unsatisfied, h) := r in
              fret (Z.of_nat (length unsatisfied), the_lost, unsatisfied, h)
          end
    end.

Fixpoint pkg_hash_fetch_unsatisfied_dependencies (depth : nat) : resolver_t :=
  match depth with
  | O => fun _ _ _ => None
  | S depth' => resolver_body (pkg_hash_fetch_unsatisfied_dependencies depth')
  end.

End Resolver.

(** Modelled from the spec: [pkg_hash_fetch_best_installation_candidate]
    (pkg_hash.c is not among the sources), in its mode that honours the
    architecture list.  It walks the provider closure of the abstract
    package, keeps every concrete package whose architecture is supported
    (a priority other than 0) and that the constraint function accepts, and
    returns the one with the greatest architecture priority and, among
    these, the greatest version.  It serves to run the resolver on
    examples; the theorems on the resolver hold for any such function. *)
Definition better_candidate (h : hash_t) (best : option pkg_ptr) (ptr : pkg_ptr)
  (p : pkg_t) : res (option pkg_ptr) :=
  match best with
  | None => Ok (Some ptr)
  | Some bptr =>
      b ← get_pkg h bptr;
      let prio := pkg_get_int p PKG_ARCH_PRIORITY in
      let bprio := pkg_get_int b PKG_ARCH_PRIORITY in
      if (bprio <? prio) || ((bprio =? prio) && (0 <? pkg_compare_versions p b))
      then Ok (Some ptr) else Ok (Some bptr)
  end.

Fixpoint best_of_vec (h : hash_t) (constraint_fcn : pkg_t -> res bool)
  (vec : list pkg_ptr) (best : option pkg_ptr) : res (option pkg_ptr) :=
  match vec with
  | [] => Ok best
  | ptr :: vec' =>
      p ← get_pkg h ptr;
      best ←
        (if pkg_get_int p PKG_ARCH_PRIORITY =? 0 then Ok best
         else
           ok ← constraint_fcn p;
           if (ok : bool) then better_candidate h best ptr p else Ok best);
      best_of_vec h constraint_fcn vec' best
  end.

Fixpoint best_of_providers (h : hash_t) (constraint_fcn : pkg_t -> res bool)
  (providers : list abstract_pkg_ptr) (best : option pkg_ptr) : res (option pkg_ptr) :=
  match providers with
  | [] => Ok best
  | provider :: providers' =>
      ab ← get_abstract h provider;
      best ←
        match pkgs ab with
        | Some vec => best_of_vec h constraint_fcn vec best
        | None => Ok best
        end;
      best_of_providers h constraint_fcn providers' best
  end.

Definition best_candidate (h : hash_t) (ab : abstract_pkg_ptr)
  (constraint_fcn : pkg_t -> res bool) : res (option pkg_ptr) :=
  apkg ← get_abstract h ab;
  best_of_providers h constraint_fcn (provided_by apkg) None.

(** *** Example hashes *)

Definition mk_abstract (nm : string) (concretes : list pkg_ptr)
  (providers : list abstract_pkg_ptr) : abstract_pkg_t :=
  {| ab_name := Some nm; pkgs := Some concretes; provided_by := providers;
     replaced_by := None; dependencies_checked := false;
     ab_state_flag := SF_OK; ab_state_status := SS_NOT_INSTALLED |}.

Definition mk_pkg (nm : string) (ab : abstract_pkg_ptr) (vers : string)
  (status : pkg_state_status_t) (want : pkg_state_want_t)
  (attrs : list (pkg_field * blob_data)) : pkg_t :=
  let p := parse_version pkg_new vers in
  {| name := Some nm; src := None; dest := None;
     state_want := want; state_flag := SF_OK; state_status := status;
     installed_files := None; installed_files_ref_cnt := 0;
     essential := false; provided_by_hand := false; auto_installed := false;
     parent := Some ab;
     blob := blob p ++ [(PKG_ARCHITECTURE, BString 4 "all"); (PKG_ARCH_PRIORITY, BInt 1)]
                    ++ attrs |}.

Definition atom (c : version_constraint) (v : option string) (ab : abstract_pkg_ptr)
  : depend_t :=
  {| constraint := c; version := v; dep_pkg := ab |}.

Definition depends_on (t : depend_type) (atoms : list depend_t) : compound_depend_t :=
  {| type := t; possibilities := atoms |}.

(** Scenario S2 of the specification: B 2.0 depends on A (>= 2.0), and
    A 1.0 is installed. *)
Definition hash_missing_dep : hash_t :=
  {| abstracts := [mk_abstract "A" [0%nat] [0%nat]; mk_abstract "B" [1%nat] [1%nat]];
     packages :=
       [mk_pkg "A" 0%nat "1.0" SS_INSTALLED SW_INSTALL [];
        mk_pkg "B" 1%nat "2.0" SS_NOT_INSTALLED SW_UNKNOWN
          [(PKG_DEPENDS,
            BDepends (Some [depends_on DEPEND [atom LATER_EQUAL (Some "2.0"%string) 0%nat]]))]] |}.

Example resolver_missing_dep :
  exists h,
    pkg_hash_fetch_unsatisfied_dependencies best_candidate 3 hash_missing_dep 1%nat [] =
    Some (Ok (0, Some ["A (>= 2.0)"%string], [], h)).
Proof. eexists. vm_compute. reflexivity. Qed.

(** Two packages that depend on each other, neither installed. *)
Definition hash_cycle : hash_t :=
  {| abstracts := [mk_abstract "a" [0%nat] [0%nat]; mk_abstract "b" [1%nat] [1%nat]];
     packages :=
       [mk_pkg "a" 0%nat "1.0" SS_NOT_INSTALLED SW_UNKNOWN
          [(PKG_DEPENDS, BDepends (Some [depends_on DEPEND [atom NONE None 1%nat]]))];
        mk_pkg "b" 1%nat "1.0" SS_NOT_INSTALLED SW_UNKNOWN
          [(PKG_DEPENDS, BDepends (Some [depends_on DEPEND [atom NONE None 0%nat]]))]] |}.

Example resolver_cycle :
  exists h,
    pkg_hash_fetch_unsatisfied_dependencies best_candidate 3 hash_cycle 0%nat [] =
    Some (Ok (2, None, [0%nat; 1%nat], h)).
Proof. eexists. vm_compute. reflexivity. Qed.

(** ** Termination of the resolver

    A call that gets past the guard marks an abstract package that was
    not marked; the number of unmarked abstract packages bounds the depth
    of the recursion. *)

Fixpoint count_unchecked (l : list abstract_pkg_t) : nat :=
  match l with
  | [] => O
  | ab :: l' => ((if dependencies_checked ab then 0 else 1) + count_unchecked l')%nat
  end.

Definition unchecked (h : hash_t) : nat := count_unchecked (abstracts h).

(** The run ends, and if it ends without a fault its result satisfies
    [P]. *)
Definition ends_with {A} (m : fres A) (P : A -> Prop) : Prop :=
  exists r, m = Some r /\ forall a, r = Ok a -> P a.

Lemma ends_fret {A} (a : A) (P : A -> Prop) : P a -> ends_with (fret a) P.
Proof. intros H. exists (Ok a). split; [done|]. by intros ? [= <-]. Qed.

Lemma ends_lift {A} (m : res A) (P : A -> Prop) :
  (forall a, m = Ok a -> P a) -> ends_with (lift m) P.
Proof. intros H. by exists m. Qed.

Lemma ends_lift_any {A} (m : res A) : ends_with (lift m) (fun _ => True).
Proof. by apply ends_lift. Qed.

Lemma ends_bind {A B} (m : fres A) (k : A -> fres B) (P : A -> Prop) (Q : B -> Prop) :
  ends_with m P -> (forall a, P a -> ends_with (k a) Q) -> ends_with (fbind m k) Q.
Proof.
  intros (r & -> & Hr) Hk. destruct r as [a|]; simpl.
  - by apply Hk, Hr.
  - by exists Fault.
Qed.

Lemma ends_weaken {A} (m : fres A) (P Q : A -> Prop) :
  ends_with m P -> (forall a, P a -> Q a) -> ends_with m Q.
Proof. intros (r & -> & Hr) HPQ. exists r. split; [done|]. intros a Ha. by apply HPQ, Hr. Qed.

Lemma ends_fold {A S} (f : A -> S -> fres S) (I : S -> Prop) l :
  (forall a s, I s -> ends_with (f a s) I) ->
  forall s, I s -> ends_with (fold_fres f l s) I.
Proof.
  intros Hf. induction l as [|a l IH]; intros s Hs; simpl.
  - by apply ends_fret.
  - eapply ends_bind; [by apply Hf|]. intros s' Hs'. by apply IH.
Qed.

Lemma unchecked_alter_lt l i a :
  l !! i = Some a -> dependencies_checked a = false ->
  (count_unchecked (alter mark_checked i l) < count_unchecked l)%nat.
Proof.
  revert i. induction l as [|x l IH]; intros [|i] Hl Ha; simpl in *; try done.
  - injection Hl as ->. rewrite Ha. lia.
  - specialize (IH i Hl Ha). unfold alter in IH.
    destruct (dependencies_checked x); lia.
Qed.

Lemma unchecked_set h ab a :
  get_abstract h ab = Ok a -> dependencies_checked a = false ->
  (unchecked (set_dependencies_checked h ab) < unchecked h)%nat.
Proof.
  unfold get_abstract, unchecked. destruct (abstracts h !! ab) eqn:E; [|done].
  intros [= ->] Ha. simpl. by eapply unchecked_alter_lt.
Qed.

Section ResolverTermination.

Variable best : hash_t -> abstract_pkg_ptr -> (pkg_t -> res bool) -> res (option pkg_ptr).

(** A resolver that ends on every hash with fewer than [n] unmarked
    abstract packages, and unmarks none. *)
Definition ends_below (n : nat) (self : resolver_t) : Prop :=
  forall h pkg unsatisfied, (unchecked h < n)%nat ->
    ends_with (self h pkg unsatisfied) (fun r => (unchecked r.2 <= unchecked h)%nat).

Variable self : resolver_t.
Variable n : nat.
Hypothesis self_ends : ends_below n self.

Variable m : nat.
Hypothesis m_small : (m < n)%nat.

Lemma greedy_scout_ends pkg_scout st :
  (unchecked st.2 <= m)%nat ->
  ends_with (greedy_scout self pkg_scout st) (fun st' => (unchecked st'.2 <= m)%nat).
Proof.
  destruct st as [unsatisfied h]. cbn [snd]. intros Hh. unfold greedy_scout.
  eapply ends_bind; [apply ends_lift_any|]. intros scout _.
  destruct (negb _); [|by apply ends_fret].
  eapply ends_bind; [apply ends_lift_any|]. intros par _.
  eapply ends_bind; [apply ends_lift_any|]. intros ab _.
  destruct (negb _); [|by apply ends_fret].
  eapply ends_bind; [apply ends_lift_any|]. intros known _.
  destruct (negb _); [|by apply ends_fret].
  eapply ends_bind; [apply self_ends; lia|]. intros [[[rc newstuff] tmp_vec] h'] Hh'.
  simpl in Hh'. destruct newstuff.
  - apply ends_fret. simpl. lia.
  - eapply ends_bind; [apply ends_lift_any|]. intros ok _. apply ends_fret. simpl. lia.
Qed.

Lemma greedy_provider_ends provider st :
  (unchecked st.2 <= m)%nat ->
  ends_with (greedy_provider self provider st) (fun st' => (unchecked st'.2 <= m)%nat).
Proof.
  intros Hh. unfold greedy_provider.
  eapply ends_bind; [apply ends_lift_any|]. intros ab _.
  destruct (pkgs ab); [|by apply ends_fret].
  apply ends_fold; [|done]. intros. by apply greedy_scout_ends.
Qed.

Lemma greedy_possibility_ends possible_satisfier st :
  (unchecked st.2 <= m)%nat ->
  ends_with (greedy_possibility self possible_satisfier st)
            (fun st' => (unchecked st'.2 <= m)%nat).
Proof.
  intros Hh. unfold greedy_possibility.
  eapply ends_bind; [apply ends_lift_any|]. intros ab _.
  apply ends_fold; [|done]. intros. by apply greedy_provider_ends.
Qed.

Lemma settle_compound_ends pkg p i compound_depend satisfier_entry_pkg st :
  (unchecked st.2 <= m)%nat ->
  ends_with (settle_compound self pkg p i compound_depend satisfier_entry_pkg st)
            (fun st' => (unchecked st'.2 <= m)%nat).
Proof.
  destruct st as [[the_lost unsatisfied] h]. cbn [snd]. intros Hh. unfold settle_compound.
  destruct satisfier_entry_pkg as [satisfier|].
  - destruct (bool_decide (type compound_depend = SUGGEST)); [by apply ends_fret|].
    destruct (negb _); [|by apply ends_fret].
    eapply ends_bind; [apply ends_lift_any|]. intros known _.
    destruct (negb _); [|by apply ends_fret].
    eapply ends_bind; [apply self_ends; lia|]. intros [[[rc newstuff] unsat'] h'] Hh'.
    simpl in Hh'. apply ends_fret. simpl. lia.
  - destruct (_ && _).
    + eapply ends_bind; [apply ends_lift_any|]. intros lost _. by apply ends_fret.
    + eapply ends_bind; [apply ends_lift_any|]. intros nm _. by apply ends_fret.
Qed.

Lemma resolve_compound_ends pkg p i compound_depend st :
  (unchecked st.2 <= m)%nat ->
  ends_with (resolve_compound best self pkg p i compound_depend st)
            (fun st' => (unchecked st'.2 <= m)%nat).
Proof.
  destruct st as [[the_lost unsatisfied] h]. cbn [snd]. intros Hh. unfold resolve_compound.
  destruct (bool_decide _).
  - eapply ends_bind.
    + apply (ends_fold _ (fun st' => (unchecked st'.2 <= m)%nat)); [|done].
      intros. by apply greedy_possibility_ends.
    + intros r Hr. by apply ends_fret.
  - eapply ends_bind; [apply ends_lift_any|]. intros found _.
    destruct found; [by apply ends_fret|].
    eapply ends_bind; [apply ends_lift_any|]. intros sat _.
    by apply settle_compound_ends.
Qed.

Lemma resolve_compounds_ends pkg p compound_depends : forall i st,
  (unchecked st.2 <= m)%nat ->
  ends_with (resolve_compounds best self pkg p i compound_depends st)
            (fun st' => (unchecked st'.2 <= m)%nat).
Proof.
  induction compound_depends as [|c l IH]; intros i st Hh; simpl.
  - by apply ends_fret.
  - eapply ends_bind; [by apply resolve_compound_ends|]. intros st' Hst'. by apply IH.
Qed.

End ResolverTermination.

Lemma resolver_body_ends best self n :
  ends_below n self -> ends_below (S n) (resolver_body best self).
Proof.
  intros Hself h pkg unsatisfied Hh. unfold resolver_body.
  eapply ends_bind; [apply ends_lift_any|]. intros p _.
  destruct (parent p) as [ab_ptr|]; [|by apply ends_fret].
  eapply ends_bind; [apply (ends_lift _ (fun a => get_abstract h ab_ptr = Ok a)); auto|].
  intros ab Hab. destruct (dependencies_checked ab) eqn:Hc; [by apply ends_fret|].
  pose proof (unchecked_set h ab_ptr ab Hab Hc) as Hlt.
  destruct (pkg_get_depends_ptr p PKG_DEPENDS) as [[|c l]|].
  - apply ends_fret. simpl. lia.
  - eapply ends_bind.
    + apply (resolve_compounds_ends best self n Hself
               (unchecked (set_dependencies_checked h ab_ptr))); [lia|]. simpl. lia.
    + intros [[the_lost unsat'] h'] Hh'. simpl in Hh'. apply ends_fret. simpl. lia.
  - apply ends_fret. simpl. lia.
Qed.

Lemma resolver_ends_below best depth :
  ends_below depth (pkg_hash_fetch_unsatisfied_dependencies best depth).
Proof.
  induction depth as [|depth IH].
  - intros h pkg unsatisfied Hh. lia.
  - simpl. by apply resolver_body_ends.
Qed.

(** *** A deeper bound changes nothing *)

Lemma fbind_ext {A B} (m : fres A) (k1 k2 : A -> fres B) (P : A -> Prop) :
  ends_with m P -> (forall a, P a -> k1 a = k2 a) -> fbind m k1 = fbind m k2.
Proof.
  intros (r & -> & Hr) Hk. destruct r as [a|]; simpl; [|done]. by apply Hk, Hr.
Qed.

Lemma fold_fres_ext {A S} (f1 f2 : A -> S -> fres S) (I : S -> Prop) l :
  (forall a s, I s -> f1 a s = f2 a s) ->
  (forall a s, I s -> ends_with (f1 a s) I) ->
  forall s, I s -> fold_fres f1 l s = fold_fres f2 l s.
Proof.
  intros Hf HI. induction l as [|a l IH]; intros s Hs; simpl; [done|].
  rewrite <- (Hf a s Hs). eapply fbind_ext; [by apply HI|]. intros s' Hs'. by apply IH.
Qed.

Section ResolverDepth.

Variable best : hash_t -> abstract_pkg_ptr -> (pkg_t -> res bool) -> res (option pkg_ptr).

(** Two resolvers that agree on every hash with fewer than [n] unmarked
    abstract packages. *)
Definition agree_below (n : nat) (self1 self2 : resolver_t) : Prop :=
  forall h pkg unsatisfied, (unchecked h < n)%nat ->
    self1 h pkg unsatisfied = self2 h pkg unsatisfied.

Variables self1 self2 : resolver_t.
Variable n : nat.
Hypothesis self1_ends : ends_below n self1.
Hypothesis selfs_agree : agree_below n self1 self2.

Variable m : nat.
Hypothesis m_small : (m < n)%nat.

Lemma greedy_scout_agree pkg_scout st :
  (unchecked st.2 <= m)%nat ->
  greedy_scout self1 pkg_scout st = greedy_scout self2 pkg_scout st.
Proof.
  destruct st as [unsatisfied h]. cbn [snd]. intros Hh. unfold greedy_scout.
  eapply fbind_ext; [apply ends_lift_any|]. intros scout _.
  destruct (negb _); [|done].
  eapply fbind_ext; [apply ends_lift_any|]. intros par _.
  eapply fbind_ext; [apply ends_lift_any|]. intros ab _.
  destruct (negb _); [|done].
  eapply fbind_ext; [apply ends_lift_any|]. intros known _.
  destruct (negb _); [|done].
  rewrite (selfs_agree h pkg_scout []) by lia. done.
Qed.

Lemma greedy_provider_agree provider st :
  (unchecked st.2 <= m)%nat ->
  greedy_provider self1 provider st = greedy_provider self2 provider st.
Proof.
  intros Hh. unfold greedy_provider.
  eapply fbind_ext; [apply ends_lift_any|]. intros ab _.
  destruct (pkgs ab); [|done].
  apply (fold_fres_ext _ _ (fun st' => (unchecked st'.2 <= m)%nat)); [| |done].
  - intros. by apply greedy_scout_agree.
  - intros. by eapply greedy_scout_ends.
Qed.

Lemma greedy_possibility_agree possible_satisfier st :
  (unchecked st.2 <= m)%nat ->
  greedy_possibility self1 possible_satisfier st =
  greedy_possibility self2 possible_satisfier st.
Proof.
  intros Hh. unfold greedy_possibility.
  eapply fbind_ext; [apply ends_lift_any|]. intros ab _.
  apply (fold_fres_ext _ _ (fun st' => (unchecked st'.2 <= m)%nat)); [| |done].
  - intros. by apply greedy_provider_agree.
  - intros. by eapply greedy_provider_ends.
Qed.

Lemma settle_compound_agree pkg p i compound_depend satisfier_entry_pkg st :
  (unchecked st.2 <= m)%nat ->
  settle_compound self1 pkg p i compound_depend satisfier_entry_pkg st =
  settle_compound self2 pkg p i compound_depend satisfier_entry_pkg st.
Proof.
  destruct st as [[the_lost unsatisfied] h]. cbn [snd]. intros Hh. unfold settle_compound.
  destruct satisfier_entry_pkg as [satisfier|]; [|done].
  destruct (bool_decide (type compound_depend = SUGGEST)); [done|].
  destruct (negb _); [|done].
  eapply fbind_ext; [apply ends_lift_any|]. intros known _.
  destruct (negb _); [|done].
  rewrite (selfs_agree h satisfier unsatisfied) by lia. done.
Qed.

Lemma resolve_compound_agree pkg p i compound_depend st :
  (unchecked st.2 <= m)%nat ->
  resolve_compound best self1 pkg p i compound_depend st =
  resolve_compound best self2 pkg p i compound_depend st.
Proof.
  destruct st as [[the_lost unsatisfied] h]. cbn [snd]. intros Hh. unfold resolve_compound.
  destruct (bool_decide _).
  - rewrite (fold_fres_ext (greedy_possibility self1) (greedy_possibility self2)
               (fun st' => (unchecked st'.2 <= m)%nat)); [done| | |done].
    + intros. by apply greedy_possibility_agree.
    + intros. by eapply greedy_possibility_ends.
  - eapply fbind_ext; [apply ends_lift_any|]. intros found _.
    destruct found; [done|].
    eapply fbind_ext; [apply ends_lift_any|]. intros sat _.
    by apply settle_compound_agree.
Qed.

Lemma resolve_compounds_agree pkg p compound_depends : forall i st,
  (unchecked st.2 <= m)%nat ->
  resolve_compounds best self1 pkg p i compound_depends st =
  resolve_compounds best self2 pkg p i compound_depends st.
Proof.
  induction compound_depends as [|c l IH]; intros i st Hh; simpl; [done|].
  rewrite <- (resolve_compound_agree pkg p i c st Hh).
  eapply fbind_ext; [by eapply resolve_compound_ends|]. intros st' Hst'. by apply IH.
Qed.

End ResolverDepth.

Lemma resolver_body_agree best self1 self2 n :
  ends_below n self1 -> agree_below n self1 self2 ->
  agree_below (S n) (resolver_body best self1) (resolver_body best self2).
Proof.
  intros Hends Hagree h pkg unsatisfied Hh. unfold resolver_body.
  eapply fbind_ext; [apply ends_lift_any|]. intros p _.
  destruct (parent p) as [ab_ptr|]; [|done].
  eapply fbind_ext; [apply (ends_lift _ (fun a => get_abstract h ab_ptr = Ok a)); auto|].
  intros ab Hab. destruct (dependencies_checked ab) eqn:Hc; [done|].
  pose proof (unchecked_set h ab_ptr ab Hab Hc) as Hlt.
  destruct (pkg_get_depends_ptr p PKG_DEPENDS) as [[|c l]|]; [done| |done].
  rewrite (resolve_compounds_agree best self1 self2 n Hends Hagree
             (unchecked (set_dependencies_checked h ab_ptr))); [done|lia|simpl; lia].
Qed.

Lemma resolver_depth_agree best depth : forall depth', (depth <= depth')%nat ->
  agree_below depth (pkg_hash_fetch_unsatisfied_dependencies best depth)
                    (pkg_hash_fetch_unsatisfied_dependencies best depth').
Proof.
  induction depth as [|depth IH]; intros depth' Hle.
  - intros h pkg unsatisfied Hh. lia.
  - destruct depth' as [|depth']; [lia|]. simpl.
    apply resolver_body_agree; [apply resolver_ends_below|]. apply IH. lia.
Qed.

(** C4: the resolver ends on every hash, cyclic or not.  A package whose
    abstract package is already marked returns at once: 0, no unresolved
    list, the vector and the marks untouched, without a call of the
    resolver.  Every other call marks an abstract package, so a depth of
    one more than the number of unmarked abstract packages is never
    exhausted, and a deeper bound gives the same result. *)
Theorem resolver_terminates best (h : hash_t) (pkg : pkg_ptr) (unsatisfied : list pkg_ptr) :
  (forall self p ab_ptr ab_pkg,
      get_pkg h pkg = Ok p -> parent p = Some ab_ptr ->
      get_abstract h ab_ptr = Ok ab_pkg -> dependencies_checked ab_pkg = true ->
      resolver_body best self h pkg unsatisfied = Some (Ok (0, None, unsatisfied, h))) /\
  (exists r,
      pkg_hash_fetch_unsatisfied_dependencies best (S (unchecked h)) h pkg unsatisfied
        = Some r /\
      forall depth, (S (unchecked h) <= depth)%nat ->
        pkg_hash_fetch_unsatisfied_dependencies best depth h pkg unsatisfied = Some r).
Proof.
  split.
  - intros self p ab_ptr ab_pkg Hp Hpar Hab Hc. unfold resolver_body.
    rewrite Hp. simpl. rewrite Hpar, Hab. simpl. by rewrite Hc.
  - destruct (resolver_ends_below best (S (unchecked h)) h pkg unsatisfied) as (r & Hr & _);
      [lia|].
    exists r. split; [done|]. intros depth Hd.
    rewrite <- (resolver_depth_agree best (S (unchecked h)) depth Hd h pkg unsatisfied); [done|lia].
Qed.

Lemma resolver_terminates_witness :
  let h := set_dependencies_checked hash_cycle 0%nat in
  resolver_body best_candidate (fun _ _ _ => None) h 0%nat [] = Some (Ok (0, None, [], h)) /\
  exists r,
    pkg_hash_fetch_unsatisfied_dependencies best_candidate (S (unchecked h)) h 0%nat []
    = Some r.
Proof.
  destruct (resolver_terminates best_candidate
              (set_dependencies_checked hash_cycle 0%nat) 0%nat []) as [Hguard (r & Hr & _)].
  split.
  - eapply Hguard; reflexivity.
  - exists r. exact Hr.
Defined.

(** C7: a package without compound dependencies (no Depends array, or an
    empty one) gets the empty result: the call returns 0, the unresolved
    list is NULL and the vector it was given is unchanged; only the mark of
    its abstract package may change. *)
Theorem resolver_no_depends best depth (h : hash_t) (pkg : pkg_ptr) (p : pkg_t)
  (unsatisfied : list pkg_ptr) :
  get_pkg h pkg = Ok p ->
  (forall ab_ptr, parent p = Some ab_ptr -> exists ab_pkg, get_abstract h ab_ptr = Ok ab_pkg) ->
  default [] (pkg_get_depends_ptr p PKG_DEPENDS) = [] ->
  exists h',
    pkg_hash_fetch_unsatisfied_dependencies best (S depth) h pkg unsatisfied =
    Some (Ok (0, None, unsatisfied, h')) /\
    packages h' = packages h.
Proof.
  intros Hp Hpar Hdeps. simpl. unfold resolver_body. rewrite Hp. simpl.
  destruct (parent p) as [ab_ptr|]; [|by exists h].
  destruct (Hpar ab_ptr eq_refl) as [ab_pkg Hab]. rewrite Hab. simpl.
  destruct (dependencies_checked ab_pkg); [by exists h|].
  exists (set_dependencies_checked h ab_ptr).
  destruct (pkg_get_depends_ptr p PKG_DEPENDS) as [[|c l]|]; try done.
Qed.

(** A package without a Depends attribute, in the hash of the cycle
    example. *)
Definition hash_no_depends : hash_t :=
  {| abstracts := [mk_abstract "solo" [0%nat] [0%nat]];
     packages := [mk_pkg "solo" 0%nat "1.0" SS_NOT_INSTALLED SW_UNKNOWN []] |}.

Lemma resolver_no_depends_witness :
  exists h',
    pkg_hash_fetch_unsatisfied_dependencies best_candidate 1 hash_no_depends 0%nat [7%nat] =
    Some (Ok (0, None, [7%nat], h')) /\
    packages h' = packages hash_no_depends.
Proof.
  eapply (resolver_no_depends best_candidate 0 hash_no_depends 0%nat).
  - reflexivity.
  - intros ab_ptr [= <-]. eexists. reflexivity.
  - reflexivity.
Defined.

(** The two passes over the atoms of a compound dependency: whether an
    installed satisfier exists, and otherwise the candidate found. *)
Definition find_candidate best (h : hash_t) (compound_depend : compound_depend_t)
  : res (bool * option pkg_ptr) :=
  found ← find_installed_satisfier best h (possibilities compound_depend);
  if (found : bool) then Ok (true, None)
  else
    satisfier ← find_satisfier best h (type compound_depend) (possibilities compound_depend);
    Ok (false, satisfier).

(** C8 fails for a Recommend or Suggest compound without atoms: the two
    searches find nothing, and the notice that is then logged reads the
    first atom, which does not exist.  The call does not return, whatever
    the hash, the package and the state are. *)
Theorem recommend_without_atoms_faults best (self : resolver_t) (pkg : pkg_ptr) (p : pkg_t)
  (i : nat) (compound_depend : compound_depend_t)
  (st : unresolved_t * list pkg_ptr * hash_t) :
  type compound_depend = SUGGEST \/ type compound_depend = RECOMMEND ->
  possibilities compound_depend = [] ->
  find_candidate best st.2 compound_depend = Ok (false, None) /\
  resolve_compound best self pkg p i compound_depend st = Some Fault.
Proof.
  destruct st as [[the_lost unsatisfied] h]. cbn [snd]. intros Ht Hp.
  unfold resolve_compound, find_candidate, settle_compound, first_possibility_name.
  rewrite Hp. split; [done|].
  assert (bool_decide (type compound_depend = GREEDY_DEPEND) = false) as ->.
  { destruct Ht as [-> | ->]; done. }
  simpl. destruct Ht as [-> | ->]; done.
Qed.

(** [app] suggests [extra], which exists but is not installed, and
    recommends [gone], which no package provides. *)
Definition hash_suggests : hash_t :=
  {| abstracts :=
       [mk_abstract "app" [0%nat] [0%nat]; mk_abstract "extra" [1%nat] [1%nat];
        mk_abstract "gone" [] [2%nat]];
     packages :=
       [mk_pkg "app" 0%nat "1.0" SS_NOT_INSTALLED SW_UNKNOWN
          [(PKG_DEPENDS,
            BDepends (Some [depends_on SUGGEST [atom NONE None 1%nat];
                            depends_on RECOMMEND [atom NONE None 2%nat]]))];
        mk_pkg "extra" 1%nat "1.0" SS_NOT_INSTALLED SW_UNKNOWN []] |}.

(** [app] as the control line [Recommends: gone,|] leaves it: a compound
    for [gone] and a compound without atoms for the bar. *)
Definition hash_recommends_bar : hash_t :=
  {| abstracts := [mk_abstract "app" [0%nat] [0%nat]; mk_abstract "gone" [] [1%nat]];
     packages :=
       [mk_pkg "app" 0%nat "1.0" SS_NOT_INSTALLED SW_UNKNOWN
          [(PKG_DEPENDS,
            BDepends (Some [depends_on RECOMMEND [atom NONE None 1%nat];
                            depends_on RECOMMEND []]))]] |}.

Lemma recommend_without_atoms_faults_witness :
  let st := (None, [], hash_recommends_bar) in
  find_candidate best_candidate st.2 (depends_on RECOMMEND []) = Ok (false, None) /\
  resolve_compound best_candidate (fun _ _ _ => None) 0%nat
    (mk_pkg "app" 0%nat "1.0" SS_NOT_INSTALLED SW_UNKNOWN []) 1
    (depends_on RECOMMEND []) st = Some Fault.
Proof.
  apply (recommend_without_atoms_faults best_candidate (fun _ _ _ => None) 0%nat
           (mk_pkg "app" 0%nat "1.0" SS_NOT_INSTALLED SW_UNKNOWN []) 1
           (depends_on RECOMMEND []) (None, [], hash_recommends_bar)).
  - right. reflexivity.
  - reflexivity.
Defined.

(** The whole resolver on that package: the first compound is passed
    over, the second ends the run. *)
Example resolver_recommends_bar :
  pkg_hash_fetch_unsatisfied_dependencies best_candidate 2 hash_recommends_bar 0%nat []
  = Some Fault.
Proof. vm_compute. reflexivity. Qed.

Example suggests_candidate_found :
  find_candidate best_candidate hash_suggests (depends_on SUGGEST [atom NONE None 1%nat])
  = Ok (false, Some 1%nat).
Proof. reflexivity. Qed.

Example resolver_suggests :
  exists h,
    pkg_hash_fetch_unsatisfied_dependencies best_candidate 2 hash_suggests 0%nat [] =
    Some (Ok (0, None, [], h)).
Proof. eexists. vm_compute. reflexivity. Qed.

(** ** The conflicts of a package

    What [pkg_hash_fetch_conflicts] reports, read off its three loops. *)

(** [is_pkg_a_replaces] as a relation: an entry of the Replaces list of
    [pkg] has the name of the scout. *)
Definition replaced_by_name (h : hash_t) (pkg_scout pkg : pkg_t) : Prop :=
  exists r ab_pkg scout_name replaces_name,
    r ∈ default [] (pkg_get_abstracts_ptr pkg PKG_REPLACES) /\
    get_abstract h r = Ok ab_pkg /\
    name pkg_scout = Some scout_name /\
    ab_name ab_pkg = Some replaces_name /\
    c_str scout_name = c_str replaces_name.

(** The test of the innermost loop, apart from the packages found so far. *)
Definition conflicting_scout (h : hash_t) (pkg : pkg_t) (possible_satisfier : depend_t)
  (pkg_scout : pkg_ptr) : Prop :=
  exists scout,
    get_pkg h pkg_scout = Ok scout /\
    (state_status scout = SS_INSTALLED \/ state_want scout = SW_INSTALL) /\
    version_constraints_satisfied possible_satisfier scout = Ok true /\
    ~ replaced_by_name h scout pkg.

(** The scout is a concrete package of the abstract package an atom names,
    and passes the test for that atom. *)
Definition conflicting_atom (h : hash_t) (pkg : pkg_t) (possible_satisfiers : list depend_t)
  (pkg_scout : pkg_ptr) : Prop :=
  exists possible_satisfier ab_pkg test_vec,
    possible_satisfier ∈ possible_satisfiers /\
    get_abstract h (dep_pkg possible_satisfier) = Ok ab_pkg /\
    pkgs ab_pkg = Some test_vec /\
    pkg_scout ∈ test_vec /\
    conflicting_scout h pkg possible_satisfier pkg_scout.

Definition conflicting (h : hash_t) (pkg : pkg_t) (conflicts : list compound_depend_t)
  (pkg_scout : pkg_ptr) : Prop :=
  exists conflict,
    conflict ∈ conflicts /\ conflicting_atom h pkg (possibilities conflict) pkg_scout.

(** The scout is in the vector, or a package of its name, version and
    architecture is. *)
Definition reported (h : hash_t) (vec : list pkg_ptr) (pkg_scout : pkg_ptr) : Prop :=
  pkg_scout ∈ vec \/ is_pkg_in_pkg_vec h vec pkg_scout = Ok true.

Lemma is_pkg_a_replaces_loop_spec h pkg_scout replaces b :
  is_pkg_a_replaces_loop h pkg_scout replaces = Ok b ->
  b = true <->
  exists r ab_pkg scout_name replaces_name,
    r ∈ replaces /\ get_abstract h r = Ok ab_pkg /\
    name pkg_scout = Some scout_name /\ ab_name ab_pkg = Some replaces_name /\
    c_str scout_name = c_str replaces_name.
Proof.
  revert b. induction replaces as [|r replaces IH]; intros b; simpl.
  - intros [= <-]. split; [done|]. intros (r & ? & ? & ? & Hin & _). by apply elem_of_nil in Hin.
  - destruct (get_abstract h r) as [ab_pkg|] eqn:Hab; simpl; [|done].
    unfold strcmp_ptr.
    destruct (name pkg_scout) as [scout_name|] eqn:Hn; simpl; [|done].
    destruct (ab_name ab_pkg) as [replaces_name|] eqn:Ha; simpl; [|done].
    destruct (Z.eqb_spec (strcmp scout_name replaces_name) 0) as [E|E].
    + intros [= <-]. split; [|done]. intros _.
      exists r, ab_pkg, scout_name, replaces_name.
      rewrite elem_of_cons. apply strcmp_zero_iff in E. by eauto 6.
    + intros Hl. rewrite (IH b Hl). split.
      * intros (r' & ab' & n1 & n2 & Hin & H1 & H2 & H3 & H4).
        exists r', ab', n1, n2. rewrite elem_of_cons. by eauto 6.
      * intros (r' & ab' & n1 & n2 & [->|Hin]%elem_of_cons & H1 & H2 & H3 & H4).
        -- rewrite Hab in H1. injection H1 as <-. rewrite Ha in H3.
           injection H2 as <-. injection H3 as <-.
           by apply strcmp_zero_iff in H4.
        -- exists r', ab', n1, n2. by eauto 6.
Qed.

Lemma is_pkg_a_replaces_spec h pkg_scout pkg b :
  is_pkg_a_replaces h pkg_scout pkg = Ok b ->
  b = true <-> replaced_by_name h pkg_scout pkg.
Proof.
  unfold is_pkg_a_replaces, replaced_by_name.
  destruct (pkg_get_abstracts_ptr pkg PKG_REPLACES) as [replaces|]; simpl.
  - apply is_pkg_a_replaces_loop_spec.
  - intros [= <-]. split; [done|]. intros (r & ? & ? & ? & Hin & _). by apply elem_of_nil in Hin.
Qed.

Lemma is_pkg_in_pkg_vec_loop_app h vec ext pkg arch1 :
  is_pkg_in_pkg_vec_loop h vec pkg arch1 = Ok true ->
  is_pkg_in_pkg_vec_loop h (vec ++ ext) pkg arch1 = Ok true.
Proof.
  induction vec as [|p vec IH]; simpl; [done|].
  destruct (get_pkg h p) as [q|]; simpl; [|done].
  destruct (strcmp_ptr (name pkg) (name q)) as [c|]; simpl; [|done].
  destruct (negb (c =? 0)); [done|].
  destruct (negb (pkg_compare_versions pkg q =? 0)); [done|].
  destruct (strcmp_ptr arch1 (pkg_get_architecture q)) as [c'|]; simpl; [|done].
  by destruct (c' =? 0).
Qed.

Lemma reported_app h vec ext pkg_scout :
  reported h vec pkg_scout -> reported h (vec ++ ext) pkg_scout.
Proof.
  intros [Hin|Hvec]; [left; apply elem_of_app; by left|right].
  unfold is_pkg_in_pkg_vec in *.
  destruct (get_pkg h pkg_scout) as [p|]; simpl in *; [|done].
  by apply is_pkg_in_pkg_vec_loop_app.
Qed.

Lemma conflict_scout_test_spec h pkg possible_satisfier installed_conflicts pkg_scout add :
  conflict_scout_test h pkg possible_satisfier installed_conflicts pkg_scout = Ok add ->
  (add = true -> conflicting_scout h pkg possible_satisfier pkg_scout) /\
  (add = false -> conflicting_scout h pkg possible_satisfier pkg_scout ->
   is_pkg_in_pkg_vec h installed_conflicts pkg_scout = Ok true).
Proof.
  unfold conflict_scout_test, conflicting_scout.
  destruct (get_pkg h pkg_scout) as [scout|] eqn:Hs; simpl; [|done].
  destruct (bool_decide (state_status scout = SS_INSTALLED)
            || bool_decide (state_want scout = SW_INSTALL)) eqn:Hstate.
  - destruct (version_constraints_satisfied possible_satisfier scout) as [[|]|] eqn:Hsat;
      simpl; try done.
    + destruct (is_pkg_a_replaces h scout pkg) as [replaced|] eqn:Hrep; simpl; [|done].
      pose proof (is_pkg_a_replaces_spec _ _ _ _ Hrep) as Hname.
      destruct replaced; simpl.
      * intros [= <-]. split; [done|]. intros _ (scout' & [= <-] & _ & _ & Hnot).
        destruct Hnot. by apply Hname.
      * destruct (is_pkg_in_pkg_vec h installed_conflicts pkg_scout) as [known|]; simpl; [|done].
        intros [= <-]. split.
        -- intros _. exists scout. split; [done|]. split.
           ++ apply orb_true_iff in Hstate as [H|H]; apply bool_decide_eq_true in H; eauto.
           ++ split; [done|]. intros H. by apply Hname in H.
        -- intros Hk _. by destruct known.
    + intros [= <-]. split; [done|]. intros _ (scout' & [= <-] & _ & H & _).
      by rewrite Hsat in H.
  - intros [= <-]. split; [done|]. intros _ (scout' & [= <-] & Hst & _).
    apply orb_false_iff in Hstate as [H1 H2].
    apply bool_decide_eq_false in H1, H2. by destruct Hst.
Qed.

Lemma conflicts_scan_vec_spec h pkg possible_satisfier test_vec :
  forall installed_conflicts result,
    conflicts_scan_vec h pkg possible_satisfier test_vec installed_conflicts = Ok result ->
    exists added,
      result = installed_conflicts ++ added /\
      (forall q, q ∈ added -> q ∈ test_vec /\ conflicting_scout h pkg possible_satisfier q) /\
      (forall q, q ∈ test_vec -> conflicting_scout h pkg possible_satisfier q ->
                 reported h result q).
Proof.
  induction test_vec as [|pkg_scout test_vec IH]; intros installed_conflicts result; simpl.
  - intros [= <-]. exists []. rewrite app_nil_r. split; [done|].
    split; intros q Hq; by apply elem_of_nil in Hq.
  - destruct (conflict_scout_test h pkg possible_satisfier installed_conflicts pkg_scout)
      as [add|] eqn:Htest; simpl; [|done].
    apply conflict_scout_test_spec in Htest as [Hadd Hskip].
    intros (added & -> & Hsound & Hcomplete)%IH. destruct add.
    + exists (pkg_scout :: added). rewrite <- app_assoc. split; [done|]. split.
      * intros q [->|Hq]%elem_of_cons.
        -- split; [by left|by apply Hadd].
        -- destruct (Hsound q Hq). split; [by right|done].
      * intros q [->|Hq]%elem_of_cons Hc.
        -- left. rewrite !elem_of_app, elem_of_cons. auto.
        -- rewrite app_assoc. by apply Hcomplete.
    + exists added. split; [done|]. split.
      * intros q Hq. destruct (Hsound q Hq). split; [by right|done].
      * intros q [->|Hq]%elem_of_cons Hc.
        -- apply reported_app. right. by apply Hskip.
        -- by apply Hcomplete.
Qed.

Lemma conflicts_scan_possibilities_spec h pkg possible_satisfiers :
  forall installed_conflicts result,
    conflicts_scan_possibilities h pkg possible_satisfiers installed_conflicts = Ok result ->
    exists added,
      result = installed_conflicts ++ added /\
      (forall q, q ∈ added -> conflicting_atom h pkg possible_satisfiers q) /\
      (forall q, conflicting_atom h pkg possible_satisfiers q -> reported h result q).
Proof.
  induction possible_satisfiers as [|a rest IH]; intros installed_conflicts result; simpl.
  - intros [= <-]. exists []. rewrite app_nil_r. split; [done|]. split.
    + intros q Hq. by apply elem_of_nil in Hq.
    + intros q (a & ? & ? & Hin & _). by apply elem_of_nil in Hin.
  - destruct (get_abstract h (dep_pkg a)) as [ab_pkg|] eqn:Hab; simpl; [|done].
    destruct (pkgs ab_pkg) as [test_vec|] eqn:Hvec.
    + destruct (conflicts_scan_vec h pkg a test_vec installed_conflicts) as [mid|] eqn:Hscan;
        simpl; [|done].
      apply conflicts_scan_vec_spec in Hscan as (added1 & -> & Hs1 & Hc1).
      intros (added2 & -> & Hs2 & Hc2)%IH.
      exists (added1 ++ added2). rewrite app_assoc. split; [done|]. split.
      * intros q [Hq|Hq]%elem_of_app.
        -- destruct (Hs1 q Hq). exists a, ab_pkg, test_vec. rewrite elem_of_cons. by eauto 6.
        -- destruct (Hs2 q Hq) as (a' & ab' & vec' & Hin & H).
           exists a', ab', vec'. rewrite elem_of_cons. by eauto.
      * intros q (a' & ab' & vec' & [->|Hin]%elem_of_cons & Hab' & Hvec' & Hq & Hq').
        -- rewrite Hab in Hab'. injection Hab' as <-. rewrite Hvec in Hvec'.
           injection Hvec' as <-. apply reported_app. by apply Hc1.
        -- apply Hc2. exists a', ab', vec'. by eauto.
    + simpl. intros (added & -> & Hs & Hc)%IH. exists added. split; [done|]. split.
      * intros q Hq. destruct (Hs q Hq) as (a' & ab' & vec' & Hin & H).
        exists a', ab', vec'. rewrite elem_of_cons. by eauto.
      * intros q (a' & ab' & vec' & [->|Hin]%elem_of_cons & Hab' & Hvec' & Hq & Hq').
        -- rewrite Hab in Hab'. injection Hab' as <-. by rewrite Hvec in Hvec'.
        -- apply Hc. exists a', ab', vec'. by eauto.
Qed.

Lemma conflicts_scan_spec h pkg conflicts :
  forall installed_conflicts result,
    conflicts_scan h pkg conflicts installed_conflicts = Ok result ->
    exists added,
      result = installed_conflicts ++ added /\
      (forall q, q ∈ added -> conflicting h pkg conflicts q) /\
      (forall q, conflicting h pkg conflicts q -> reported h result q).
Proof.
  induction conflicts as [|conflict conflicts IH]; intros installed_conflicts result; simpl.
  - intros [= <-]. exists []. rewrite app_nil_r. split; [done|]. split.
    + intros q Hq. by apply elem_of_nil in Hq.
    + intros q (c & Hin & _). by apply elem_of_nil in Hin.
  - destruct (conflicts_scan_possibilities h pkg (possibilities conflict) installed_conflicts)
      as [mid|] eqn:Hscan; simpl; [|done].
    apply conflicts_scan_possibilities_spec in Hscan as (added1 & -> & Hs1 & Hc1).
    intros (added2 & -> & Hs2 & Hc2)%IH.
    exists (added1 ++ added2). rewrite app_assoc. split; [done|]. split.
    + intros q [Hq|Hq]%elem_of_app.
      * exists conflict. split; [by left|by apply Hs1].
      * destruct (Hs2 q Hq) as (c & Hin & H). exists c. split; [by right|done].
    + intros q (c & [->|Hin]%elem_of_cons & Hc).
      * apply reported_app. by apply Hc1.
      * apply Hc2. exists c. by eauto.
Qed.

(** [new-foo] conflicts with [old-foo] and replaces the virtual package
    [foo], which the installed [old-foo] provides. *)
Definition new_foo_virtual : pkg_t :=
  mk_pkg "new-foo" 0%nat "2.0" SS_NOT_INSTALLED SW_INSTALL
    [(PKG_CONFLICTS, BDepends (Some [depends_on CONFLICTS [atom NONE None 1%nat]]));
     (PKG_REPLACES, BAbstracts (Some [2%nat]));
     (PKG_PROVIDES, BAbstracts (Some [0%nat]))].

Definition old_foo_virtual : pkg_t :=
  mk_pkg "old-foo" 1%nat "1.0" SS_INSTALLED SW_INSTALL
    [(PKG_PROVIDES, BAbstracts (Some [1%nat; 2%nat]))].

Definition hash_virtual : hash_t :=
  {| abstracts := [mk_abstract "new-foo" [0%nat] [0%nat]; mk_abstract "old-foo" [1%nat] [1%nat];
                   mk_abstract "foo" [] [1%nat]];
     packages := [new_foo_virtual; old_foo_virtual] |}.

(** Scenario S5 of the specification: [new-foo] conflicts with and
    replaces [old-foo], which is installed. *)
Definition hash_replaces : hash_t :=
  {| abstracts := [mk_abstract "new-foo" [0%nat] [0%nat]; mk_abstract "old-foo" [1%nat] [1%nat]];
     packages :=
       [mk_pkg "new-foo" 0%nat "2.0" SS_NOT_INSTALLED SW_INSTALL
          [(PKG_CONFLICTS, BDepends (Some [depends_on CONFLICTS [atom NONE None 1%nat]]));
           (PKG_REPLACES, BAbstracts (Some [1%nat]));
           (PKG_PROVIDES, BAbstracts (Some [0%nat]))];
        mk_pkg "old-foo" 1%nat "1.0" SS_INSTALLED SW_INSTALL
          [(PKG_PROVIDES, BAbstracts (Some [1%nat]))]] |}.

Example conflicts_with_replaces : pkg_hash_fetch_conflicts hash_replaces 0%nat = Ok None.
Proof. reflexivity. Qed.

(** C3, as stated, fails: [old-foo] provides [foo] and [new-foo] replaces
    [foo], so an entry of the Replaces list of [new-foo] is in the Provides
    list of [old-foo]; yet [old-foo] is reported as a conflict of
    [new-foo], because the scan compares the name of the scout with the
    names of the Replaces list. *)
Lemma conflicts_reports_replaced_provider :
  ~ (forall (h : hash_t) (pkg q : pkg_ptr) (p scout : pkg_t) (l : list pkg_ptr),
        get_pkg h pkg = Ok p -> get_pkg h q = Ok scout ->
        pkg_hash_fetch_conflicts h pkg = Ok (Some l) -> q ∈ l ->
        pkg_replaces p scout = false).
Proof.
  intros H.
  specialize (H hash_virtual 0%nat 1%nat new_foo_virtual old_foo_virtual [1%nat]
                eq_refl eq_refl eq_refl).
  assert (pkg_replaces new_foo_virtual old_foo_virtual = true) as Hr by reflexivity.
  rewrite H in Hr; [done|]. by left.
Qed.

(** C3, amended: the packages reported are exactly the scouts that are a
    concrete package of the abstract package named by an atom of the
    Conflicts list, are installed or wanted installed, satisfy the
    constraint of that atom, and whose name is not the name of an entry of
    the Replaces list of the package; a scout is left out only when a
    package of its name, version and architecture is already reported.
    The result is NULL, never an empty vector, and NULL for a package
    without a parent. *)
Theorem pkg_hash_fetch_conflicts_spec (h : hash_t) (pkg : pkg_ptr) (p : pkg_t)
  (r : option (list pkg_ptr)) :
  get_pkg h pkg = Ok p ->
  pkg_hash_fetch_conflicts h pkg = Ok r ->
  let conflicts := default [] (pkg_get_depends_ptr p PKG_CONFLICTS) in
  r <> Some [] /\
  (parent p = None -> r = None) /\
  (parent p <> None ->
   (forall q, q ∈ default [] r -> conflicting h p conflicts q) /\
   (forall q, conflicting h p conflicts q -> reported h (default [] r) q)).
Proof.
  intros Hp. unfold pkg_hash_fetch_conflicts. rewrite Hp. simpl.
  destruct (parent p) as [ab_ptr|].
  - destruct (pkg_get_depends_ptr p PKG_CONFLICTS) as [conflicts|]; simpl.
    + destruct (conflicts_scan h p conflicts []) as [result|] eqn:Hscan; simpl; [|done].
      apply conflicts_scan_spec in Hscan as (added & -> & Hsound & Hcomplete).
      simpl in *. intros Hr.
      assert (default [] r = added) as ->.
      { destruct added; by injection Hr as <-. }
      split; [by destruct added; injection Hr as <-|].
      split; [done|]. by intros _.
    + intros [= <-]. split; [done|]. split; [done|]. intros _. split.
      * intros q Hq. by apply elem_of_nil in Hq.
      * intros q (c & Hin & _). by apply elem_of_nil in Hin.
  - intros [= <-]. split; [done|]. split; [done|]. by intros [].
Qed.

Lemma pkg_hash_fetch_conflicts_spec_witness :
  let conflicts := default [] (pkg_get_depends_ptr new_foo_virtual PKG_CONFLICTS) in
  Some [1%nat] <> Some [] /\
  (parent new_foo_virtual = None -> Some [1%nat] = None) /\
  (parent new_foo_virtual <> None ->
   (forall q, q ∈ [1%nat] -> conflicting hash_virtual new_foo_virtual conflicts q) /\
   (forall q, conflicting hash_virtual new_foo_virtual conflicts q ->
              reported hash_virtual [1%nat] q)).
Proof.
  apply (pkg_hash_fetch_conflicts_spec hash_virtual 0%nat new_foo_virtual (Some [1%nat])).
  - reflexivity.
  - reflexivity.
Defined.

(** * Further properties of the code *)

(** ** The names of the states (pkg.c) *)

Definition pkg_state_want_map : list (pkg_state_want_t * string) :=
  [(SW_UNKNOWN, "unknown"); (SW_INSTALL, "install"); (SW_DEINSTALL, "deinstall");
   (SW_PURGE, "purge")]%string.

Definition pkg_state_status_map : list (pkg_state_status_t * string) :=
  [(SS_NOT_INSTALLED, "not-installed"); (SS_UNPACKED, "unpacked");
   (SS_HALF_CONFIGURED, "half-configured"); (SS_INSTALLED, "installed");
   (SS_HALF_INSTALLED, "half-installed"); (SS_CONFIG_FILES, "config-files");
   (SS_POST_INST_FAILED, "post-inst-failed"); (SS_REMOVAL_FAILED, "removal-failed")]%string.

(** The loop [for (i = 0; i < ARRAY_SIZE(map); i++) if (map[i].value == v)
    return map[i].str;] and what is returned after it. *)
Fixpoint enum_to_str_loop {A} `{EqDecision A} (map : list (A * string)) (v : A)
  (unknown : string) : string :=
  match map with
  | [] => unknown
  | (value, str) :: map' =>
      if decide (value = v) then str else enum_to_str_loop map' v unknown
  end.

(** The loop [if (strcmp(str, map[i].str) == 0) return map[i].value;]. *)
Fixpoint enum_from_str_loop {A} (map : list (A * string)) (str : string) (unknown : A) : A :=
  match map with
  | [] => unknown
  | (value, name) :: map' =>
      if strcmp str name =? 0 then value else enum_from_str_loop map' str unknown
  end.

Definition pkg_state_want_to_str (sw : pkg_state_want_t) : string :=
  enum_to_str_loop pkg_state_want_map sw "<STATE_WANT_UNKNOWN>".

Definition pkg_state_want_from_str (str : string) : pkg_state_want_t :=
  enum_from_str_loop pkg_state_want_map str SW_UNKNOWN.

Definition pkg_state_status_to_str (ss : pkg_state_status_t) : string :=
  enum_to_str_loop pkg_state_status_map ss "<STATE_STATUS_UNKNOWN>".

Definition pkg_state_status_from_str (str : string) : pkg_state_status_t :=
  enum_from_str_loop pkg_state_status_map str SS_NOT_INSTALLED.

Lemma enum_from_str_loop_spec {A} (map : list (A * string)) str unknown :
  (exists value name, (value, name) ∈ map /\ c_str str = c_str name /\
                      enum_from_str_loop map str unknown = value) \/
  ((forall value name, (value, name) ∈ map -> c_str str <> c_str name) /\
   enum_from_str_loop map str unknown = unknown).
Proof.
  induction map as [|[value name] map IH]; simpl.
  - right. split; [|done]. intros ? ? Hin. by apply elem_of_nil in Hin.
  - destruct (Z.eqb_spec (strcmp str name) 0) as [E|E].
    + left. exists value, name. apply strcmp_zero_iff in E. split; [by left|done].
    + destruct IH as [(v & n & Hin & Hs & Hv)|[Hnone Hu]].
      * left. exists v, n. split; [by right|done].
      * right. split; [|done]. intros v n [[= -> ->]|Hin]%elem_of_cons.
        -- by rewrite <- strcmp_zero_iff.
        -- by apply (Hnone v n).
Qed.

(** Every state the user can want is read back from its name, and so is
    every installation status. *)
Theorem pkg_state_names_round_trip (sw : pkg_state_want_t) (ss : pkg_state_status_t) :
  pkg_state_want_from_str (pkg_state_want_to_str sw) = sw /\
  pkg_state_status_from_str (pkg_state_status_to_str ss) = ss.
Proof. split; [by destruct sw|by destruct ss]. Qed.

(** A string that is not the name of a state reads as the first state of
    the table: SW_UNKNOWN, SS_NOT_INSTALLED.  Any other result means the
    string is the name of that result. *)
Theorem pkg_state_from_str_unknown (str : string) :
  (forall sw, c_str str <> c_str (pkg_state_want_to_str sw)) ->
  (forall ss, c_str str <> c_str (pkg_state_status_to_str ss)) ->
  pkg_state_want_from_str str = SW_UNKNOWN /\
  pkg_state_status_from_str str = SS_NOT_INSTALLED.
Proof.
  intros Hw Hs. split.
  - unfold pkg_state_want_from_str.
    destruct (enum_from_str_loop_spec pkg_state_want_map str SW_UNKNOWN)
      as [(v & n & Hin & Hn & _)|[_ H]]; [|done].
    destruct (Hw v). rewrite Hn. unfold pkg_state_want_map in Hin.
    repeat (apply elem_of_cons in Hin as [[= -> ->]|Hin]; [reflexivity|]).
    by apply elem_of_nil in Hin.
  - unfold pkg_state_status_from_str.
    destruct (enum_from_str_loop_spec pkg_state_status_map str SS_NOT_INSTALLED)
      as [(v & n & Hin & Hn & _)|[_ H]]; [|done].
    destruct (Hs v). rewrite Hn. unfold pkg_state_status_map in Hin.
    repeat (apply elem_of_cons in Hin as [[= -> ->]|Hin]; [reflexivity|]).
    by apply elem_of_nil in Hin.
Qed.

Lemma pkg_state_from_str_unknown_witness :
  pkg_state_want_from_str "Install" = SW_UNKNOWN /\
  pkg_state_status_from_str "Install" = SS_NOT_INSTALLED.
Proof.
  apply (pkg_state_from_str_unknown "Install").
  - intros sw. destruct sw; discriminate.
  - intros ss. destruct ss; discriminate.
Defined.

(** ** The two checks of a version against an operator *)

(** [pkg_version_satisfied]: swapping the two versions turns an operator
    into its converse, the strict and the weak ones alike; exactly one of
    [<<], [=] and [>>] holds of a pair; and the old spellings [<] and [>]
    are the weak operators. *)
Theorem pkg_version_satisfied_converse (a b : pkg_t) :
  pkg_version_satisfied a b "<<" = pkg_version_satisfied b a ">>" /\
  pkg_version_satisfied a b "<=" = pkg_version_satisfied b a ">=" /\
  pkg_version_satisfied a b "=" = pkg_version_satisfied b a "=" /\
  (pkg_version_satisfied a b "<<" = negb (pkg_version_satisfied a b ">=")) /\
  (pkg_version_satisfied a b ">>" = negb (pkg_version_satisfied a b "<=")) /\
  (pkg_version_satisfied a b "=" =
   pkg_version_satisfied a b "<=" && pkg_version_satisfied a b ">=") /\
  pkg_version_satisfied a b "<" = pkg_version_satisfied a b "<=" /\
  pkg_version_satisfied a b ">" = pkg_version_satisfied a b ">=".
Proof.
  unfold pkg_version_satisfied.
  change (streq "<<" "<=") with false. change (streq "<<" "<") with false.
  change (streq "<<" ">=") with false. change (streq "<<" ">") with false.
  change (streq "<<" "<<") with true.
  change (streq ">>" "<=") with false. change (streq ">>" "<") with false.
  change (streq ">>" ">=") with false. change (streq ">>" ">") with false.
  change (streq ">>" "<<") with false. change (streq ">>" ">>") with true.
  change (streq "<=" "<=") with true. change (streq ">=" "<=") with false.
  change (streq ">=" "<") with false. change (streq ">=" ">=") with true.
  change (streq "=" "<=") with false. change (streq "=" "<") with false.
  change (streq "=" ">=") with false. change (streq "=" ">") with false.
  change (streq "=" "<<") with false. change (streq "=" ">>") with false.
  change (streq "=" "=") with true.
  change (streq "<" "<=") with false. change (streq "<" "<") with true.
  change (streq ">" "<=") with false. change (streq ">" "<") with false.
  change (streq ">" ">=") with false. change (streq ">" ">") with true.
  cbn [orb]. cbv iota.
  pose proof (pkg_compare_versions_antisym a b) as H.
  destruct (Z.compare_spec (pkg_compare_versions a b) 0) as [E|E|E],
           (Z.compare_spec (pkg_compare_versions b a) 0) as [E'|E'|E']; simpl in H; try done;
    repeat split;
    repeat match goal with
      | |- context [?x <? ?y] => destruct (Z.ltb_spec x y)
      | |- context [?x >? ?y] => destruct (Z.gtb_spec x y)
      | |- context [?x <=? ?y] => destruct (Z.leb_spec x y)
      | |- context [?x >=? ?y] => destruct (Z.geb_spec x y)
      | |- context [?x =? ?y] => destruct (Z.eqb_spec x y)
      end; simpl; try reflexivity; lia.
Qed.

(** [version_constraints_satisfied] agrees with [pkg_version_satisfied]
    read with the weak operators: an atom with [<<] or [<=] is checked as
    [<=], one with [>>] or [>=] as [>=], one with [=] as [=]. *)
Theorem version_constraints_satisfied_weak (c : version_constraint) (vstr : string)
  (ab : abstract_pkg_ptr) (pkg : pkg_t) :
  c <> NONE ->
  version_constraints_satisfied {| constraint := c; version := Some vstr; dep_pkg := ab |} pkg =
  Ok (pkg_version_satisfied pkg (parse_version pkg_new vstr)
        match c with
        | EARLIER | EARLIER_EQUAL => "<="
        | LATER | LATER_EQUAL => ">="
        | _ => "="
        end).
Proof.
  intros Hc.
  rewrite (version_constraints_satisfied_spec
             {| constraint := c; version := Some vstr; dep_pkg := ab |} pkg vstr eq_refl).
  cbn [constraint].
  unfold pkg_version_satisfied. by destruct c.
Qed.

Lemma version_constraints_satisfied_weak_witness :
  version_constraints_satisfied
    {| constraint := EARLIER; version := Some "1.0"%string; dep_pkg := O |} (version_of "1.0") =
  Ok (pkg_version_satisfied (version_of "1.0") (parse_version pkg_new "1.0") "<=").
Proof.
  apply (version_constraints_satisfied_weak EARLIER "1.0" O (version_of "1.0")). discriminate.
Defined.

(** ** Comparisons made of comparisons *)

(** The sign of a comparison function of C, as a [comparison]; [lex_then]
    is the result of the first comparison unless that is Eq. *)
Definition lex_then (c1 c2 : comparison) : comparison :=
  match c1 with
  | Eq => c2
  | c => c
  end.

(** What [qsort] needs of a comparison. *)
Definition good_cmp {A} (f : A -> A -> comparison) : Prop :=
  (forall a b, f b a = CompOpp (f a b)) /\
  (forall a b c, f a b = Lt -> f b c = Lt -> f a c = Lt) /\
  (forall a b c, f a b = Eq -> f a c = f b c).

Lemma good_cmp_lex {A} (f g : A -> A -> comparison) :
  good_cmp f -> good_cmp g -> good_cmp (fun a b => lex_then (f a b) (g a b)).
Proof.
  intros (Hfa & Hft & Hfe) (Hga & Hgt & Hge). split; [|split].
  - intros a b. rewrite Hfa, Hga. by destruct (f a b).
  - intros a b c. unfold lex_then.
    destruct (f a b) eqn:Eab; try done; destruct (f b c) eqn:Ebc; try done.
    + rewrite (Hfe a b c Eab), Ebc. apply Hgt.
    + by rewrite (Hfe a b c Eab), Ebc.
    + assert (f c b = Eq) as Ecb by (by rewrite Hfa, Ebc).
      pose proof (Hfe c b a Ecb) as H. rewrite (Hfa a c), (Hfa a b), Eab in H.
      destruct (f a c); simpl in H; done.
    + by rewrite (Hft a b c Eab Ebc).
  - intros a b c. unfold lex_then. destruct (f a b) eqn:Eab; try done.
    intros Eg. rewrite (Hfe a b c Eab). destruct (f b c); [by apply Hge|done|done].
Qed.

Lemma good_cmp_on {A B} (f : B -> B -> comparison) (proj : A -> B) :
  good_cmp f -> good_cmp (fun a b => f (proj a) (proj b)).
Proof. intros (Ha & Ht & He). split; [|split]; eauto. Qed.

Lemma good_cmp_Z : good_cmp Z.compare.
Proof.
  split; [|split].
  - intros a b. apply Z.compare_antisym.
  - intros a b c. rewrite !Z.compare_lt_iff. lia.
  - intros a b c ->%Z.compare_eq. done.
Qed.

(** A comparison that is not Gt is transitive too. *)
Lemma good_cmp_le_trans {A} (f : A -> A -> comparison) a b c :
  good_cmp f -> f a b <> Gt -> f b c <> Gt -> f a c <> Gt.
Proof.
  intros (Ha & Ht & He) Hab Hbc.
  destruct (f a b) eqn:Eab; try done.
  - by rewrite (He a b c Eab).
  - destruct (f b c) eqn:Ebc; try done.
    + assert (f c b = Eq) as Ecb by (by rewrite Ha, Ebc).
      pose proof (He c b a Ecb) as H. rewrite (Ha a c), (Ha a b), Eab in H.
      destruct (f a c); simpl in H; done.
    + by rewrite (Ht a b c Eab Ebc).
Qed.

(** The characters [strcmp] reads. *)
Fixpoint codes (s : string) : list Z :=
  match s with
  | EmptyString => []
  | String c s' => if code c =? 0 then [] else code c :: codes s'
  end.

Lemma strcmp_codes a b : (strcmp a b ?= 0) = lexcmp (codes a) (codes b).
Proof.
  revert b. induction a as [|c a IH]; intros [|d b]; cbn [strcmp codes deref].
  - done.
  - pose proof (code_range d). destruct (Z.eqb_spec 0 (code d)) as [E|E]; simpl negb; cbv iota.
    + rewrite <- E. done.
    + destruct (Z.eqb_spec (code d) 0); [lia|]. simpl. apply Z.compare_lt_iff. lia.
  - pose proof (code_range c). destruct (Z.eqb_spec (code c) 0) as [E|E]; simpl negb; cbv iota.
    + done.
    + simpl. apply Z.compare_gt_iff. lia.
  - pose proof (code_range c). pose proof (code_range d).
    destruct (Z.eqb_spec (code c) (code d)) as [E|E]; simpl negb; cbv iota.
    + rewrite <- E. destruct (Z.eqb_spec (code c) 0); [done|].
      simpl. by rewrite Z.compare_refl.
    + destruct (Z.eqb_spec (code c) 0) as [Ec|Ec], (Z.eqb_spec (code d) 0) as [Ed|Ed];
        try lia; simpl.
      * apply Z.compare_lt_iff. lia.
      * apply Z.compare_gt_iff. lia.
      * destruct (Z.compare_spec (code c) (code d)); try lia.
        -- apply Z.compare_lt_iff. lia.
        -- apply Z.compare_gt_iff. lia.
Qed.

Lemma good_cmp_lexcmp : good_cmp lexcmp.
Proof.
  split; [|split].
  - intros a b. apply lexcmp_antisym.
  - intros a b c. apply lexcmp_trans.
  - intros a b c ->%lexcmp_eq. done.
Qed.

Lemma good_cmp_strcmp : good_cmp (fun a b => strcmp a b ?= 0).
Proof.
  assert (good_cmp (fun a b => lexcmp (codes a) (codes b))) as (Ha & Ht & He)
    by apply (good_cmp_on lexcmp codes good_cmp_lexcmp).
  split; [|split].
  - intros a b. rewrite !strcmp_codes. apply Ha.
  - intros a b c. rewrite !strcmp_codes. apply Ht.
  - intros a b c. rewrite !strcmp_codes. apply He.
Qed.

Lemma good_cmp_verrevcmp : good_cmp (fun a b => verrevcmp a b ?= 0).
Proof.
  split; [|split].
  - intros a b. apply verrevcmp_antisym.
  - intros a b c. rewrite !Z.compare_lt_iff. apply verrevcmp_trans.
  - intros a b c H%Z.compare_eq. by apply verrevcmp_eq_l.
Qed.

(** ** Comparing packages for sorting (pkg.c) *)

Definition pkg_name_version_and_architecture_compare (a b : pkg_t) : Z :=
  match name a, name b with
  | Some a_name, Some b_name =>
      let namecmp := strcmp a_name b_name in
      if negb (namecmp =? 0) then namecmp
      else
        let vercmp := pkg_compare_versions a b in
        if negb (vercmp =? 0) then vercmp
        else
          let arch_prio1 := pkg_get_int a PKG_ARCH_PRIORITY in
          let arch_prio2 := pkg_get_int b PKG_ARCH_PRIORITY in
          if (arch_prio1 =? 0) || (arch_prio2 =? 0) then 0
          else if arch_prio1 >? arch_prio2 then 1
          else if arch_prio1 <? arch_prio2 then -1
          else 0
  | _, _ => 0
  end.

Definition abstract_pkg_name_compare (a b : abstract_pkg_t) : Z :=
  match ab_name a, ab_name b with
  | Some a_name, Some b_name => strcmp a_name b_name
  | _, _ => 0
  end.

Lemma pkg_compare_versions_sign a b :
  (pkg_compare_versions a b ?= 0) =
  lex_then (to_unsigned (pkg_get_int a PKG_EPOCH) ?= to_unsigned (pkg_get_int b PKG_EPOCH))
    (lex_then (verrevcmp (pkg_get_string a PKG_VERSION) (pkg_get_string b PKG_VERSION) ?= 0)
              (verrevcmp (pkg_get_string a PKG_REVISION) (pkg_get_string b PKG_REVISION) ?= 0)).
Proof.
  unfold pkg_compare_versions.
  set (e1 := to_unsigned _). set (e2 := to_unsigned _).
  destruct (Z.gtb_spec e1 e2).
  { assert ((e1 ?= e2) = Gt) as -> by (apply Z.compare_gt_iff; lia). done. }
  destruct (Z.ltb_spec e1 e2).
  { assert ((e1 ?= e2) = Lt) as -> by (apply Z.compare_lt_iff; lia). done. }
  assert ((e1 ?= e2) = Eq) as -> by (apply Z.compare_eq_iff; lia). simpl.
  generalize (verrevcmp (pkg_get_string a PKG_VERSION) (pkg_get_string b PKG_VERSION)).
  intros r. destruct (Z.eqb_spec r 0) as [->|Hr]; simpl; [done|].
  destruct (Z.compare_spec r 0); [lia|done|done].
Qed.

Lemma good_cmp_pkg_compare_versions : good_cmp (fun a b => pkg_compare_versions a b ?= 0).
Proof.
  pose proof (good_cmp_lex _ _
    (good_cmp_on Z.compare (fun a => to_unsigned (pkg_get_int a PKG_EPOCH)) good_cmp_Z)
    (good_cmp_lex _ _
       (good_cmp_on _ (fun a => pkg_get_string a PKG_VERSION) good_cmp_verrevcmp)
       (good_cmp_on _ (fun a => pkg_get_string a PKG_REVISION) good_cmp_verrevcmp)))
    as (Ha & Ht & He).
  split; [|split].
  - intros a b. rewrite !pkg_compare_versions_sign. apply Ha.
  - intros a b c. rewrite !pkg_compare_versions_sign. apply Ht.
  - intros a b c. rewrite !pkg_compare_versions_sign. apply He.
Qed.

(** The comparison of [pkg_name_version_and_architecture_compare] when no
    name is NULL and no architecture priority 0. *)
Definition name_version_arch_cmp (a b : pkg_t) : comparison :=
  lex_then (strcmp (default EmptyString (name a)) (default EmptyString (name b)) ?= 0)
    (lex_then (pkg_compare_versions a b ?= 0)
              (pkg_get_int a PKG_ARCH_PRIORITY ?= pkg_get_int b PKG_ARCH_PRIORITY)).

Lemma good_cmp_name_version_arch : good_cmp name_version_arch_cmp.
Proof.
  apply good_cmp_lex.
  - apply (good_cmp_on (fun a b => strcmp a b ?= 0)
             (fun a => default EmptyString (name a)) good_cmp_strcmp).
  - apply good_cmp_lex; [apply good_cmp_pkg_compare_versions|].
    apply (good_cmp_on Z.compare (fun a => pkg_get_int a PKG_ARCH_PRIORITY) good_cmp_Z).
Qed.

Lemma pkg_name_version_and_architecture_compare_sign a b :
  name a <> None -> name b <> None ->
  pkg_get_int a PKG_ARCH_PRIORITY <> 0 -> pkg_get_int b PKG_ARCH_PRIORITY <> 0 ->
  (pkg_name_version_and_architecture_compare a b ?= 0) = name_version_arch_cmp a b.
Proof.
  intros Ha Hb Hpa Hpb.
  unfold pkg_name_version_and_architecture_compare, name_version_arch_cmp.
  destruct (name a) as [a_name|]; [|done]. destruct (name b) as [b_name|]; [|done]. simpl.
  generalize (strcmp a_name b_name). intros r.
  destruct (Z.eqb_spec r 0) as [->|Hr]; simpl.
  2: { destruct (Z.compare_spec r 0); [lia|done|done]. }
  generalize (pkg_compare_versions a b). intros v.
  destruct (Z.eqb_spec v 0) as [->|Hv]; simpl.
  2: { destruct (Z.compare_spec v 0); [lia|done|done]. }
  destruct (Z.eqb_spec (pkg_get_int a PKG_ARCH_PRIORITY) 0); [done|].
  destruct (Z.eqb_spec (pkg_get_int b PKG_ARCH_PRIORITY) 0); [done|]. simpl.
  destruct (Z.gtb_spec (pkg_get_int a PKG_ARCH_PRIORITY) (pkg_get_int b PKG_ARCH_PRIORITY)).
  { symmetry. apply Z.compare_gt_iff. lia. }
  destruct (Z.ltb_spec (pkg_get_int a PKG_ARCH_PRIORITY) (pkg_get_int b PKG_ARCH_PRIORITY)).
  { symmetry. apply Z.compare_lt_iff. lia. }
  symmetry. apply Z.compare_eq_iff. lia.
Qed.

(** Both comparison functions given to the sort change sign when their
    arguments are swapped, whatever the records hold. *)
Theorem pkg_compare_swap (a b : pkg_t) (x y : abstract_pkg_t) :
  (pkg_name_version_and_architecture_compare b a ?= 0) =
    CompOpp (pkg_name_version_and_architecture_compare a b ?= 0) /\
  (abstract_pkg_name_compare y x ?= 0) = CompOpp (abstract_pkg_name_compare x y ?= 0).
Proof.
  destruct good_cmp_strcmp as (Hs & _ & _).
  destruct good_cmp_pkg_compare_versions as (Hv & _ & _).
  split.
  - unfold pkg_name_version_and_architecture_compare.
    destruct (name a) as [a_name|], (name b) as [b_name|]; try done.
    specialize (Hs a_name b_name). specialize (Hv a b). revert Hs Hv.
    generalize (strcmp a_name b_name) (strcmp b_name a_name).
    intros r r' Hr.
    generalize (pkg_compare_versions a b) (pkg_compare_versions b a).
    intros v v' Hv.
    destruct (Z.eqb_spec r 0) as [->|Er], (Z.eqb_spec r' 0) as [->|Er']; simpl negb; cbv iota.
    + destruct (Z.eqb_spec v 0) as [->|Ev], (Z.eqb_spec v' 0) as [->|Ev']; simpl negb; cbv iota.
      * destruct (Z.eqb_spec (pkg_get_int a PKG_ARCH_PRIORITY) 0),
          (Z.eqb_spec (pkg_get_int b PKG_ARCH_PRIORITY) 0); simpl; try done.
        destruct (Z.gtb_spec (pkg_get_int a PKG_ARCH_PRIORITY) (pkg_get_int b PKG_ARCH_PRIORITY)),
          (Z.ltb_spec (pkg_get_int a PKG_ARCH_PRIORITY) (pkg_get_int b PKG_ARCH_PRIORITY)),
          (Z.gtb_spec (pkg_get_int b PKG_ARCH_PRIORITY) (pkg_get_int a PKG_ARCH_PRIORITY)),
          (Z.ltb_spec (pkg_get_int b PKG_ARCH_PRIORITY) (pkg_get_int a PKG_ARCH_PRIORITY));
          try lia; done.
      * simpl in Hv. apply Z.compare_eq in Hv. done.
      * rewrite Z.compare_refl in Hv. destruct (Z.compare_spec v 0); simpl in Hv; done.
      * done.
    + simpl in Hr. apply Z.compare_eq in Hr. done.
    + rewrite Z.compare_refl in Hr. destruct (Z.compare_spec r 0); simpl in Hr; done.
    + done.
  - unfold abstract_pkg_name_compare.
    by destruct (ab_name x) as [x_name|], (ab_name y) as [y_name|].
Qed.

(** For records with a name and an architecture priority other than 0 the
    comparison is a total preorder: not-greater is transitive, and two
    records compare equal exactly when they have the same name, versions
    that compare equal and the same priority. *)
Theorem pkg_compare_preorder (a b c : pkg_t) (a_name b_name c_name : string) :
  name a = Some a_name -> name b = Some b_name -> name c = Some c_name ->
  pkg_get_int a PKG_ARCH_PRIORITY <> 0 -> pkg_get_int b PKG_ARCH_PRIORITY <> 0 ->
  pkg_get_int c PKG_ARCH_PRIORITY <> 0 ->
  (pkg_name_version_and_architecture_compare a b <= 0 ->
   pkg_name_version_and_architecture_compare b c <= 0 ->
   pkg_name_version_and_architecture_compare a c <= 0) /\
  (pkg_name_version_and_architecture_compare a b = 0 <->
   c_str a_name = c_str b_name /\ pkg_compare_versions a b = 0 /\
   pkg_get_int a PKG_ARCH_PRIORITY = pkg_get_int b PKG_ARCH_PRIORITY).
Proof.
  intros Ha Hb Hc Hpa Hpb Hpc. split.
  - rewrite <- !Z.compare_le_iff.
    rewrite !pkg_name_version_and_architecture_compare_sign by congruence.
    apply good_cmp_le_trans, good_cmp_name_version_arch.
  - rewrite <- Z.compare_eq_iff.
    rewrite pkg_name_version_and_architecture_compare_sign by congruence.
    unfold name_version_arch_cmp. rewrite Ha, Hb. simpl.
    rewrite <- strcmp_zero_iff, <- !Z.compare_eq_iff.
    destruct (strcmp a_name b_name ?= 0), (pkg_compare_versions a b ?= 0),
      (pkg_get_int a PKG_ARCH_PRIORITY ?= pkg_get_int b PKG_ARCH_PRIORITY); simpl;
      split; try done; intros (? & ? & ?); done.
Qed.

Lemma pkg_compare_preorder_witness :
  let a := mk_pkg "a" 0%nat "1.0" SS_NOT_INSTALLED SW_UNKNOWN [] in
  let b := mk_pkg "a" 0%nat "1.0-1" SS_NOT_INSTALLED SW_UNKNOWN [] in
  let c := mk_pkg "b" 0%nat "0.1" SS_NOT_INSTALLED SW_UNKNOWN [] in
  (pkg_name_version_and_architecture_compare a b <= 0 ->
   pkg_name_version_and_architecture_compare b c <= 0 ->
   pkg_name_version_and_architecture_compare a c <= 0) /\
  (pkg_name_version_and_architecture_compare a b = 0 <->
   c_str "a" = c_str "a" /\ pkg_compare_versions a b = 0 /\
   pkg_get_int a PKG_ARCH_PRIORITY = pkg_get_int b PKG_ARCH_PRIORITY).
Proof.
  apply (pkg_compare_preorder
           (mk_pkg "a" 0%nat "1.0" SS_NOT_INSTALLED SW_UNKNOWN [])
           (mk_pkg "a" 0%nat "1.0-1" SS_NOT_INSTALLED SW_UNKNOWN [])
           (mk_pkg "b" 0%nat "0.1" SS_NOT_INSTALLED SW_UNKNOWN []) "a" "a" "b");
    try reflexivity; vm_compute; discriminate.
Defined.

(** ** Storing strings and integers in the blob (pkg.c) *)

(** Nothing but white space before the end of the string. *)
Definition blank (s : string) : bool := forallb isspace (codes s).

Lemma isspace_not_nul x : isspace x = true -> x <> 0.
Proof. unfold isspace. intros H ->. done. Qed.

Lemma trim_right_empty s : trim_right s = EmptyString <-> blank s = true.
Proof.
  unfold blank. induction s as [|c s IH]; simpl; [done|].
  destruct (Z.eqb_spec (code c) 0) as [E|E]; [done|]. simpl.
  destruct (trim_right s) eqn:Et.
  - destruct (isspace (code c)); simpl; [tauto|done].
  - split; [done|]. intros [_ H]%andb_true_iff. by apply IH in H.
Qed.

Lemma blank_skip_spaces s : blank (skip_spaces s) = blank s.
Proof.
  unfold blank. induction s as [|c s IH]; simpl; [done|].
  destruct (isspace (code c)) eqn:Es; [|done].
  destruct (Z.eqb_spec (code c) 0) as [E|E]; [by apply isspace_not_nul in Es|].
  simpl. by rewrite Es.
Qed.

Lemma trim_empty s : trim s = EmptyString <-> blank s = true.
Proof. unfold trim. by rewrite trim_right_empty, blank_skip_spaces. Qed.

Lemma trim_right_idem s : trim_right (trim_right s) = trim_right s.
Proof.
  induction s as [|c s IH]; simpl; [done|].
  destruct (Z.eqb_spec (code c) 0) as [E|E]; [done|].
  destruct (trim_right s) as [|d t] eqn:Et.
  - destruct (isspace (code c)) eqn:Es; simpl; [done|].
    destruct (Z.eqb_spec (code c) 0); [done|]. by rewrite Es.
  - change (trim_right (String c (String d t))) with
      (if code c =? 0 then EmptyString
       else match trim_right (String d t) with
            | EmptyString => if isspace (code c) then EmptyString else String c EmptyString
            | t0 => String c t0
            end).
    rewrite IH. by destruct (Z.eqb_spec (code c) 0).
Qed.

Lemma trim_right_deref s :
  trim_right s <> EmptyString -> deref (trim_right s) = deref s.
Proof.
  destruct s as [|c s]; simpl; [done|].
  destruct (Z.eqb_spec (code c) 0) as [E|E]; [done|].
  destruct (trim_right s); [|done]. by destruct (isspace (code c)).
Qed.

Lemma skip_spaces_id s : isspace (deref s) = false -> skip_spaces s = s.
Proof. destruct s as [|c s]; simpl; [done|]. by intros ->. Qed.

Lemma skip_spaces_deref s : isspace (deref (skip_spaces s)) = false.
Proof.
  induction s as [|c s IH]; simpl; [done|].
  destruct (isspace (code c)) eqn:Es; [done|]. simpl. done.
Qed.

Lemma trim_idem s : trim (trim s) = trim s.
Proof.
  unfold trim. destruct (trim_right (skip_spaces s)) eqn:Et; [done|].
  rewrite <- Et. rewrite skip_spaces_id.
  - apply trim_right_idem.
  - rewrite trim_right_deref by (by rewrite Et). apply skip_spaces_deref.
Qed.

(** [pkg_set_string] on an attribute the package does not have yet: a NULL
    or blank string changes nothing; any other string is stored without
    the white space around it, and trimming what is stored changes
    nothing; the other attributes are as before. *)
Theorem pkg_set_string_fresh (pkg : pkg_t) (id : pkg_field) (s : string) :
  pkg_get_raw pkg id = None ->
  pkg_set_string pkg id None = pkg /\
  (blank s = true -> pkg_set_string pkg id (Some s) = pkg) /\
  (blank s = false ->
   pkg_get_string (pkg_set_string pkg id (Some s)) id = Some (trim s) /\
   blank (trim s) = false /\ trim (trim s) = trim s) /\
  (forall id', id' <> id ->
     pkg_get_raw (pkg_set_string pkg id (Some s)) id' = pkg_get_raw pkg id').
Proof.
  intros Hfresh.
  assert (pkg_get_string pkg id = None) as Hs by (unfold pkg_get_string; by rewrite Hfresh).
  split; [done|]. split; [|split].
  - intros Hb. apply trim_empty in Hb. unfold pkg_set_string. by rewrite Hb.
  - intros Hb. assert (trim s <> EmptyString) as Hne.
    { intros H. apply trim_empty in H. congruence. }
    split; [|split].
    + unfold pkg_get_string. rewrite pkg_get_raw_set_string, decide_True by done.
      unfold stored_string. by destruct (trim s).
    + destruct (blank (trim s)) eqn:Eb; [|done].
      apply trim_empty in Eb. rewrite trim_idem in Eb. done.
    + apply trim_idem.
  - intros id' Hne. by rewrite pkg_get_raw_set_string, decide_False.
Qed.

Lemma pkg_set_string_fresh_witness :
  pkg_set_string pkg_new PKG_SECTION None = pkg_new /\
  (blank "  net " = true -> pkg_set_string pkg_new PKG_SECTION (Some "  net "%string) = pkg_new) /\
  (blank "  net " = false ->
   pkg_get_string (pkg_set_string pkg_new PKG_SECTION (Some "  net "%string)) PKG_SECTION
     = Some (trim "  net ") /\
   blank (trim "  net ") = false /\ trim (trim "  net ") = trim "  net ") /\
  (forall id', id' <> PKG_SECTION ->
     pkg_get_raw (pkg_set_string pkg_new PKG_SECTION (Some "  net "%string)) id'
     = pkg_get_raw pkg_new id').
Proof. apply (pkg_set_string_fresh pkg_new PKG_SECTION "  net "). reflexivity. Defined.

(** [pkg_set_int] then [pkg_get_int]: the value comes back as an [int],
    unchanged when it is in the range of [int]; the other attributes are as
    before; an attribute that was never set reads 0. *)
Theorem pkg_set_int_get (pkg : pkg_t) (id id' : pkg_field) (val : Z) :
  pkg_get_int (pkg_set_int pkg id val) id = to_int val /\
  (- 2 ^ 31 <= val < 2 ^ 31 -> pkg_get_int (pkg_set_int pkg id val) id = val) /\
  (id' <> id -> pkg_get_raw (pkg_set_int pkg id val) id' = pkg_get_raw pkg id') /\
  (pkg_get_raw pkg id = None -> pkg_get_int pkg id = 0).
Proof.
  assert (pkg_get_int (pkg_set_int pkg id val) id = to_int val) as Hget.
  { unfold pkg_get_int, pkg_set_int. rewrite pkg_get_raw_set, decide_True by done.
    destruct (pkg_get_raw pkg id) as [[| | | | |]|]; simpl; apply to_int_idem. }
  split; [done|]. split; [|split].
  - intros Hr. rewrite Hget. unfold to_int. rewrite Z.mod_small; lia.
  - intros Hne. unfold pkg_set_int. by rewrite pkg_get_raw_set, decide_False.
  - intros Hn. unfold pkg_get_int. by rewrite Hn.
Qed.

(** ** The version as text (pkg.c) *)

Notation "a +++ b" := (String.append a b) (at level 60, right associativity).

(** The decimal digits [printf] writes for a number that is not negative,
    the last digit first put in front of [acc]. *)
Definition digit_char (d : Z) : ascii := ascii_of_N (Z.to_N (48 + d)).

Fixpoint print_digits (fuel : nat) (n : Z) (acc : string) : string :=
  match fuel with
  | O => acc
  | S fuel' =>
      let acc := String (digit_char (n mod 10)) acc in
      if n <? 10 then acc else print_digits fuel' (n / 10) acc
  end.

(** [%lu] and [%d] *)
Definition print_uint (n : Z) : string := print_digits (S (Z.to_nat (Z.log2 n))) n EmptyString.

Definition print_int (z : Z) : string :=
  if z <? 0 then String "-" (print_uint (- z)) else print_uint z.

Section VersionStr.

(** [xstrdup] (libbb): a copy of the string. *)
Variable xstrdup : option string -> option string.

(** [pkg_version_str_alloc]: [epoch:version-revision], without the epoch
    when it is 0 and without the revision when there is none.  [%s] must
    not be given NULL. *)
Definition pkg_version_str_alloc (pkg : pkg_t) : res (option string) :=
  let epoch := to_unsigned (pkg_get_int pkg PKG_EPOCH) in
  let revptr := pkg_get_string pkg PKG_REVISION in
  let verstr := pkg_get_string pkg PKG_VERSION in
  if negb (epoch =? 0) then
    match revptr with
    | Some revptr =>
        verstr ← nonnull verstr;
        Ok (Some (print_int (to_int epoch) +++ ":" +++ c_str verstr +++ "-" +++ c_str revptr))
    | None =>
        verstr ← nonnull verstr;
        Ok (Some (print_int (to_int epoch) +++ ":" +++ c_str verstr))
    end
  else
    match revptr with
    | Some revptr =>
        verstr ← nonnull verstr;
        Ok (Some (c_str verstr +++ "-" +++ c_str revptr))
    | None => Ok (xstrdup verstr)
    end.

End VersionStr.

Example pkg_version_str_alloc_full :
  pkg_version_str_alloc (fun s => s) (version_of "1:2.0-1") = Ok (Some "1:2.0-1"%string).
Proof. reflexivity. Qed.

Example print_int_examples :
  print_int 0 = "0"%string /\ print_int 4096 = "4096"%string /\ print_int (-17) = "-17"%string.
Proof. repeat split. Qed.

(** Every character of the string satisfies [p]. *)
Fixpoint all_chars (p : Z -> bool) (s : string) : bool :=
  match s with
  | EmptyString => true
  | String c s' => p (code c) && all_chars p s'
  end.

Lemma code_digit_char d : 0 <= d < 10 -> code (digit_char d) = 48 + d.
Proof.
  intros Hd. unfold code, digit_char. rewrite N_ascii_embedding; lia.
Qed.

Lemma all_chars_app p a b : all_chars p (a +++ b) = all_chars p a && all_chars p b.
Proof. induction a as [|c a IH]; simpl; [done|]. by rewrite IH, andb_assoc. Qed.

Lemma all_chars_impl (p q : Z -> bool) s :
  (forall x, p x = true -> q x = true) -> all_chars p s = true -> all_chars q s = true.
Proof.
  intros Hpq. induction s as [|c s IH]; simpl; [done|].
  intros [H1 H2]%andb_true_iff. by rewrite (Hpq _ H1), IH.
Qed.

Lemma str_app_assoc a b c : (a +++ b) +++ c = a +++ b +++ c.
Proof. induction a as [|x a IH]; simpl; [done|]. by rewrite IH. Qed.

Lemma print_digits_app fuel n acc :
  print_digits fuel n acc = print_digits fuel n EmptyString +++ acc.
Proof.
  revert n acc. induction fuel as [|fuel IH]; intros n acc; simpl; [done|].
  destruct (n <? 10); [done|].
  rewrite (IH _ (String _ acc)), (IH _ (String _ EmptyString)).
  by rewrite str_app_assoc.
Qed.

Lemma print_digits_all_digits fuel n acc :
  0 <= n -> all_chars isdigit acc = true -> all_chars isdigit (print_digits fuel n acc) = true.
Proof.
  revert n acc. induction fuel as [|fuel IH]; intros n acc Hn Hacc; simpl; [done|].
  assert (all_chars isdigit (String (digit_char (n mod 10)) acc) = true) as H.
  { simpl. rewrite Hacc, code_digit_char by (apply Z.mod_pos_bound; lia).
    pose proof (Z.mod_pos_bound n 10 ltac:(lia)). unfold isdigit. lia. }
  destruct (n <? 10); [done|]. apply IH; [|done]. apply Z.div_pos; lia.
Qed.

Lemma print_digits_deref fuel n acc :
  0 <= n -> isdigit (deref (print_digits (S fuel) n acc)) = true.
Proof.
  intros Hn.
  pose proof (print_digits_all_digits (S fuel) n EmptyString Hn eq_refl) as H.
  rewrite print_digits_app. revert H.
  assert (print_digits (S fuel) n EmptyString <> EmptyString) as Hne.
  { simpl. destruct (n <? 10); [done|]. rewrite print_digits_app.
    by destruct (print_digits fuel (n / 10) EmptyString). }
  destruct (print_digits (S fuel) n EmptyString); [done|]. simpl.
  by intros [H _]%andb_true_iff.
Qed.

Lemma print_digits_S fuel n acc :
  print_digits (S fuel) n acc =
  if n <? 10 then String (digit_char (n mod 10)) acc
  else print_digits fuel (n / 10) (String (digit_char (n mod 10)) acc).
Proof. reflexivity. Qed.

(** Reading back what was printed. *)
Lemma strtoul_digits_print fuel n acc :
  0 <= n < 10 ^ Z.of_nat (S fuel) ->
  exists k, forall a,
    strtoul_digits a (print_digits (S fuel) n acc) = strtoul_digits (a * 10 ^ k + n) acc /\ 0 <= k.
Proof.
  revert n acc. induction fuel as [|fuel IH]; intros n acc Hn.
  - exists 1. intros a. split; [|lia]. change (10 ^ Z.of_nat 1) with 10 in Hn.
    cbn [print_digits]. destruct (Z.ltb_spec n 10); [|lia].
    cbn [strtoul_digits]. rewrite Z.mod_small by lia.
    rewrite code_digit_char by lia.
    assert (isdigit (48 + n) = true) as -> by (unfold isdigit; lia).
    f_equal. lia.
  - rewrite print_digits_S. destruct (Z.ltb_spec n 10) as [Hlt|Hge].
    + exists 1. intros a. split; [|lia]. cbn [strtoul_digits]. rewrite Z.mod_small by lia.
      rewrite code_digit_char by lia.
      assert (isdigit (48 + n) = true) as -> by (unfold isdigit; lia).
      f_equal. lia.
    + destruct (IH (n / 10) (String (digit_char (n mod 10)) acc)) as [k Hk].
      { split; [apply Z.div_pos; lia|].
        apply Z.div_lt_upper_bound; [lia|].
        replace (Z.of_nat (S (S fuel))) with (Z.succ (Z.of_nat (S fuel))) in Hn by lia.
        rewrite Z.pow_succ_r in Hn by lia. lia. }
      exists (k + 1). intros a. destruct (Hk a) as [-> Hk0]. split; [|lia].
      cbn [strtoul_digits]. pose proof (Z.mod_pos_bound n 10 ltac:(lia)).
      rewrite code_digit_char by lia.
      assert (isdigit (48 + n mod 10) = true) as -> by (unfold isdigit; lia).
      f_equal. rewrite Z.pow_add_r by lia.
      pose proof (Z.div_mod n 10 ltac:(lia)). lia.
Qed.

Lemma print_uint_fuel n : 0 <= n -> n < 10 ^ Z.of_nat (S (Z.to_nat (Z.log2 n))).
Proof.
  intros Hn. destruct (Z.eq_dec n 0) as [->|Hne]; [done|].
  pose proof (Z.log2_nonneg n).
  pose proof (Z.log2_spec n ltac:(lia)) as [_ Hup].
  replace (Z.of_nat (S (Z.to_nat (Z.log2 n)))) with (Z.succ (Z.log2 n)) by lia.
  eapply Z.lt_le_trans; [exact Hup|].
  apply Z.pow_le_mono_l. lia.
Qed.

Lemma strtoul_digits_print_uint n rest :
  0 <= n -> isdigit (deref rest) = false ->
  strtoul_digits 0 (print_uint n +++ rest) = n.
Proof.
  intros Hn Hrest. unfold print_uint. rewrite <- print_digits_app.
  destruct (strtoul_digits_print (Z.to_nat (Z.log2 n)) n rest) as [k Hk].
  { split; [done|]. by apply print_uint_fuel. }
  destruct (Hk 0) as [-> _]. simpl.
  destruct rest as [|c rest]; simpl in *; [done|]. by rewrite Hrest.
Qed.

Lemma print_uint_deref n rest : 0 <= n -> isdigit (deref (print_uint n +++ rest)) = true.
Proof. intros Hn. unfold print_uint. rewrite <- print_digits_app. by apply print_digits_deref. Qed.

Lemma isdigit_facts x :
  isdigit x = true -> isspace x = false /\ x <> 45 /\ x <> 43 /\ x <> 58 /\ x <> 0 /\ x <> 86.
Proof. unfold isdigit, isspace. intros H. repeat split; lia. Qed.

Lemma strtoul_print_int e rest :
  e <> 0 -> - 2 ^ 31 <= e < 2 ^ 31 -> isdigit (deref rest) = false ->
  to_int (strtoul (print_int e +++ rest)) = e.
Proof.
  intros Hne Hr Hrest. unfold strtoul, print_int.
  destruct (Z.ltb_spec e 0) as [Hneg|Hpos].
  - cbn [String.append skip_spaces]. change (isspace (code "-")) with false. cbv iota.
    cbn [deref]. change (code "-" =? 45) with true. cbn [orb advance]. cbv iota.
    rewrite strtoul_digits_print_uint by (done || lia).
    unfold ULONG_MAX. destruct (Z.gtb_spec (- e) (2 ^ 32 - 1)); [lia|].
    replace (- - e) with e by lia. replace (2 ^ 32 - 1 + 1) with (2 ^ 32) by lia.
    unfold to_int. rewrite Zplus_mod_idemp_l.
    replace (e + 2 ^ 31) with (e + 2 ^ 31 + 0) by lia.
    rewrite Z.mod_small; lia.
  - pose proof (print_uint_deref e rest ltac:(lia)) as Hd.
    apply isdigit_facts in Hd as (Hs & H45 & H43 & _).
    rewrite skip_spaces_id by done.
    destruct (Z.eqb_spec (deref (print_uint e +++ rest)) 45); [done|].
    destruct (Z.eqb_spec (deref (print_uint e +++ rest)) 43); [done|].
    cbn [orb]. cbv iota.
    rewrite strtoul_digits_print_uint by (done || lia).
    unfold ULONG_MAX. destruct (Z.gtb_spec e (2 ^ 32 - 1)); [lia|].
    unfold to_int. rewrite Z.mod_small; lia.
Qed.

Lemma print_uint_all_digits n : 0 <= n -> all_chars isdigit (print_uint n) = true.
Proof. intros Hn. unfold print_uint. by apply print_digits_all_digits. Qed.

Lemma print_int_chars e :
  all_chars (fun x => isdigit x || (x =? 45)) (print_int e) = true.
Proof.
  unfold print_int. destruct (Z.ltb_spec e 0); cbn [all_chars].
  - change (isdigit (code "-") || (code "-" =? 45)) with true. cbn [andb].
    eapply all_chars_impl; [|apply print_uint_all_digits; lia].
    by intros x ->.
  - eapply all_chars_impl; [|apply print_uint_all_digits; lia].
    by intros x ->.
Qed.

Lemma print_int_deref e rest :
  isdigit (deref (print_int e +++ rest)) = true \/ deref (print_int e +++ rest) = 45.
Proof.
  unfold print_int. destruct (Z.ltb_spec e 0); [by right|].
  left. apply print_uint_deref. lia.
Qed.

(** *** Searching in a string made of two *)

Lemma c_str_trim_right s : c_str (trim_right s) = trim_right s.
Proof.
  induction s as [|c s IH]; simpl; [done|].
  destruct (Z.eqb_spec (code c) 0) as [E|E]; [done|].
  destruct (trim_right s) eqn:Et.
  - destruct (isspace (code c)); simpl; [done|]. by destruct (Z.eqb_spec (code c) 0).
  - cbn [c_str]. destruct (Z.eqb_spec (code c) 0); [done|]. cbn [c_str] in IH. by rewrite IH.
Qed.

Lemma c_str_trimmed s : trim s = s -> c_str s = s.
Proof. intros H. rewrite <- H. apply c_str_trim_right. Qed.

Lemma trimmed_deref s : trim s = s -> s <> EmptyString -> isspace (deref s) = false.
Proof.
  intros H Hne. rewrite <- H. unfold trim.
  rewrite trim_right_deref; [apply skip_spaces_deref|]. fold (trim s). by rewrite H.
Qed.

Lemma strchr_app a b c :
  c_str a = a -> strchr a c = None -> strchr (a +++ b) c = strchr b c.
Proof.
  induction a as [|x a IH]; simpl; [done|].
  destruct (Z.eqb_spec (code x) 0); [done|].
  destruct (Z.eqb_spec (code x) c); [done|]. intros [= H]. auto.
Qed.

Lemma strchr_chars a b c :
  all_chars (fun x => negb (x =? 0) && negb (x =? c)) a = true ->
  strchr (a +++ b) c = strchr b c.
Proof.
  induction a as [|x a IH]; simpl; [done|].
  intros [[H0 Hc]%andb_true_iff Ha]%andb_true_iff.
  apply negb_true_iff in H0, Hc. rewrite H0, Hc. auto.
Qed.

Lemma split_last_none s c : strchr s c = None -> split_last s c = None.
Proof.
  induction s as [|x s IH]; simpl; [done|].
  destruct (Z.eqb_spec (code x) 0); [done|].
  destruct (Z.eqb_spec (code x) c); [done|]. intros H. by rewrite IH.
Qed.

Lemma split_last_app v x r :
  c_str v = v -> code x <> 0 -> strchr r (code x) = None ->
  split_last (v +++ String x r) (code x) = Some (v, r).
Proof.
  intros Hv Hx Hr. induction v as [|y v IH]; simpl.
  - destruct (Z.eqb_spec (code x) 0); [done|]. rewrite split_last_none by done.
    by rewrite Z.eqb_refl.
  - simpl in Hv. destruct (Z.eqb_spec (code y) 0); [done|].
    injection Hv as Hv. by rewrite IH.
Qed.

Lemma has_prefix_strchr s p c :
  has_prefix s p = true -> strchr p c <> None -> strchr s c <> None.
Proof.
  revert s. induction p as [|x p IH]; intros s; [done|].
  destruct s as [|y s]; cbn [has_prefix strchr];
    destruct (Z.eqb_spec (code x) 0) as [E|E]; try done.
  intros [Hy Hp]%andb_true_iff.
  apply Z.eqb_eq in Hy. cbn [strchr]. rewrite Hy.
  destruct (Z.eqb_spec (code x) 0); [done|].
  destruct (Z.eqb_spec (code x) c); [done|]. by apply IH.
Qed.

Lemma pkg_get_string_set_string pkg id s id' :
  pkg_get_string pkg id = None ->
  pkg_get_string (pkg_set_string pkg id s) id' =
  if decide (id' = id) then stored_string s else pkg_get_string pkg id'.
Proof.
  intros Hnone. unfold pkg_get_string at 1. rewrite pkg_get_raw_set_string by done.
  destruct (decide (id' = id)) as [->|Hne]; [|done].
  destruct (stored_string s); [done|]. exact Hnone.
Qed.

Lemma pkg_get_int_range pkg id : - 2 ^ 31 <= pkg_get_int pkg id < 2 ^ 31.
Proof.
  unfold pkg_get_int. destruct (pkg_get_raw pkg id) as [[| i | | | |]|]; try lia.
  unfold to_int. pose proof (Z.mod_pos_bound (i + 2 ^ 31) (2 ^ 32) ltac:(lia)). lia.
Qed.

Lemma to_int_to_unsigned x : - 2 ^ 31 <= x < 2 ^ 31 -> to_int (to_unsigned x) = x.
Proof.
  intros Hx. unfold to_int, to_unsigned. rewrite Zplus_mod_idemp_l.
  rewrite Z.mod_small; lia.
Qed.

Lemma to_unsigned_zero x : - 2 ^ 31 <= x < 2 ^ 31 -> to_unsigned x = 0 <-> x = 0.
Proof.
  intros Hx. unfold to_unsigned. split; [|by intros ->].
  intros H. pose proof (Z.div_mod x (2 ^ 32) ltac:(lia)) as Hd. rewrite H in Hd. lia.
Qed.

Lemma str_app_nil_r s : s +++ EmptyString = s.
Proof. induction s as [|c s IH]; simpl; [done|]. by rewrite IH. Qed.

Lemma deref_app a b : a <> EmptyString -> deref (a +++ b) = deref a.
Proof. by destruct a. Qed.

(** The text of a version: the epoch unless it is 0, the version, the
    revision if there is one. *)
Definition version_text (e : Z) (V : string) (R : option string) : string :=
  (if e =? 0 then EmptyString else print_int e +++ ":")
  +++ V +++ match R with Some r => String "-" r | None => EmptyString end.

(** The attributes [parse_version] stores for such a text. *)
Definition version_attrs (e : Z) (V : string) (R : option string) : pkg_t :=
  let pkg := if e =? 0 then pkg_new else pkg_set_raw pkg_new PKG_EPOCH (BInt e) in
  match R with
  | Some r => pkg_set_string (pkg_set_string pkg PKG_REVISION (Some r)) PKG_VERSION (Some V)
  | None => pkg_set_string pkg PKG_VERSION (Some V)
  end.

(** The conditions under which the text is read back: the strings are as
    [pkg_set_string] stores them, the last dash of the text is the one in
    front of the revision, and a text without epoch has no colon. *)
Definition version_readable (e : Z) (V : string) (R : option string) : Prop :=
  trim V = V /\ V <> EmptyString /\
  match R with
  | Some r => trim r = r /\ r <> EmptyString /\ strchr r 45 = None /\
              (e = 0 -> strchr r 58 = None)
  | None => strchr V 45 = None
  end /\
  (e = 0 -> strchr V 58 = None).

Lemma parse_version_text e V R line :
  version_readable e V R -> - 2 ^ 31 <= e < 2 ^ 31 ->
  line = version_text e V R \/ line = "Version: " +++ version_text e V R ->
  parse_version pkg_new line = version_attrs e V R.
Proof.
  intros (HtV & HV & HR & HVc) He Hline.
  set (rest := V +++ match R with Some r => String "-" r | None => EmptyString end).
  assert (c_str V = V) as HcV by (by apply c_str_trimmed).
  assert (isspace (deref rest) = false) as Hrest_space.
  { unfold rest. rewrite deref_app by done. by apply trimmed_deref. }
  assert (split_last rest 45 = match R with Some r => Some (V, r) | None => None end) as Hsplit.
  { unfold rest. destruct R as [r|].
    - destruct HR as (_ & _ & Hr & _). by apply (split_last_app V "-" r).
    - rewrite str_app_nil_r. by apply split_last_none. }
  assert (e = 0 -> strchr rest 58 = None) as Hrest_colon.
  { intros E. unfold rest. rewrite strchr_app by auto. destruct R as [r|]; [|done].
    destruct HR as (_ & _ & _ & Hr). cbn [strchr]. change (code "-" =? 0) with false.
    change (code "-" =? 58) with false. cbv iota. auto. }
  assert (match R with
          | Some r => pkg_set_string (pkg_set_string (if e =? 0 then pkg_new
                         else pkg_set_raw pkg_new PKG_EPOCH (BInt e)) PKG_REVISION (Some r))
                        PKG_VERSION (Some V)
          | None => pkg_set_string (if e =? 0 then pkg_new
                        else pkg_set_raw pkg_new PKG_EPOCH (BInt e)) PKG_VERSION (Some V)
          end = version_attrs e V R) as Hstore.
  { done. }
  assert (isspace (deref (version_text e V R)) = false /\
          has_prefix (version_text e V R) "Version:" = false /\
          match strchr (version_text e V R) 58 with
          | Some colon =>
              (pkg_set_int pkg_new PKG_EPOCH (strtoul (version_text e V R)), advance colon)
          | None => (pkg_new, version_text e V R)
          end = (if e =? 0 then pkg_new else pkg_set_raw pkg_new PKG_EPOCH (BInt e), rest))
    as (Hspace & Hprefix & Hcolon).
  { unfold version_text. fold rest. destruct (Z.eqb_spec e 0) as [E|E].
    - cbn [String.append]. split; [done|]. split.
      + destruct (has_prefix rest "Version:") eqn:Hp; [|done].
        apply (has_prefix_strchr _ _ 58) in Hp; [|done]. by rewrite Hrest_colon in Hp.
      + by rewrite Hrest_colon.
    - rewrite str_app_assoc. cbn [String.append].
      pose proof (print_int_deref e (String ":" rest)) as Hd.
      assert (isspace (deref (print_int e +++ String ":" rest)) = false /\
              deref (print_int e +++ String ":" rest) <> 86) as [Hs H86].
      { destruct Hd as [Hd|Hd]; [apply isdigit_facts in Hd; tauto|]. by rewrite Hd. }
      split; [done|]. split.
      + destruct (print_int e +++ String ":" rest) as [|c s]; [done|].
        cbn [has_prefix deref] in *. change (code "V" =? 0) with false. cbv iota.
        change (code "V") with 86. by destruct (Z.eqb_spec (code c) 86).
      + rewrite strchr_chars.
        2: { eapply all_chars_impl; [|apply print_int_chars].
             intros x Hx. unfold isdigit in Hx. lia. }
        cbn [strchr]. change (code ":" =? 0) with false. change (code ":" =? 58) with true.
        cbv iota. cbn [advance]. unfold pkg_set_int.
        by rewrite strtoul_print_int. }
  unfold parse_version. destruct Hline as [->| ->].
  - rewrite Hprefix, skip_spaces_id by done. rewrite Hcolon, Hsplit.
    destruct R; [exact Hstore|]. subst rest. rewrite str_app_nil_r. exact Hstore.
  - change (has_prefix ("Version: " +++ version_text e V R) "Version:") with true. cbv iota.
    change (skipn_str 8 ("Version: " +++ version_text e V R))
      with (String " " (version_text e V R)).
    change (skip_spaces (String " " (version_text e V R)))
      with (skip_spaces (version_text e V R)).
    rewrite skip_spaces_id by done. rewrite Hcolon, Hsplit.
    destruct R; [exact Hstore|]. subst rest. rewrite str_app_nil_r. exact Hstore.
Qed.

Lemma stored_string_trimmed s :
  trim s = s -> s <> EmptyString -> stored_string (Some s) = Some s.
Proof. intros Ht Hne. unfold stored_string. rewrite Ht. by destruct s. Qed.

Lemma version_attrs_get e V R :
  version_readable e V R -> - 2 ^ 31 <= e < 2 ^ 31 ->
  pkg_get_int (version_attrs e V R) PKG_EPOCH = e /\
  pkg_get_string (version_attrs e V R) PKG_VERSION = Some V /\
  pkg_get_string (version_attrs e V R) PKG_REVISION = R.
Proof.
  intros (HtV & HV & HR & _) He.
  assert (to_int e = e) as Hte by (unfold to_int; rewrite Z.mod_small; lia).
  pose proof (stored_string_trimmed V HtV HV) as HsV.
  set (pkg := if e =? 0 then pkg_new else pkg_set_raw pkg_new PKG_EPOCH (BInt e)).
  assert (pkg_get_string pkg PKG_VERSION = None /\ pkg_get_string pkg PKG_REVISION = None /\
          pkg_get_int pkg PKG_EPOCH = e) as (HnV & HnR & Hep).
  { unfold pkg. destruct (Z.eqb_spec e 0) as [->|E]; [done|].
    split; [done|]. split; [done|]. unfold pkg_get_int. cbn. exact Hte. }
  unfold version_attrs. fold pkg. destruct R as [r|].
  - destruct HR as (Htr & Hr & _). pose proof (stored_string_trimmed r Htr Hr) as Hsr.
    assert (pkg_get_string (pkg_set_string pkg PKG_REVISION (Some r)) PKG_VERSION = None)
      as HnV' by (by rewrite pkg_get_string_set_string, decide_False).
    split; [|split].
    + unfold pkg_get_int. rewrite !pkg_get_raw_set_string by done. by decide_fields.
    + by rewrite pkg_get_string_set_string, decide_True.
    + rewrite pkg_get_string_set_string, decide_False by done.
      by rewrite pkg_get_string_set_string, decide_True.
  - split; [|split].
    + unfold pkg_get_int. rewrite !pkg_get_raw_set_string by done. by decide_fields.
    + by rewrite pkg_get_string_set_string, decide_True.
    + by rewrite pkg_get_string_set_string, decide_False.
Qed.

(** The text [pkg_version_str_alloc] makes of a version is read back by
    [parse_version], alone or as the [Version:] line of a control file:
    the epoch, the version and the revision are those of the package, and
    the package read compares equal to it.  The version and the revision
    must be as [pkg_set_string] stores them, the revision without a dash
    (the version too when there is no revision), and without epoch
    neither may hold a colon. *)
Theorem version_str_round_trip (xstrdup : option string -> option string)
  (pkg : pkg_t) (V : string) :
  (forall s, xstrdup (Some s) = Some (c_str s)) ->
  pkg_get_string pkg PKG_VERSION = Some V ->
  version_readable (pkg_get_int pkg PKG_EPOCH) V (pkg_get_string pkg PKG_REVISION) ->
  exists str,
    pkg_version_str_alloc xstrdup pkg = Ok (Some str) /\
    forall line, line = str \/ line = "Version: " +++ str ->
      pkg_get_int (parse_version pkg_new line) PKG_EPOCH = pkg_get_int pkg PKG_EPOCH /\
      pkg_get_string (parse_version pkg_new line) PKG_VERSION = Some V /\
      pkg_get_string (parse_version pkg_new line) PKG_REVISION
        = pkg_get_string pkg PKG_REVISION /\
      pkg_compare_versions (parse_version pkg_new line) pkg = 0.
Proof.
  intros Hdup HV Hread.
  pose proof (pkg_get_int_range pkg PKG_EPOCH) as He.
  exists (version_text (pkg_get_int pkg PKG_EPOCH) V (pkg_get_string pkg PKG_REVISION)).
  split.
  - destruct Hread as (HtV & _ & HR & _). unfold pkg_version_str_alloc, version_text.
    rewrite HV, to_int_to_unsigned by done.
    pose proof (to_unsigned_zero _ He) as Hz.
    destruct (Z.eqb_spec (to_unsigned (pkg_get_int pkg PKG_EPOCH)) 0) as [E|E],
             (Z.eqb_spec (pkg_get_int pkg PKG_EPOCH) 0) as [E'|E']; try tauto;
      destruct (pkg_get_string pkg PKG_REVISION) as [r|]; cbn [negb nonnull mbind res_bind];
      try (destruct HR as (Htr & _); rewrite (c_str_trimmed r Htr));
      rewrite ?Hdup, ?(c_str_trimmed V HtV), ?str_app_assoc, ?str_app_nil_r; reflexivity.
  - intros line Hline.
    rewrite (parse_version_text _ V _ line Hread He Hline).
    destruct (version_attrs_get (pkg_get_int pkg PKG_EPOCH) V
                (pkg_get_string pkg PKG_REVISION) Hread He) as (H1 & H2 & H3).
    split; [done|]. split; [done|]. split; [done|].
    unfold pkg_compare_versions. rewrite H1, H2, H3, HV, !verrevcmp_refl.
    destruct (Z.gtb_spec (to_unsigned (pkg_get_int pkg PKG_EPOCH))
                (to_unsigned (pkg_get_int pkg PKG_EPOCH))); [lia|].
    destruct (Z.ltb_spec (to_unsigned (pkg_get_int pkg PKG_EPOCH))
                (to_unsigned (pkg_get_int pkg PKG_EPOCH))); [lia|]. done.
Qed.

Lemma version_str_round_trip_witness :
  exists str,
    pkg_version_str_alloc (fun s => c_str <$> s) (version_of "2:1.4.1-r3") = Ok (Some str) /\
    forall line, line = str \/ line = "Version: " +++ str ->
      pkg_get_int (parse_version pkg_new line) PKG_EPOCH
        = pkg_get_int (version_of "2:1.4.1-r3") PKG_EPOCH /\
      pkg_get_string (parse_version pkg_new line) PKG_VERSION = Some "1.4.1"%string /\
      pkg_get_string (parse_version pkg_new line) PKG_REVISION
        = pkg_get_string (version_of "2:1.4.1-r3") PKG_REVISION /\
      pkg_compare_versions (parse_version pkg_new line) (version_of "2:1.4.1-r3") = 0.
Proof.
  apply (version_str_round_trip (fun s => c_str <$> s) (version_of "2:1.4.1-r3") "1.4.1").
  - reflexivity.
  - reflexivity.
  - vm_compute. repeat split; discriminate.
Defined.

(** ** What a run of the resolver leaves behind *)

(** If the run ends without a fault, its result satisfies [P]. *)
Definition yields {A} (m : fres A) (P : A -> Prop) : Prop :=
  forall a, m = Some (Ok a) -> P a.

Lemma yields_fret {A} (a : A) (P : A -> Prop) : P a -> yields (fret a) P.
Proof. intros H a' [= <-]. done. Qed.

Lemma yields_lift_any {A} (m : res A) : yields (lift m) (fun _ => True).
Proof. done. Qed.

Lemma yields_lift {A} (m : res A) (P : A -> Prop) :
  (forall a, m = Ok a -> P a) -> yields (lift m) P.
Proof. intros H a [= ->]. by apply H. Qed.

Lemma yields_bind {A B} (m : fres A) (k : A -> fres B) (P : A -> Prop) (Q : B -> Prop) :
  yields m P -> (forall a, P a -> yields (k a) Q) -> yields (fbind m k) Q.
Proof.
  intros Hm Hk b. destruct m as [[a|]|]; simpl; try done. intros Hb.
  by eapply Hk; [apply Hm|].
Qed.

Lemma yields_fold {A S} (f : A -> S -> fres S) (I : S -> Prop) l :
  (forall a s, I s -> yields (f a s) I) ->
  forall s, I s -> yields (fold_fres f l s) I.
Proof.
  intros Hf. induction l as [|a l IH]; intros s Hs; simpl.
  - by apply yields_fret.
  - eapply yields_bind; [by apply Hf|]. intros s' Hs'. by apply IH.
Qed.

(** An abstract package is as it was, or was unmarked and is now
    marked. *)
Definition same_or_marked (a a' : abstract_pkg_t) : Prop :=
  a' = a \/ (dependencies_checked a = false /\ a' = mark_checked a).

(** The second hash is the first but for marks that were set. *)
Definition only_marks (h h' : hash_t) : Prop :=
  packages h' = packages h /\ Forall2 same_or_marked (abstracts h) (abstracts h').

Lemma same_or_marked_refl a : same_or_marked a a.
Proof. by left. Qed.

Lemma same_or_marked_trans a b c :
  same_or_marked a b -> same_or_marked b c -> same_or_marked a c.
Proof.
  intros [->|[Ha ->]] [->|[Hb ->]]; try (by left); try (by right).
Qed.

Lemma only_marks_refl h : only_marks h h.
Proof. split; [done|]. apply Forall2_same_length_lookup. split; [done|].
  intros i a a' H1 H2. rewrite H1 in H2. injection H2 as <-. by left. Qed.

Lemma only_marks_trans h1 h2 h3 : only_marks h1 h2 -> only_marks h2 h3 -> only_marks h1 h3.
Proof.
  intros [Hp12 Ha12] [Hp23 Ha23]. split; [congruence|].
  revert Ha23. generalize (abstracts h3). induction Ha12 as [|a b l1 l2 Hab _ IH];
    intros l3 H23; inversion H23; subst; constructor.
  - by eapply same_or_marked_trans.
  - by apply IH.
Qed.

Lemma only_marks_set h ab : only_marks h (set_dependencies_checked h ab).
Proof.
  split; [done|]. simpl. generalize (abstracts h). revert ab.
  induction ab as [|ab IH]; intros [|a l]; simpl; try constructor.
  - destruct (dependencies_checked a) eqn:E; [left|by right].
    destruct a; simpl in *. by subst.
  - apply Forall2_same_length_lookup. split; [done|].
    intros i x y H1 H2. rewrite H1 in H2. injection H2 as <-. by left.
  - by left.
  - apply IH.
Qed.

Lemma only_marks_get_pkg h h' pkg : only_marks h h' -> get_pkg h' pkg = get_pkg h pkg.
Proof. intros [Hp _]. unfold get_pkg. by rewrite Hp. Qed.

Lemma only_marks_get_abstract h h' ab a :
  only_marks h h' -> get_abstract h ab = Ok a ->
  exists a', get_abstract h' ab = Ok a' /\ same_or_marked a a'.
Proof.
  intros [_ Ha]. unfold get_abstract, abstract_pkg_ptr in *.
  destruct (abstracts h !! ab) as [x|] eqn:E; [|done].
  intros [= ->]. destruct (Forall2_lookup_l _ _ _ _ _ Ha E) as (a' & Hl & Hr).
  exists a'. by rewrite Hl.
Qed.

(** What a call leaves: the hash but for marks, the vector it was given
    with packages added at its end, and the length of that vector as
    return value, or 0. *)
Definition resolver_post (h : hash_t) (unsatisfied : list pkg_ptr) (r : resolved_t) : Prop :=
  let '(rc, the_lost, unsatisfied', h') := r in
  only_marks h h' /\ unsatisfied `prefix_of` unsatisfied' /\
  (rc = 0 \/ rc = Z.of_nat (length unsatisfied')).

Definition resolver_inv (self : resolver_t) : Prop :=
  forall h pkg unsatisfied, yields (self h pkg unsatisfied) (resolver_post h unsatisfied).

(** The same for the loops, whose state is the vector and the hash. *)
Definition grows (st st' : list pkg_ptr * hash_t) : Prop :=
  only_marks st.2 st'.2 /\ st.1 `prefix_of` st'.1.

Lemma grows_refl st : grows st st.
Proof. split; [apply only_marks_refl|done]. Qed.

Lemma grows_trans st1 st2 st3 : grows st1 st2 -> grows st2 st3 -> grows st1 st3.
Proof.
  intros [H1 H2] [H3 H4]. split; [by eapply only_marks_trans|by etrans].
Qed.

Lemma yields_weaken {A} (m : fres A) (P Q : A -> Prop) :
  yields m P -> (forall a, P a -> Q a) -> yields m Q.
Proof. intros Hm HPQ a Ha. by apply HPQ, Hm. Qed.

Section ResolverInvariant.

Variable best : hash_t -> abstract_pkg_ptr -> (pkg_t -> res bool) -> res (option pkg_ptr).
Variable self : resolver_t.
Hypothesis self_inv : resolver_inv self.

Lemma greedy_scout_grows pkg_scout st :
  yields (greedy_scout self pkg_scout st) (grows st).
Proof.
  destruct st as [unsatisfied h]. unfold greedy_scout.
  eapply yields_bind; [apply yields_lift_any|]. intros scout _.
  destruct (negb _); [|apply yields_fret, grows_refl].
  eapply yields_bind; [apply yields_lift_any|]. intros par _.
  eapply yields_bind; [apply yields_lift_any|]. intros ab _.
  destruct (negb _); [|apply yields_fret, grows_refl].
  eapply yields_bind; [apply yields_lift_any|]. intros known _.
  destruct (negb _); [|apply yields_fret, grows_refl].
  eapply yields_bind; [apply self_inv|]. intros [[[rc newstuff] tmp_vec] h'] (Hh & _ & _).
  destruct newstuff.
  - apply yields_fret. by split.
  - eapply yields_bind; [apply yields_lift_any|]. intros ok _. apply yields_fret.
    split; [done|]. simpl. destruct ok; [by apply prefix_app_r|done].
Qed.

Lemma greedy_provider_grows provider st :
  yields (greedy_provider self provider st) (grows st).
Proof.
  unfold greedy_provider.
  eapply yields_bind; [apply yields_lift_any|]. intros ab _.
  destruct (pkgs ab); [|apply yields_fret, grows_refl].
  apply (yields_fold _ (grows st)); [|apply grows_refl].
  intros pkg_scout s Hs. eapply yields_weaken; [apply greedy_scout_grows|].
  intros s' Hs'. by eapply grows_trans.
Qed.

Lemma greedy_possibility_grows possible_satisfier st :
  yields (greedy_possibility self possible_satisfier st) (grows st).
Proof.
  unfold greedy_possibility.
  eapply yields_bind; [apply yields_lift_any|]. intros ab _.
  apply (yields_fold _ (grows st)); [|apply grows_refl].
  intros provider s Hs. eapply yields_weaken; [apply greedy_provider_grows|].
  intros s' Hs'. by eapply grows_trans.
Qed.

Lemma settle_compound_grows pkg p i compound_depend satisfier_entry_pkg st :
  yields (settle_compound self pkg p i compound_depend satisfier_entry_pkg st)
         (fun st' => grows (st.1.2, st.2) (st'.1.2, st'.2)).
Proof.
  destruct st as [[the_lost unsatisfied] h]. unfold settle_compound.
  destruct satisfier_entry_pkg as [satisfier|].
  - destruct (bool_decide (type compound_depend = SUGGEST)); [apply yields_fret, grows_refl|].
    destruct (negb _); [|apply yields_fret, grows_refl].
    eapply yields_bind; [apply yields_lift_any|]. intros known _.
    destruct (negb _); [|apply yields_fret, grows_refl].
    eapply yields_bind; [apply self_inv|].
    intros [[[rc newstuff] unsat'] h'] (Hh & Hu & _).
    apply yields_fret. split; [done|]. simpl. by apply prefix_app_r.
  - destruct (_ && _).
    + eapply yields_bind; [apply yields_lift_any|]. intros lost _.
      apply yields_fret, grows_refl.
    + eapply yields_bind; [apply yields_lift_any|]. intros nm _.
      apply yields_fret, grows_refl.
Qed.

Lemma resolve_compound_grows pkg p i compound_depend st :
  yields (resolve_compound best self pkg p i compound_depend st)
         (fun st' => grows (st.1.2, st.2) (st'.1.2, st'.2)).
Proof.
  destruct st as [[the_lost unsatisfied] h]. unfold resolve_compound.
  destruct (bool_decide _).
  - eapply yields_bind.
    + apply (yields_fold _ (grows (unsatisfied, h))); [|apply grows_refl].
      intros a s Hs. eapply yields_weaken; [apply greedy_possibility_grows|].
      intros s' Hs'. by eapply grows_trans.
    + intros [u' h'] Hr. by apply yields_fret.
  - eapply yields_bind; [apply yields_lift_any|]. intros found _.
    destruct found; [apply yields_fret, grows_refl|].
    eapply yields_bind; [apply yields_lift_any|]. intros sat _.
    apply (settle_compound_grows pkg p i _ sat (the_lost, unsatisfied, h)).
Qed.

Lemma resolve_compounds_grows pkg p compound_depends : forall i st,
  yields (resolve_compounds best self pkg p i compound_depends st)
         (fun st' => grows (st.1.2, st.2) (st'.1.2, st'.2)).
Proof.
  induction compound_depends as [|c l IH]; intros i st; simpl.
  - apply yields_fret, grows_refl.
  - eapply yields_bind; [apply resolve_compound_grows|]. intros st' Hst'.
    eapply yields_weaken; [apply IH|]. intros st'' Hst''.
    exact (grows_trans _ _ _ Hst' Hst'').
Qed.

Lemma resolver_body_inv : resolver_inv (resolver_body best self).
Proof.
  intros h pkg unsatisfied. unfold resolver_body.
  assert (resolver_post h unsatisfied (0, None, unsatisfied, h)) as Hsame.
  { split; [apply only_marks_refl|]. split; [done|by left]. }
  eapply yields_bind; [apply yields_lift_any|]. intros p _.
  destruct (parent p) as [ab_ptr|]; [|by apply yields_fret].
  eapply yields_bind; [apply yields_lift_any|]. intros ab _.
  destruct (dependencies_checked ab); [by apply yields_fret|].
  assert (resolver_post h unsatisfied (0, None, unsatisfied, set_dependencies_checked h ab_ptr))
    as Hset.
  { split; [apply only_marks_set|]. split; [done|by left]. }
  destruct (pkg_get_depends_ptr p PKG_DEPENDS) as [[|c l]|]; try by apply yields_fret.
  eapply yields_bind; [apply resolve_compounds_grows|].
  intros [[the_lost unsat'] h'] [Hh Hu]. simpl in Hh, Hu. apply yields_fret.
  split; [|split; [done|by right]].
  eapply only_marks_trans; [apply only_marks_set|done].
Qed.

End ResolverInvariant.

Lemma resolver_inv_depth best depth :
  resolver_inv (pkg_hash_fetch_unsatisfied_dependencies best depth).
Proof.
  induction depth as [|depth IH]; [done|]. simpl. by apply resolver_body_inv.
Qed.

(** The resolver writes nothing but marks: after a call the packages are
    as before, every abstract package is as before or, if it was unmarked,
    marked; no mark is cleared and no abstract package added or removed. *)
Theorem resolver_only_sets_marks best depth (h : hash_t) (pkg : pkg_ptr)
  (unsatisfied : list pkg_ptr) rc the_lost unsatisfied' h' :
  pkg_hash_fetch_unsatisfied_dependencies best depth h pkg unsatisfied
    = Some (Ok (rc, the_lost, unsatisfied', h')) ->
  packages h' = packages h /\
  length (abstracts h') = length (abstracts h) /\
  forall ab a, get_abstract h ab = Ok a ->
    get_abstract h' ab = Ok a \/
    (dependencies_checked a = false /\ get_abstract h' ab = Ok (mark_checked a)).
Proof.
  intros Hrun. destruct (resolver_inv_depth best depth h pkg unsatisfied _ Hrun) as (Hh & _).
  split; [apply Hh|]. split.
  - destruct Hh as [_ Hf]. symmetry. by eapply Forall2_length.
  - intros ab a Ha. destruct (only_marks_get_abstract _ _ _ _ Hh Ha) as (a' & Ha' & [->|[Hc ->]]).
    + by left.
    + by right.
Qed.

(** The vector of packages to install only grows at its end, and the
    value returned is 0 or the length of the vector. *)
Theorem resolver_vector_grows best depth (h : hash_t) (pkg : pkg_ptr)
  (unsatisfied : list pkg_ptr) rc the_lost unsatisfied' h' :
  pkg_hash_fetch_unsatisfied_dependencies best depth h pkg unsatisfied
    = Some (Ok (rc, the_lost, unsatisfied', h')) ->
  (exists added, unsatisfied' = unsatisfied ++ added) /\
  (rc = 0 \/ rc = Z.of_nat (length unsatisfied')).
Proof.
  intros Hrun.
  destruct (resolver_inv_depth best depth h pkg unsatisfied _ Hrun) as (_ & Hu & Hrc).
  done.
Qed.

(** A second call for the same package reports nothing: after a call for
    a package in the hash, its abstract package is marked, and the next
    call returns 0 and NULL and changes neither the vector nor the hash. *)
Theorem resolver_second_call best depth depth2 (h : hash_t) (pkg : pkg_ptr) (p : pkg_t)
  (ab_ptr : abstract_pkg_ptr) (unsatisfied unsatisfied2 : list pkg_ptr)
  rc the_lost unsatisfied' h' :
  get_pkg h pkg = Ok p -> parent p = Some ab_ptr ->
  pkg_hash_fetch_unsatisfied_dependencies best depth h pkg unsatisfied
    = Some (Ok (rc, the_lost, unsatisfied', h')) ->
  pkg_hash_fetch_unsatisfied_dependencies best (S depth2) h' pkg unsatisfied2
    = Some (Ok (0, None, unsatisfied2, h')).
Proof.
  intros Hp Hpar Hrun.
  assert (get_pkg h' pkg = Ok p /\
          exists a', get_abstract h' ab_ptr = Ok a' /\ dependencies_checked a' = true)
    as (Hp' & a' & Ha' & Hc').
  { destruct depth as [|depth]; [done|]. simpl in Hrun. unfold resolver_body in Hrun.
    rewrite Hp in Hrun. simpl in Hrun. rewrite Hpar in Hrun.
    destruct (get_abstract h ab_ptr) as [ab|] eqn:Hab; simpl in Hrun; [|done].
    destruct (dependencies_checked ab) eqn:Hc.
    { injection Hrun as <- <- <- <-. split; [done|]. by exists ab. }
    assert (get_abstract (set_dependencies_checked h ab_ptr) ab_ptr = Ok (mark_checked ab))
      as Hset.
    { unfold get_abstract, abstract_pkg_ptr in *. simpl.
      destruct (abstracts h !! ab_ptr) as [x|] eqn:E; [|done]. injection Hab as ->.
      by rewrite list_lookup_alter, decide_True, E. }
    destruct (pkg_get_depends_ptr p PKG_DEPENDS) as [[|c l]|].
    - injection Hrun as <- <- <- <-. split; [done|]. by exists (mark_checked ab).
    - destruct (resolve_compounds _ _ _ _ _ _ _) as [[[[lost u'] h'']|]|] eqn:Hrc;
        simpl in Hrun; try done. injection Hrun as <- <- <- <-.
      pose proof (resolve_compounds_grows best _ (resolver_inv_depth best depth)
                    pkg p (c :: l) O _ _ Hrc) as [Hh _]. simpl in Hh.
      split.
      + by rewrite (only_marks_get_pkg _ _ pkg Hh).
      + destruct (only_marks_get_abstract _ _ _ _ Hh Hset) as (a' & Ha' & [->|[Hf _]]);
          [|done]. by exists (mark_checked ab).
    - injection Hrun as <- <- <- <-. split; [done|]. by exists (mark_checked ab). }
  simpl. unfold resolver_body. rewrite Hp'. simpl. rewrite Hpar, Ha'. simpl. by rewrite Hc'.
Qed.

(** The hash of the cycle example after the resolver has run on its
    first package. *)
Definition hash_cycle_resolved : hash_t :=
  Eval vm_compute in
    match pkg_hash_fetch_unsatisfied_dependencies best_candidate 3 hash_cycle 0%nat [] with
    | Some (Ok (_, _, _, h')) => h'
    | _ => hash_cycle
    end.

Lemma resolver_only_sets_marks_witness :
  packages hash_cycle_resolved = packages hash_cycle /\
  length (abstracts hash_cycle_resolved) = length (abstracts hash_cycle) /\
  forall ab a, get_abstract hash_cycle ab = Ok a ->
    get_abstract hash_cycle_resolved ab = Ok a \/
    (dependencies_checked a = false /\
     get_abstract hash_cycle_resolved ab = Ok (mark_checked a)).
Proof.
  apply (resolver_only_sets_marks best_candidate 3 hash_cycle 0%nat []
           2 None [0%nat; 1%nat] hash_cycle_resolved).
  vm_compute. reflexivity.
Defined.

Lemma resolver_vector_grows_witness :
  (exists added, [0%nat; 1%nat] = [] ++ added) /\
  (2 = 0 \/ 2 = Z.of_nat (length [0%nat; 1%nat])).
Proof.
  apply (resolver_vector_grows best_candidate 3 hash_cycle 0%nat []
           2 None [0%nat; 1%nat] hash_cycle_resolved).
  vm_compute. reflexivity.
Defined.

Lemma resolver_second_call_witness :
  pkg_hash_fetch_unsatisfied_dependencies best_candidate 1 hash_cycle_resolved 0%nat []
    = Some (Ok (0, None, [], hash_cycle_resolved)).
Proof.
  eapply (resolver_second_call best_candidate 3 0 hash_cycle 0%nat _ 0%nat []
            [] 2 None [0%nat; 1%nat] hash_cycle_resolved).
  - reflexivity.
  - reflexivity.
  - vm_compute. reflexivity.
Defined.

(** ** What [pkg_merge] leaves alone *)

(** The members that say which package a record is and in which state. *)
Definition identity_fields (pkg : pkg_t)
  : option string * option abstract_pkg_ptr * pkg_state_want_t * Z * pkg_state_status_t * bool :=
  (name pkg, parent pkg, state_want pkg, state_flag pkg, state_status pkg,
   provided_by_hand pkg).

Lemma identity_fields_header x y : header x = header y -> identity_fields x = identity_fields y.
Proof.
  intros H. change (identity_fields (header x) = identity_fields (header y)). by rewrite H.
Qed.

Lemma id_merge_string id o n : identity_fields (merge_string id o n) = identity_fields o.
Proof. apply identity_fields_header, header_merge_string. Qed.
Lemma id_merge_int id o n : identity_fields (merge_int id o n) = identity_fields o.
Proof. apply identity_fields_header, header_merge_int. Qed.
Lemma id_merge_depends id o n : identity_fields (merge_depends id (o, n)).1 = identity_fields o.
Proof. apply identity_fields_header, header_merge_depends_old. Qed.
Lemma id_merge_replaces o n : identity_fields (merge_replaces (o, n)).1 = identity_fields o.
Proof. apply identity_fields_header, header_merge_replaces_old. Qed.
Lemma id_merge_provides o n : identity_fields (merge_provides (o, n)).1 = identity_fields o.
Proof. apply identity_fields_header, header_merge_provides_old. Qed.
Lemma id_merge_conffiles o n o' n' :
  merge_conffiles (o, n) = Ok (o', n') -> identity_fields o' = identity_fields o.
Proof. intros H. by apply identity_fields_header, (header_merge_conffiles o n o' n'). Qed.
Lemma id_merge_installed_files o n :
  identity_fields (merge_installed_files (o, n)).1 = identity_fields o.
Proof. unfold merge_installed_files. by destruct (installed_files o). Qed.
Lemma id_merge_auto_installed o n : identity_fields (merge_auto_installed o n) = identity_fields o.
Proof. unfold merge_auto_installed. by destruct (auto_installed o). Qed.
Lemma id_merge_src o n : identity_fields (merge_src o n) = identity_fields o.
Proof. unfold merge_src. by destruct (src o). Qed.
Lemma id_merge_dest o n : identity_fields (merge_dest o n) = identity_fields o.
Proof. unfold merge_dest. by destruct (dest o). Qed.
Lemma id_merge_essential o n : identity_fields (merge_essential o n) = identity_fields o.
Proof. unfold merge_essential. by destruct (essential o). Qed.

Ltac id_step :=
  first
    [ rewrite id_merge_string | rewrite id_merge_int | rewrite id_merge_depends
    | rewrite id_merge_replaces | rewrite id_merge_provides
    | match goal with
      | H : merge_conffiles (_, _) = Ok (?v, _) |- context [identity_fields ?v] =>
          rewrite (id_merge_conffiles _ _ _ _ H)
      end
    | rewrite id_merge_installed_files | rewrite id_merge_auto_installed
    | rewrite id_merge_src | rewrite id_merge_dest | rewrite id_merge_essential
    | match goal with
      | E : ?v = _ |- context [identity_fields ?v] => is_var v; rewrite E
      end ].

(** The attributes [pkg_merge] never writes. *)
Definition unmerged_fields : list pkg_field :=
  [PKG_EPOCH; PKG_VERSION; PKG_REVISION; PKG_TAGS; PKG_INSTALLED_TIME; PKG_ALTERNATIVES].

(** [pkg_merge] leaves the old record the package it was: its name, its
    parent, its three states and the by-hand flag are unchanged, and so are
    the epoch, the version and the revision, so that it compares with any
    package as before.  The tags, the installation time and the
    alternatives are never taken from the new record either. *)
Theorem pkg_merge_keeps_identity (oldpkg newpkg : pkg_t) :
  match pkg_merge_fields oldpkg newpkg with
  | Ok (merged, _) =>
      name merged = name oldpkg /\ parent merged = parent oldpkg /\
      state_want merged = state_want oldpkg /\ state_flag merged = state_flag oldpkg /\
      state_status merged = state_status oldpkg /\
      provided_by_hand merged = provided_by_hand oldpkg /\
      (forall id, In id unmerged_fields -> pkg_get_raw merged id = pkg_get_raw oldpkg id) /\
      (forall other, pkg_compare_versions merged other = pkg_compare_versions oldpkg other)
  | Fault =>
      pkg_get_conffiles oldpkg = None /\
      exists l, pkg_get_conffiles newpkg = Some (CfRing l)
  end.
Proof.
  destruct (pkg_merge_fields oldpkg newpkg) as [[merged rest]|] eqn:Hm;
    [|by apply pkg_merge_fields_fault].
  revert Hm. unfold pkg_merge_fields. cbv zeta. name_steps.
  destruct (merge_conffiles _) as [[oc nc]|] eqn:Hcf; cbn [mbind res_bind]; [|done].
  name_steps. intros [= <- <-].
  assert (identity_fields (merge_essential o3 n3) = identity_fields oldpkg) as Hid.
  { by repeat id_step. }
  assert (forall id, In id unmerged_fields ->
            pkg_get_raw (merge_essential o3 n3) id = pkg_get_raw oldpkg id) as Hraw.
  { intros id Hin. unfold unmerged_fields in Hin. cbn [In] in Hin.
    repeat destruct Hin as [<-|Hin]; try done; by merge_raw. }
  unfold identity_fields in Hid. injection Hid as H1 H2 H3 H4 H5 H6.
  do 6 (split; [done|]). split; [exact Hraw|].
  intros other. unfold pkg_compare_versions, pkg_get_int, pkg_get_string.
  rewrite !Hraw; [done|unfold unmerged_fields; cbn [In]; tauto..].
Qed.

(** *** What is left of the new record *)

Lemma raw_merge_depends_new_eq id o n :
  pkg_get_raw (merge_depends id (o, n)).2 id =
  match raw_depends (pkg_get_raw o id) with
  | Some _ => pkg_get_raw n id
  | None => Some (BDepends None)
  end.
Proof.
  unfold merge_depends, pkg_get_depends_ptr, raw_depends.
  destruct (pkg_get_raw o id) as [[| |[d|]| | |]|]; cbn [snd]; try done;
    rewrite pkg_get_raw_set, decide_True by done;
    by destruct (pkg_get_raw n id) as [[| | | | |]|].
Qed.

Lemma raw_merge_replaces_new_eq o n :
  pkg_get_raw (merge_replaces (o, n)).2 PKG_REPLACES =
  match raw_abstracts (pkg_get_raw o PKG_REPLACES) with
  | Some _ => pkg_get_raw n PKG_REPLACES
  | None => Some (BAbstracts None)
  end.
Proof.
  unfold merge_replaces, pkg_get_abstracts_ptr, raw_abstracts.
  destruct (pkg_get_raw o PKG_REPLACES) as [[| | |[d|]| |]|]; cbn [snd]; try done;
    rewrite pkg_get_raw_set, decide_True by done;
    by destruct (pkg_get_raw n PKG_REPLACES) as [[| | | | |]|].
Qed.

Lemma raw_merge_provides_new_eq o n :
  pkg_get_raw (merge_provides (o, n)).2 PKG_PROVIDES =
  if provides_missing (raw_abstracts (pkg_get_raw o PKG_PROVIDES))
  then Some (BAbstracts None)
  else pkg_get_raw n PKG_PROVIDES.
Proof.
  unfold merge_provides, pkg_get_abstracts_ptr.
  fold (raw_abstracts (pkg_get_raw o PKG_PROVIDES)).
  destruct (provides_missing _); cbn [snd]; [|done].
  rewrite pkg_get_raw_set, decide_True by done.
  by destruct (pkg_get_raw n PKG_PROVIDES) as [[| | | | |]|].
Qed.

Lemma raw_merge_conffiles_new_eq o n o' n' :
  merge_conffiles (o, n) = Ok (o', n') ->
  pkg_get_raw n' PKG_CONFFILES =
  match raw_conffiles (pkg_get_raw o PKG_CONFFILES) with
  | Some _ => pkg_get_raw n PKG_CONFFILES
  | None =>
      match raw_conffiles (pkg_get_raw n PKG_CONFFILES) with
      | Some _ => Some (BConffiles [])
      | None => pkg_get_raw n PKG_CONFFILES
      end
  end.
Proof.
  unfold merge_conffiles, pkg_get_conffiles, raw_conffiles.
  destruct (pkg_get_raw o PKG_CONFFILES) as [[| | | |l|l]|];
    destruct (pkg_get_raw n PKG_CONFFILES) as [[| | | |l'|l']|] eqn:En;
    intros [= <- <-]; try done;
    by rewrite pkg_get_raw_set, decide_True, En.
Qed.

Ltac merge_raw_new :=
  repeat (first [ rewrite raw_merge_depends_new_eq | rewrite raw_merge_replaces_new_eq
                | rewrite raw_merge_provides_new_eq
                | match goal with
                  | H : merge_conffiles (_, _) = Ok (_, ?v)
                    |- context [pkg_get_raw ?v PKG_CONFFILES] =>
                      rewrite (raw_merge_conffiles_new_eq _ _ _ _ H)
                  end
                | raw_step; decide_fields | expand_step ]).

(** The attributes [pkg_merge] moves from the new record to the old. *)
Definition moved_fields : list pkg_field :=
  [PKG_DEPENDS; PKG_PROVIDES; PKG_CONFLICTS; PKG_REPLACES; PKG_CONFFILES].

(** What [pkg_merge] leaves of the new record: an array that the old
    record took (Depends, Conflicts, Replaces, Provides, the installed
    files) is NULL in the new record, so that no array belongs to both;
    conffiles that were taken leave an empty list; what the old record
    did not need is as before, and so is every other attribute. *)
Theorem pkg_merge_moves_arrays (oldpkg newpkg : pkg_t) :
  match pkg_merge_fields oldpkg newpkg with
  | Ok (_, rest) =>
      (forall id, In id merged_depends_fields ->
         pkg_get_depends_ptr rest id =
         match pkg_get_depends_ptr oldpkg id with
         | Some _ => pkg_get_depends_ptr newpkg id
         | None => None
         end) /\
      pkg_get_abstracts_ptr rest PKG_REPLACES =
        match pkg_get_abstracts_ptr oldpkg PKG_REPLACES with
        | Some _ => pkg_get_abstracts_ptr newpkg PKG_REPLACES
        | None => None
        end /\
      pkg_get_abstracts_ptr rest PKG_PROVIDES =
        (if provides_missing (pkg_get_abstracts_ptr oldpkg PKG_PROVIDES) then None
         else pkg_get_abstracts_ptr newpkg PKG_PROVIDES) /\
      pkg_get_conffiles rest =
        match pkg_get_conffiles oldpkg with
        | Some _ => pkg_get_conffiles newpkg
        | None => (fun _ => CfList []) <$> pkg_get_conffiles newpkg
        end /\
      installed_files rest =
        match installed_files oldpkg with
        | Some _ => installed_files newpkg
        | None => None
        end /\
      (forall id, ~ In id moved_fields -> pkg_get_raw rest id = pkg_get_raw newpkg id)
  | Fault =>
      pkg_get_conffiles oldpkg = None /\
      exists l, pkg_get_conffiles newpkg = Some (CfRing l)
  end.
Proof.
  destruct (pkg_merge_fields oldpkg newpkg) as [[merged rest]|] eqn:Hm;
    [|by apply pkg_merge_fields_fault].
  revert Hm. unfold pkg_merge_fields. cbv zeta. name_steps.
  destruct (merge_conffiles _) as [[oc nc]|] eqn:Hcf; cbn [mbind res_bind]; [|done].
  name_steps. intros [= <- <-].
  split; [|split; [|split; [|split; [|split]]]].
  - intros id Hin. unfold merged_depends_fields in Hin. cbn [In] in Hin.
    repeat destruct Hin as [<-|Hin]; try done;
      unfold pkg_get_depends_ptr; merge_raw_new; unfold raw_depends;
      destruct_raw; reflexivity.
  - unfold pkg_get_abstracts_ptr; merge_raw_new; unfold raw_abstracts;
      destruct_raw; reflexivity.
  - unfold pkg_get_abstracts_ptr; merge_raw_new; unfold raw_abstracts;
      destruct_raw; try reflexivity;
      match goal with
      | |- context [provides_missing (Some ?l)] => destruct l as [|? [|? ?]]
      end; reflexivity.
  - unfold pkg_get_conffiles; merge_raw_new; unfold raw_conffiles;
      destruct_raw; reflexivity.
  - assert (header_fields n3 =
            (let '(_, _, _, f, _) := header_fields oldpkg in
             let '(a', s', d', f', e') := header_fields newpkg in
             (a', s', d', match f with Some _ => f' | None => None end, e'))) as H.
    { repeat (autorewrite with merge_hf; try expand_hf).
      unfold header_fields.
      destruct (auto_installed oldpkg), (src oldpkg), (dest oldpkg),
        (installed_files oldpkg), (essential oldpkg); reflexivity. }
    unfold header_fields in H. destruct (installed_files oldpkg); by injection H.
  - intros id Hin. unfold moved_fields in Hin. cbn [In] in Hin.
    destruct id; try (exfalso; tauto); by merge_raw_new.
Qed.

(** ** Conflicts and satisfiable atoms (pkg_depends.c) *)

(** [pkg_conflicts_abstract]: an atom of the Conflicts array names
    [conflictee].  The array is read without a test for NULL. *)
Definition pkg_conflicts_abstract (pkg : pkg_t) (conflictee : abstract_pkg_ptr) : res bool :=
  conflicts ← nonnull (pkg_get_depends_ptr pkg PKG_CONFLICTS);
  Ok (existsb
        (fun conflict =>
           existsb (fun possibility => Nat.eqb (dep_pkg possibility) conflictee)
                   (possibilities conflict))
        conflicts).

(** [pkg_conflicts]: an atom of the Conflicts array names an entry of the
    Provides list of [conflictee]. *)
Definition pkg_conflicts (pkg conflictee : pkg_t) : res bool :=
  conflicts ← nonnull (pkg_get_depends_ptr pkg PKG_CONFLICTS);
  let conflictee_provides := default [] (pkg_get_abstracts_ptr conflictee PKG_PROVIDES) in
  Ok (existsb
        (fun conflict =>
           existsb (fun possibility =>
                      existsb (fun provider => Nat.eqb (dep_pkg possibility) provider)
                              conflictee_provides)
                   (possibilities conflict))
        conflicts).

(** The two loops of [pkg_dependence_satisfiable]. *)
Fixpoint satisfiable_in_vec (h : hash_t) (depend : depend_t) (pkg_vec : list pkg_ptr)
  : res bool :=
  match pkg_vec with
  | [] => Ok false
  | ptr :: rest =>
      pkg ← get_pkg h ptr;
      sat ← version_constraints_satisfied depend pkg;
      if (sat : bool) then Ok true else satisfiable_in_vec h depend rest
  end.

Fixpoint satisfiable_by_providers (h : hash_t) (depend : depend_t)
  (apkgs : list abstract_pkg_ptr) : res bool :=
  match apkgs with
  | [] => Ok false
  | provider :: rest =>
      papkg ← get_abstract h provider;
      found ←
        match pkgs papkg with
        | Some pkg_vec => satisfiable_in_vec h depend pkg_vec
        | None => Ok false
        end;
      if (found : bool) then Ok true else satisfiable_by_providers h depend rest
  end.

Definition pkg_dependence_satisfiable (h : hash_t) (depend : depend_t) : res bool :=
  apkg ← get_abstract h (dep_pkg depend);
  satisfiable_by_providers h depend (provided_by apkg).

(** [pkg_conflicts] is [pkg_conflicts_abstract] for some entry of the
    Provides list of the other package; a package without a Provides list
    conflicts with nothing; and both fault on a package without a
    Conflicts array. *)
Theorem pkg_conflicts_by_provides (pkg conflictee : pkg_t) (ab : abstract_pkg_ptr) :
  (pkg_get_depends_ptr pkg PKG_CONFLICTS = None ->
   pkg_conflicts pkg conflictee = Fault /\ pkg_conflicts_abstract pkg ab = Fault) /\
  (pkg_get_depends_ptr pkg PKG_CONFLICTS <> None ->
   (pkg_conflicts pkg conflictee = Ok true <->
    exists provider,
      provider ∈ default [] (pkg_get_abstracts_ptr conflictee PKG_PROVIDES) /\
      pkg_conflicts_abstract pkg provider = Ok true) /\
   (pkg_conflicts pkg conflictee = Ok true \/ pkg_conflicts pkg conflictee = Ok false)).
Proof.
  unfold pkg_conflicts, pkg_conflicts_abstract.
  destruct (pkg_get_depends_ptr pkg PKG_CONFLICTS) as [conflicts|]; simpl; split; try done.
  intros _. split.
  - split.
    + intros [= H]. apply existsb_exists in H as (conflict & Hc & H).
      apply existsb_exists in H as (possibility & Hp & H).
      apply existsb_exists in H as (provider & Hprov & H).
      exists provider. split; [by apply list_elem_of_In|]. f_equal.
      apply existsb_exists. exists conflict. split; [done|].
      apply existsb_exists. by exists possibility.
    + intros (provider & Hprov & [= H]). f_equal.
      apply existsb_exists in H as (conflict & Hc & H).
      apply existsb_exists in H as (possibility & Hp & H).
      apply existsb_exists. exists conflict. split; [done|].
      apply existsb_exists. exists possibility. split; [done|].
      apply existsb_exists. exists provider. split; [by apply list_elem_of_In|done].
  - by destruct (existsb _ conflicts); [left|right].
Qed.

Lemma satisfiable_in_vec_spec h depend pkg_vec b :
  satisfiable_in_vec h depend pkg_vec = Ok b ->
  b = true <->
  exists ptr pkg, ptr ∈ pkg_vec /\ get_pkg h ptr = Ok pkg /\
                  version_constraints_satisfied depend pkg = Ok true.
Proof.
  revert b. induction pkg_vec as [|ptr rest IH]; intros b; simpl.
  - intros [= <-]. split; [done|]. intros (? & ? & Hin & _). by apply elem_of_nil in Hin.
  - destruct (get_pkg h ptr) as [pkg|] eqn:Hp; simpl; [|done].
    destruct (version_constraints_satisfied depend pkg) as [[|]|] eqn:Hs; simpl; [| |done].
    + intros [= <-]. split; [|done]. intros _. exists ptr, pkg. split; [by left|done].
    + intros Hr. rewrite (IH b Hr). split.
      * intros (q & qp & Hin & H). exists q, qp. split; [by right|done].
      * intros (q & qp & [->|Hin]%elem_of_cons & Hq & Hv).
        -- rewrite Hp in Hq. injection Hq as <-. by rewrite Hs in Hv.
        -- by exists q, qp.
Qed.

Lemma satisfiable_by_providers_spec h depend apkgs b :
  satisfiable_by_providers h depend apkgs = Ok b ->
  b = true <->
  exists provider papkg pkg_vec ptr pkg,
    provider ∈ apkgs /\ get_abstract h provider = Ok papkg /\ pkgs papkg = Some pkg_vec /\
    ptr ∈ pkg_vec /\ get_pkg h ptr = Ok pkg /\
    version_constraints_satisfied depend pkg = Ok true.
Proof.
  revert b. induction apkgs as [|provider rest IH]; intros b; simpl.
  - intros [= <-]. split; [done|]. intros (? & ? & ? & ? & ? & Hin & _).
    by apply elem_of_nil in Hin.
  - destruct (get_abstract h provider) as [papkg|] eqn:Hab; simpl; [|done].
    destruct (match pkgs papkg with
              | Some pkg_vec => satisfiable_in_vec h depend pkg_vec
              | None => Ok false
              end) as [found|] eqn:Hfound; simpl; [|done].
    assert (found = true <->
            exists pkg_vec ptr pkg, pkgs papkg = Some pkg_vec /\ ptr ∈ pkg_vec /\
              get_pkg h ptr = Ok pkg /\ version_constraints_satisfied depend pkg = Ok true)
      as Hhere.
    { destruct (pkgs papkg) as [pkg_vec|].
      - rewrite (satisfiable_in_vec_spec _ _ _ _ Hfound). split.
        + intros (ptr & pkg & H). by exists pkg_vec, ptr, pkg.
        + intros (v & ptr & pkg & [= <-] & H). by exists ptr, pkg.
      - injection Hfound as <-. split; [done|]. by intros (? & ? & ? & ? & _). }
    destruct found.
    + intros [= <-]. split; [|done]. intros _.
      destruct (proj1 Hhere eq_refl) as (v & ptr & pkg & H).
      exists provider, papkg, v, ptr, pkg. split; [by left|]. split; [done|]. done.
    + intros Hr. rewrite (IH b Hr). split.
      * intros (pr & pa & v & ptr & pkg & Hin & H). exists pr, pa, v, ptr, pkg.
        split; [by right|done].
      * intros (pr & pa & v & ptr & pkg & [->|Hin]%elem_of_cons & Hpa & H).
        -- rewrite Hab in Hpa. injection Hpa as <-.
           assert (false = true) as Habs; [|done]. apply Hhere. by exists v, ptr, pkg.
        -- by exists pr, pa, v, ptr, pkg.
Qed.

(** An atom is reported satisfiable exactly when a concrete package of an
    abstract package that provides it meets its version constraint,
    installed or not. *)
Theorem pkg_dependence_satisfiable_spec (h : hash_t) (depend : depend_t)
  (apkg : abstract_pkg_t) (b : bool) :
  get_abstract h (dep_pkg depend) = Ok apkg ->
  pkg_dependence_satisfiable h depend = Ok b ->
  b = true <->
  exists provider papkg pkg_vec ptr pkg,
    provider ∈ provided_by apkg /\ get_abstract h provider = Ok papkg /\
    pkgs papkg = Some pkg_vec /\ ptr ∈ pkg_vec /\ get_pkg h ptr = Ok pkg /\
    version_constraints_satisfied depend pkg = Ok true.
Proof.
  intros Ha. unfold pkg_dependence_satisfiable. rewrite Ha. simpl.
  apply satisfiable_by_providers_spec.
Qed.

Lemma pkg_dependence_satisfiable_spec_witness :
  true = true <->
  exists provider papkg pkg_vec ptr pkg,
    provider ∈ provided_by (mk_abstract "A" [0%nat] [0%nat]) /\
    get_abstract hash_missing_dep provider = Ok papkg /\
    pkgs papkg = Some pkg_vec /\ ptr ∈ pkg_vec /\ get_pkg hash_missing_dep ptr = Ok pkg /\
    version_constraints_satisfied (atom LATER_EQUAL (Some "0.9"%string) 0%nat) pkg = Ok true.
Proof.
  apply (pkg_dependence_satisfiable_spec hash_missing_dep
           (atom LATER_EQUAL (Some "0.9"%string) 0%nat) (mk_abstract "A" [0%nat] [0%nat]) true).
  - reflexivity.
  - reflexivity.
Defined.

(** ** The text of a dependency fits its buffer *)

(** The text of one atom and of a compound dependency, as
    [pkg_depend_str] means to write it. *)
Definition atom_text (h : hash_t) (dep : depend_t) : res string :=
  ab ← get_abstract h (dep_pkg dep);
  nm ← nonnull (ab_name ab);
  Ok (c_str nm +++
      match version dep with
      | Some v => " (" +++ constraint_to_str (constraint dep) +++ c_str v +++ ")"
      | None => EmptyString
      end).

Fixpoint depend_text (h : hash_t) (first : bool) (possibilities : list depend_t)
  : res string :=
  match possibilities with
  | [] => Ok EmptyString
  | dep :: rest =>
      t ← atom_text h dep;
      r ← depend_text h false rest;
      Ok ((if first then EmptyString else " | ") +++ t +++ r)
  end.

Lemma substring_strlen s : String.substring 0 (strlen s) s = c_str s.
Proof.
  induction s as [|c s IH]; simpl; [done|].
  destruct (code c =? 0); simpl; [done|]. by rewrite IH.
Qed.

Lemma strncat_fits dst src n : (strlen src <= n)%nat -> strncat dst src n = dst +++ c_str src.
Proof. intros H. unfold strncat. by rewrite Nat.min_r, substring_strlen. Qed.

Lemma length_c_str s : String.length (c_str s) = strlen s.
Proof. induction s as [|c s IH]; simpl; [done|]. destruct (code c =? 0); simpl; auto. Qed.

Lemma length_app a b : String.length (a +++ b) = (String.length a + String.length b)%nat.
Proof. induction a as [|c a IH]; simpl; auto. Qed.

Lemma constraint_to_str_length c :
  (strlen (constraint_to_str c) <= 3)%nat /\
  c_str (constraint_to_str c) = constraint_to_str c.
Proof. by destruct c; vm_compute; split; try lia. Qed.

Lemma depend_str_cat_fits h possibilities : forall first len0 total L str,
  depend_str_len h first possibilities len0 = Ok total -> (total <= L)%nat ->
  exists text,
    depend_text h first possibilities = Ok text /\
    depend_str_cat h first possibilities L str = Ok (str +++ text) /\
    (len0 + String.length text <= total)%nat.
Proof.
  induction possibilities as [|dep rest IH]; intros first len0 total L str; simpl.
  - intros [= <-] _. exists EmptyString. rewrite str_app_nil_r. simpl. split; [done|].
    split; [done|lia].
  - unfold atom_text.
    destruct (get_abstract h (dep_pkg dep)) as [ab|]; simpl; [|done].
    destruct (ab_name ab) as [nm|]; simpl; [|done].
    intros Hlen HL.
    eapply IH in Hlen as (text & Htext & Hcat & Hbound); [|exact HL].
    rewrite Htext. simpl. eexists. split; [reflexivity|].
    rewrite Hcat. clear Hcat.
    destruct (constraint_to_str_length (constraint dep)) as [Hc3 Hcc].
    rewrite <- (length_c_str (constraint_to_str _)), Hcc in Hc3.
    assert (strlen (constraint_to_str (constraint dep))
            = String.length (constraint_to_str (constraint dep))) as Hcl
      by (by rewrite <- length_c_str, Hcc).
    revert Hbound. destruct (version dep) as [v|]; destruct first; intros Hbound;
      (rewrite !strncat_fits;
       [|try lia; try (change (strlen ")") with 1%nat; lia);
         try (change (strlen " (") with 2%nat; lia);
         try (change (strlen " | ") with 3%nat; lia)..]);
      rewrite ?Hcc; change (c_str ")") with ")"%string;
      change (c_str " (") with " ("%string; change (c_str " | ") with " | "%string;
      (split; [rewrite !str_app_assoc; cbn [String.append]; by rewrite ?str_app_assoc|]);
      rewrite !length_app, !length_c_str;
      change (String.length ")") with 1%nat; change (String.length " (") with 2%nat;
      change (String.length " | ") with 3%nat; simpl String.length;
      rewrite ?length_app, ?length_c_str; simpl String.length; lia.
Qed.

(** [pkg_depend_str] never writes past the buffer it allocates and
    [strncat] never cuts a piece: the string returned is the whole text of
    the dependency, and it is no longer than the length computed in the
    first pass.  An index past the last dependency gives NULL. *)
Theorem pkg_depend_str_fits (h : hash_t) (pkg : pkg_t) (idx : nat) (r : option string) :
  pkg_depend_str h pkg idx = Ok r ->
  match default [] (pkg_get_depends_ptr pkg PKG_DEPENDS) !! idx with
  | None => r = None
  | Some cdep =>
      exists str len,
        r = Some str /\
        depend_str_len h true (possibilities cdep) O = Ok len /\
        (String.length str <= len)%nat /\
        depend_text h true (possibilities cdep) = Ok str
  end.
Proof.
  unfold pkg_depend_str.
  destruct (default [] (pkg_get_depends_ptr pkg PKG_DEPENDS) !! idx) as [cdep|];
    [|by intros [= <-]].
  destruct (depend_str_len h true (possibilities cdep) 0) as [len|] eqn:Hlen; simpl; [|done].
  destruct (depend_str_cat_fits h _ true O len len EmptyString Hlen (le_n _))
    as (text & Htext & Hcat & Hbound).
  rewrite Hcat. simpl. intros [= <-]. exists text, len. done.
Qed.

Lemma pkg_depend_str_fits_witness :
  exists str len,
    Some "A (>= 2.0)"%string = Some str /\
    depend_str_len hash_missing_dep true [atom LATER_EQUAL (Some "2.0"%string) 0%nat] O = Ok len /\
    (String.length str <= len)%nat /\
    depend_text hash_missing_dep true [atom LATER_EQUAL (Some "2.0"%string) 0%nat] = Ok str.
Proof.
  apply (pkg_depend_str_fits hash_missing_dep
           (mk_pkg "B" 1%nat "2.0" SS_NOT_INSTALLED SW_UNKNOWN
              [(PKG_DEPENDS,
                BDepends (Some [depends_on DEPEND [atom LATER_EQUAL (Some "2.0"%string) 0%nat]]))])
           O (Some "A (>= 2.0)"%string)).
  reflexivity.
Defined.

(** ** The unresolved list is NULL or has an entry *)

Definition nonempty_list (the_lost : unresolved_t) : Prop := the_lost <> Some [].

Definition resolver_lost (self : resolver_t) : Prop :=
  forall h pkg unsatisfied, yields (self h pkg unsatisfied) (fun r => nonempty_list r.1.1.2).

Lemma merge_unresolved_nonempty oldstuff newstuff :
  nonempty_list oldstuff -> nonempty_list newstuff ->
  nonempty_list (merge_unresolved oldstuff newstuff).
Proof.
  unfold nonempty_list, merge_unresolved. intros Ho Hn.
  destruct newstuff as [new|]; [|done]. destruct new as [|s new]; [done|].
  intros [= H]. by destruct (default [] oldstuff).
Qed.

Lemma add_unresolved_dep_nonempty h pkg the_lost ref_ndx cdep :
  default [] (pkg_get_depends_ptr pkg PKG_DEPENDS) !! ref_ndx = Some cdep ->
  forall r, add_unresolved_dep h pkg the_lost ref_ndx = Ok r -> nonempty_list r.
Proof.
  intros Hc r. unfold add_unresolved_dep, pkg_depend_str. rewrite Hc.
  destruct (depend_str_len h true (possibilities cdep) 0) as [len|]; simpl; [|done].
  destruct (depend_str_cat h true (possibilities cdep) len EmptyString) as [str|]; simpl;
    [|done].
  intros [= <-] [= H]. by destruct (default [] the_lost).
Qed.

Section ResolverUnresolved.

Variable best : hash_t -> abstract_pkg_ptr -> (pkg_t -> res bool) -> res (option pkg_ptr).
Variable self : resolver_t.
Hypothesis self_lost : resolver_lost self.

Lemma settle_compound_lost pkg p i compound_depend satisfier_entry_pkg st cdep :
  default [] (pkg_get_depends_ptr p PKG_DEPENDS) !! i = Some cdep ->
  nonempty_list st.1.1 ->
  yields (settle_compound self pkg p i compound_depend satisfier_entry_pkg st)
         (fun st' => nonempty_list st'.1.1).
Proof.
  destruct st as [[the_lost unsatisfied] h]. cbn [fst]. intros Hc Hl. unfold settle_compound.
  destruct satisfier_entry_pkg as [satisfier|].
  - destruct (bool_decide (type compound_depend = SUGGEST)); [by apply yields_fret|].
    destruct (negb _); [|by apply yields_fret].
    eapply yields_bind; [apply yields_lift_any|]. intros known _.
    destruct (negb _); [|by apply yields_fret].
    eapply yields_bind; [apply self_lost|].
    intros [[[rc newstuff] unsat'] h'] Hn. apply yields_fret. cbn [fst snd] in *.
    by apply merge_unresolved_nonempty.
  - destruct (_ && _).
    + eapply yields_bind.
      * apply yields_lift. intros lost Hlost.
        exact (add_unresolved_dep_nonempty _ _ _ _ _ Hc _ Hlost).
      * intros lost Hlost. by apply yields_fret.
    + eapply yields_bind; [apply yields_lift_any|]. intros nm _. by apply yields_fret.
Qed.

Lemma resolve_compound_lost pkg p i compound_depend st cdep :
  default [] (pkg_get_depends_ptr p PKG_DEPENDS) !! i = Some cdep ->
  nonempty_list st.1.1 ->
  yields (resolve_compound best self pkg p i compound_depend st)
         (fun st' => nonempty_list st'.1.1).
Proof.
  destruct st as [[the_lost unsatisfied] h]. cbn [fst]. intros Hc Hl. unfold resolve_compound.
  destruct (bool_decide _).
  - eapply yields_bind; [apply (yields_fold _ (fun _ => True)); done|].
    intros r _. by apply yields_fret.
  - eapply yields_bind; [apply yields_lift_any|]. intros found _.
    destruct found; [by apply yields_fret|].
    eapply yields_bind; [apply yields_lift_any|]. intros sat _.
    by apply (settle_compound_lost pkg p i _ sat (the_lost, unsatisfied, h) cdep).
Qed.

Lemma resolve_compounds_lost pkg p compound_depends : forall i st,
  drop i (default [] (pkg_get_depends_ptr p PKG_DEPENDS)) = compound_depends ->
  nonempty_list st.1.1 ->
  yields (resolve_compounds best self pkg p i compound_depends st)
         (fun st' => nonempty_list st'.1.1).
Proof.
  induction compound_depends as [|c l IH]; intros i st Hdrop Hl; simpl.
  - by apply yields_fret.
  - assert (default [] (pkg_get_depends_ptr p PKG_DEPENDS) !! i = Some c) as Hc.
    { rewrite <- (Nat.add_0_r i), <- lookup_drop, Hdrop. done. }
    eapply yields_bind; [by eapply resolve_compound_lost|]. intros st' Hst'.
    apply IH; [|done].
    replace (S i) with (i + 1)%nat by lia. by rewrite <- drop_drop, Hdrop.
Qed.

Lemma resolver_body_lost : resolver_lost (resolver_body best self).
Proof.
  intros h pkg unsatisfied. unfold resolver_body.
  eapply yields_bind; [apply yields_lift_any|]. intros p _.
  destruct (parent p) as [ab_ptr|]; [|by apply yields_fret].
  eapply yields_bind; [apply yields_lift_any|]. intros ab _.
  destruct (dependencies_checked ab); [by apply yields_fret|].
  destruct (pkg_get_depends_ptr p PKG_DEPENDS) as [[|c l]|] eqn:Hd; try by apply yields_fret.
  eapply yields_bind.
  - apply resolve_compounds_lost; [by rewrite Hd|done].
  - intros [[the_lost unsat'] h'] Hl. by apply yields_fret.
Qed.

End ResolverUnresolved.

Lemma resolver_lost_depth best depth :
  resolver_lost (pkg_hash_fetch_unsatisfied_dependencies best depth).
Proof.
  induction depth as [|depth IH]; [done|]. simpl. by apply resolver_body_lost.
Qed.

(** The unresolved list a call leaves is NULL or holds at least one
    text: it is never an empty array, so that testing the pointer tells
    whether a dependency could not be resolved. *)
Theorem resolver_unresolved_nonempty best depth (h : hash_t) (pkg : pkg_ptr)
  (unsatisfied : list pkg_ptr) rc the_lost unsatisfied' h' :
  pkg_hash_fetch_unsatisfied_dependencies best depth h pkg unsatisfied
    = Some (Ok (rc, the_lost, unsatisfied', h')) ->
  the_lost = None \/ exists str rest, the_lost = Some (str :: rest).
Proof.
  intros Hrun. pose proof (resolver_lost_depth best depth h pkg unsatisfied _ Hrun) as H.
  cbn [fst snd] in H. destruct the_lost as [[|str rest]|]; [done| |by left].
  right. by exists str, rest.
Qed.

(** The hash of the example of a missing dependency after the resolver
    has run on its second package. *)
Definition hash_missing_dep_resolved : hash_t :=
  Eval vm_compute in
    match pkg_hash_fetch_unsatisfied_dependencies best_candidate 3 hash_missing_dep 1%nat [] with
    | Some (Ok (_, _, _, h')) => h'
    | _ => hash_missing_dep
    end.

Lemma resolver_unresolved_nonempty_witness :
  Some ["A (>= 2.0)"%string] = None \/
  exists str rest, Some ["A (>= 2.0)"%string] = Some (str :: rest).
Proof.
  apply (resolver_unresolved_nonempty best_candidate 3 hash_missing_dep 1%nat []
           0 (Some ["A (>= 2.0)"%string]) [] hash_missing_dep_resolved).
  vm_compute. reflexivity.
Defined.

(** ** No package is reported as a conflict twice *)

Lemma pkg_compare_versions_refl p : pkg_compare_versions p p = 0.
Proof.
  unfold pkg_compare_versions. rewrite !verrevcmp_refl.
  destruct (Z.gtb_spec (to_unsigned (pkg_get_int p PKG_EPOCH))
              (to_unsigned (pkg_get_int p PKG_EPOCH))); [lia|].
  by destruct (Z.ltb_spec (to_unsigned (pkg_get_int p PKG_EPOCH))
                 (to_unsigned (pkg_get_int p PKG_EPOCH))); [lia|].
Qed.

Lemma is_pkg_in_pkg_vec_member h vec q :
  q ∈ vec -> is_pkg_in_pkg_vec h vec q <> Ok false.
Proof.
  unfold is_pkg_in_pkg_vec. destruct (get_pkg h q) as [p|] eqn:Hq; simpl; [|done].
  induction vec as [|x vec IH]; [by intros ?%elem_of_nil|].
  intros Hin. simpl.
  destruct (get_pkg h x) as [qx|] eqn:Hx; simpl; [|done].
  destruct (strcmp_ptr (name p) (name qx)) as [c|] eqn:Hc; simpl; [|done].
  apply elem_of_cons in Hin as [->|Hin].
  - rewrite Hq in Hx. injection Hx as <-.
    unfold strcmp_ptr in Hc. destruct (name p) as [nm|]; simpl in Hc; [|done].
    injection Hc as <-. rewrite strcmp_refl. simpl.
    rewrite pkg_compare_versions_refl. simpl.
    unfold strcmp_ptr. destruct (pkg_get_architecture p) as [arch|]; simpl; [|done].
    by rewrite strcmp_refl.
  - destruct (negb (c =? 0)); [by apply IH|].
    destruct (negb (pkg_compare_versions p qx =? 0)); [by apply IH|].
    destruct (strcmp_ptr (pkg_get_architecture p) (pkg_get_architecture qx)) as [c'|];
      simpl; [|done].
    destruct (c' =? 0); [done|by apply IH].
Qed.

(** Every entry was unknown to the entries in front of it when it was
    added. *)
Definition added_once (h : hash_t) (l : list pkg_ptr) : Prop :=
  forall i q, l !! i = Some q -> is_pkg_in_pkg_vec h (take i l) q = Ok false.

Lemma added_once_nil h : added_once h [].
Proof. by intros i q H. Qed.

Lemma added_once_snoc h l q :
  added_once h l -> is_pkg_in_pkg_vec h l q = Ok false -> added_once h (l ++ [q]).
Proof.
  intros Hl Hq i x Hi. destruct (decide (i < length l)%nat) as [Hlt|Hge].
  - rewrite lookup_app_l in Hi by done. rewrite take_app_le by lia. by apply Hl.
  - rewrite lookup_app_r in Hi by lia.
    destruct (i - length l)%nat as [|k] eqn:Ek; [|done]. injection Hi as <-.
    assert (i = length l) as -> by lia. by rewrite take_app_length.
Qed.

Lemma added_once_NoDup h l : added_once h l -> NoDup l.
Proof.
  intros Hl. apply NoDup_alt. intros i j q Hi Hj.
  destruct (Nat.lt_trichotomy i j) as [Hlt|[->|Hgt]]; [|done|]; exfalso.
  - apply (is_pkg_in_pkg_vec_member h (take j l) q); [|by apply Hl].
    apply list_elem_of_lookup. exists i. by rewrite lookup_take_lt.
  - apply (is_pkg_in_pkg_vec_member h (take i l) q); [|by apply Hl].
    apply list_elem_of_lookup. exists j. by rewrite lookup_take_lt.
Qed.

Lemma conflict_scout_test_unknown h pkg possible_satisfier installed_conflicts pkg_scout :
  conflict_scout_test h pkg possible_satisfier installed_conflicts pkg_scout = Ok true ->
  is_pkg_in_pkg_vec h installed_conflicts pkg_scout = Ok false.
Proof.
  unfold conflict_scout_test.
  destruct (get_pkg h pkg_scout) as [scout|]; simpl; [|done].
  destruct (_ || _); [|done].
  destruct (version_constraints_satisfied possible_satisfier scout) as [[|]|]; simpl; try done.
  destruct (is_pkg_a_replaces h scout pkg) as [[|]|]; simpl; try done.
  destruct (is_pkg_in_pkg_vec h installed_conflicts pkg_scout) as [[|]|]; simpl; done.
Qed.

Lemma conflicts_scan_vec_once h pkg possible_satisfier test_vec :
  forall installed_conflicts result,
    added_once h installed_conflicts ->
    conflicts_scan_vec h pkg possible_satisfier test_vec installed_conflicts = Ok result ->
    added_once h result.
Proof.
  induction test_vec as [|pkg_scout test_vec IH]; intros acc result Hacc; simpl.
  - by intros [= <-].
  - destruct (conflict_scout_test h pkg possible_satisfier acc pkg_scout) as [add|] eqn:Ht;
      simpl; [|done].
    apply IH. destruct add; [|done].
    apply added_once_snoc; [done|]. by eapply conflict_scout_test_unknown.
Qed.

Lemma conflicts_scan_possibilities_once h pkg possible_satisfiers :
  forall installed_conflicts result,
    added_once h installed_conflicts ->
    conflicts_scan_possibilities h pkg possible_satisfiers installed_conflicts = Ok result ->
    added_once h result.
Proof.
  induction possible_satisfiers as [|a rest IH]; intros acc result Hacc; simpl.
  - by intros [= <-].
  - destruct (get_abstract h (dep_pkg a)) as [ab|]; simpl; [|done].
    destruct (pkgs ab) as [test_vec|]; simpl; [|by apply IH].
    destruct (conflicts_scan_vec h pkg a test_vec acc) as [mid|] eqn:Hs; simpl; [|done].
    apply IH. by eapply conflicts_scan_vec_once.
Qed.

Lemma conflicts_scan_once h pkg conflicts :
  forall installed_conflicts result,
    added_once h installed_conflicts ->
    conflicts_scan h pkg conflicts installed_conflicts = Ok result ->
    added_once h result.
Proof.
  induction conflicts as [|c rest IH]; intros acc result Hacc; simpl.
  - by intros [= <-].
  - destruct (conflicts_scan_possibilities h pkg (possibilities c) acc) as [mid|] eqn:Hs;
      simpl; [|done].
    apply IH. by eapply conflicts_scan_possibilities_once.
Qed.

(** The vector [pkg_hash_fetch_conflicts] returns holds no package twice,
    and no two records of one name, version and architecture: each entry
    was tested against the entries in front of it. *)
Theorem pkg_hash_fetch_conflicts_no_duplicates (h : hash_t) (pkg : pkg_ptr)
  (installed_conflicts : list pkg_ptr) :
  pkg_hash_fetch_conflicts h pkg = Ok (Some installed_conflicts) ->
  NoDup installed_conflicts /\
  forall i q, installed_conflicts !! i = Some q ->
    is_pkg_in_pkg_vec h (take i installed_conflicts) q = Ok false.
Proof.
  unfold pkg_hash_fetch_conflicts.
  destruct (get_pkg h pkg) as [p|]; simpl; [|done].
  destruct (parent p); [|done].
  destruct (pkg_get_depends_ptr p PKG_CONFLICTS) as [conflicts|]; [|done].
  destruct (conflicts_scan h p conflicts []) as [result|] eqn:Hs; simpl; [|done].
  pose proof (conflicts_scan_once h p conflicts [] result (added_once_nil h) Hs) as Hr.
  destruct result; [done|]. intros [= <-]. split; [by eapply added_once_NoDup|done].
Qed.

(** [new-foo] conflicts with [old-foo], of which four records are
    installed: 1.0, 1.0 a second time, 1.1, and 1.0 a third time. *)
Definition hash_conflict_twice : hash_t :=
  {| abstracts := [mk_abstract "new-foo" [0%nat] [0%nat];
                   mk_abstract "old-foo" [1%nat; 2%nat; 3%nat; 4%nat] [1%nat]];
     packages :=
       [mk_pkg "new-foo" 0%nat "2.0" SS_NOT_INSTALLED SW_INSTALL
          [(PKG_CONFLICTS, BDepends (Some [depends_on CONFLICTS [atom NONE None 1%nat]]))];
        mk_pkg "old-foo" 1%nat "1.0" SS_INSTALLED SW_INSTALL [];
        mk_pkg "old-foo" 1%nat "1.0" SS_INSTALLED SW_INSTALL [];
        mk_pkg "old-foo" 1%nat "1.1" SS_INSTALLED SW_INSTALL [];
        mk_pkg "old-foo" 1%nat "1.0" SS_INSTALLED SW_INSTALL []] |}.

(** The second and the fourth record are left out: the vector holds the
    first and the third. *)
Lemma pkg_hash_fetch_conflicts_no_duplicates_witness :
  pkg_hash_fetch_conflicts hash_conflict_twice 0%nat = Ok (Some [1%nat; 3%nat]) /\
  is_pkg_in_pkg_vec hash_conflict_twice [1%nat] 2%nat = Ok true /\
  NoDup [1%nat; 3%nat] /\
  forall i q, [1%nat; 3%nat] !! i = Some q ->
    is_pkg_in_pkg_vec hash_conflict_twice (take i [1%nat; 3%nat]) q = Ok false.
Proof.
  split; [reflexivity|]. split; [reflexivity|].
  apply (pkg_hash_fetch_conflicts_no_duplicates hash_conflict_twice 0%nat [1%nat; 3%nat]).
  reflexivity.
Defined.

(** ** Looking up a conffile (pkg.c) *)

(** The loop over the list of conffiles. *)
Fixpoint conffile_find (cl : list conffile_t) (file_name : string) : option conffile_t :=
  match cl with
  | [] => None
  | conffile :: rest =>
      if strcmp (cf_name conffile) file_name =? 0 then Some conffile
      else conffile_find rest file_name
  end.

(** The loop from [nv_pair_list_first(cl)] on.  From a pointer into a
    ring the loop takes the first node for the head of the list: it starts
    at the second conffile, and past the last one it comes to the local
    variable of [pkg_merge], which is gone; with an empty ring the pointer
    itself is to that variable. *)
Definition conffiles_find (cl : conffiles_ptr) (file_name : string)
  : res (option conffile_t) :=
  match cl with
  | CfList l => Ok (conffile_find l file_name)
  | CfRing [] => Fault
  | CfRing (_ :: l) =>
      match conffile_find l file_name with
      | Some conffile => Ok (Some conffile)
      | None => Fault
      end
  end.

(** [pkg_get_conffile]: NULL for a NULL package, for a package without a
    list of conffiles, and when no conffile has the name. *)
Definition pkg_get_conffile (pkg : option pkg_t) (file_name : string)
  : res (option conffile_t) :=
  match pkg with
  | None => Ok None
  | Some pkg =>
      match pkg_get_conffiles pkg with
      | Some cl => conffiles_find cl file_name
      | None => Ok None
      end
  end.

Lemma conffile_find_spec cl file_name :
  match conffile_find cl file_name with
  | Some conffile =>
      exists before after,
        cl = before ++ conffile :: after /\
        c_str (cf_name conffile) = c_str file_name /\
        forall c, c ∈ before -> c_str (cf_name c) <> c_str file_name
  | None => forall c, c ∈ cl -> c_str (cf_name c) <> c_str file_name
  end.
Proof.
  induction cl as [|x cl IH]; simpl.
  - intros c Hc. by apply elem_of_nil in Hc.
  - destruct (Z.eqb_spec (strcmp (cf_name x) file_name) 0) as [E|E].
    + exists [], cl. split; [done|]. split; [by apply strcmp_zero_iff|].
      intros c Hc. by apply elem_of_nil in Hc.
    + rewrite strcmp_zero_iff in E. destruct (conffile_find cl file_name) as [conffile|].
      * destruct IH as (before & after & -> & Hn & Hb).
        exists (x :: before), after. split; [done|]. split; [done|].
        intros c [->|Hc]%elem_of_cons; auto.
      * intros c [->|Hc]%elem_of_cons; auto.
Qed.

(** [pkg_get_conffile] returns the first conffile of the package whose
    name is the file name, and NULL exactly when the package is NULL, has
    no list of conffiles or has no conffile of that name.  When the
    conffiles of the package are a list head stored by value, the first
    conffile is passed over: the result is the first of the others that
    has the name, and without one the call does not return. *)
Theorem pkg_get_conffile_first (pkg : pkg_t) (file_name : string) :
  pkg_get_conffile None file_name = Ok None /\
  match pkg_get_conffiles pkg with
  | None => pkg_get_conffile (Some pkg) file_name = Ok None
  | Some (CfList cl) =>
      exists r,
        pkg_get_conffile (Some pkg) file_name = Ok r /\
        match r with
        | Some conffile =>
            exists before after,
              cl = before ++ conffile :: after /\
              c_str (cf_name conffile) = c_str file_name /\
              forall c, c ∈ before -> c_str (cf_name c) <> c_str file_name
        | None => forall c, c ∈ cl -> c_str (cf_name c) <> c_str file_name
        end
  | Some (CfRing ring) =>
      match pkg_get_conffile (Some pkg) file_name with
      | Ok (Some conffile) =>
          exists first before after,
            ring = first :: before ++ conffile :: after /\
            c_str (cf_name conffile) = c_str file_name /\
            forall c, c ∈ before -> c_str (cf_name c) <> c_str file_name
      | Ok None => False
      | Fault => forall c, c ∈ tail ring -> c_str (cf_name c) <> c_str file_name
      end
  end.
Proof.
  split; [done|]. unfold pkg_get_conffile.
  destruct (pkg_get_conffiles pkg) as [[cl|ring]|]; [| |done].
  - exists (conffile_find cl file_name). split; [done|]. apply conffile_find_spec.
  - destruct ring as [|first ring]; simpl.
    + intros c Hc. by apply elem_of_nil in Hc.
    + pose proof (conffile_find_spec ring file_name) as H.
      destruct (conffile_find ring file_name) as [conffile|]; [|done].
      destruct H as (before & after & -> & H). by exists first, before, after.
Qed.

(** *** The conffiles after a merge

    The list head that [pkg_merge] stores by value is read back as a
    pointer.  An old record without conffiles that takes those of the new
    record does not read them back as they were: the first is never
    found, a later one is, and a name that none of the later ones has ends
    the call in the local variable of [pkg_merge].  The list of the new
    record is left empty. *)
Theorem pkg_merge_conffiles_read_back (oldpkg newpkg : pkg_t) (l : list conffile_t) :
  pkg_get_conffiles oldpkg = None ->
  pkg_get_conffiles newpkg = Some (CfList l) ->
  exists merged rest,
    pkg_merge_fields oldpkg newpkg = Ok (merged, rest) /\
    pkg_get_conffiles merged = Some (CfRing l) /\
    pkg_get_conffiles rest = Some (CfList []) /\
    forall file_name,
      pkg_get_conffile (Some merged) file_name =
      match conffile_find (tail l) file_name with
      | Some conffile => Ok (Some conffile)
      | None => Fault
      end.
Proof.
  intros Hold Hnew.
  destruct (pkg_merge_fields oldpkg newpkg) as [[merged rest]|] eqn:Hm.
  2: { apply pkg_merge_fields_fault in Hm as [_ [l' Hl']]. congruence. }
  exists merged, rest. split; [done|].
  assert (pkg_get_conffiles merged = Some (CfRing l) /\
          pkg_get_conffiles rest = Some (CfList [])) as [Hmerged Hrest].
  { revert Hm Hold Hnew. unfold pkg_merge_fields. cbv zeta. name_steps.
    destruct (merge_conffiles _) as [[oc nc]|] eqn:Hcf; cbn [mbind res_bind]; [|done].
    name_steps. intros [= <- <-].
    unfold pkg_get_conffiles. merge_raw_new. unfold raw_conffiles.
    destruct_raw; try done; by intros _ [= ->]. }
  split; [done|]. split; [done|]. intros file_name.
  unfold pkg_get_conffile. rewrite Hmerged. by destruct l.
Qed.

Lemma pkg_merge_conffiles_read_back_witness :
  let d1 := {| cf_name := "/etc/a"; cf_value := Some "d1"%string |} in
  let d2 := {| cf_name := "/etc/b"; cf_value := Some "d2"%string |} in
  let d3 := {| cf_name := "/etc/a"; cf_value := Some "d3"%string |} in
  let newpkg := pkg_set_raw pkg_new PKG_CONFFILES (BConffiles [d1; d2; d3]) in
  pkg_get_conffile (Some newpkg) "/etc/a" = Ok (Some d1) /\
  exists merged rest,
    pkg_merge_fields pkg_new newpkg = Ok (merged, rest) /\
    pkg_get_conffiles merged = Some (CfRing [d1; d2; d3]) /\
    pkg_get_conffiles rest = Some (CfList []) /\
    forall file_name,
      pkg_get_conffile (Some merged) file_name =
      match conffile_find (tail [d1; d2; d3]) file_name with
      | Some conffile => Ok (Some conffile)
      | None => Fault
      end.
Proof.
  cbv zeta. split; [reflexivity|].
  apply (pkg_merge_conffiles_read_back pkg_new); reflexivity.
Defined.

Example pkg_merge_conffiles_skips_first :
  let d1 := {| cf_name := "/etc/a"; cf_value := Some "d1"%string |} in
  let d2 := {| cf_name := "/etc/b"; cf_value := Some "d2"%string |} in
  let d3 := {| cf_name := "/etc/a"; cf_value := Some "d3"%string |} in
  let newpkg := pkg_set_raw pkg_new PKG_CONFFILES (BConffiles [d1; d2; d3]) in
  exists merged rest,
    pkg_merge_fields pkg_new newpkg = Ok (merged, rest) /\
    pkg_get_conffile (Some merged) "/etc/a" = Ok (Some d3) /\
    pkg_get_conffile (Some merged) "/etc/c" = Fault.
Proof. cbv zeta. eexists _, _. split; [vm_compute; reflexivity|]. split; reflexivity. Qed.

(** ** The name of a file in the cache (opkg_download.c) *)

Section CacheName.

Variable xstrdup : option string -> option string.

(** [get_cache_filename]: what follows the last slash, or the whole
    name. *)
Definition get_cache_filename (dest_file_name : string) : option string :=
  match split_last dest_file_name 47 with
  | Some (_, filename) => xstrdup (Some filename)
  | None => xstrdup (Some dest_file_name)
  end.

End CacheName.

Lemma split_last_spec s c before after :
  split_last s c = Some (before, after) ->
  exists x, code x = c /\ c_str s = before +++ String x (c_str after) /\
            strchr after c = None.
Proof.
  revert before. induction s as [|d s IH]; intros before; simpl; [done|].
  destruct (Z.eqb_spec (code d) 0) as [E|E]; [done|].
  destruct (split_last s c) as [[b a]|] eqn:Hs.
  - intros [= <- <-]. destruct (IH b eq_refl) as (x & Hx & Hc & Hn).
    exists x. split; [done|]. split; [|done]. simpl. by rewrite Hc.
  - destruct (Z.eqb_spec (code d) c) as [Ec|Ec]; [|done]. intros [= <- <-].
    exists d. split; [done|]. split; [done|].
    clear IH. induction s as [|y s IHs]; simpl in *; [done|].
    destruct (Z.eqb_spec (code y) 0); [done|].
    destruct (split_last s c) as [[b a]|]; [done|].
    destruct (Z.eqb_spec (code y) c); [done|]. by apply IHs.
Qed.

Lemma strchr_none_of_split_last s c : split_last s c = None -> strchr s c = None.
Proof.
  induction s as [|d s IH]; simpl; [done|].
  destruct (Z.eqb_spec (code d) 0); [done|].
  destruct (split_last s c) as [[b a]|]; [done|].
  destruct (Z.eqb_spec (code d) c); [done|]. auto.
Qed.

Lemma strchr_c_str s c : strchr (c_str s) c = None <-> strchr s c = None.
Proof.
  induction s as [|d s IH]; simpl; [done|].
  destruct (Z.eqb_spec (code d) 0) as [E|E]; [done|]. simpl.
  destruct (Z.eqb_spec (code d) 0); [done|]. by destruct (code d =? c).
Qed.

(** The name [get_cache_filename] gives holds no slash, and the name it
    was given is that name, alone or after a directory and a slash: the
    file it names lies in the cache directory itself. *)
Theorem get_cache_filename_no_slash (xstrdup : option string -> option string)
  (dest_file_name : string) :
  (forall s, xstrdup (Some s) = Some (c_str s)) ->
  exists cache_name,
    get_cache_filename xstrdup dest_file_name = Some cache_name /\
    strchr cache_name 47 = None /\
    (c_str dest_file_name = cache_name \/
     exists dir, c_str dest_file_name = dir +++ "/" +++ cache_name).
Proof.
  intros Hdup. unfold get_cache_filename.
  destruct (split_last dest_file_name 47) as [[before filename]|] eqn:Hs; rewrite Hdup.
  - destruct (split_last_spec _ _ _ _ Hs) as (x & Hx & Hc & Hn).
    exists (c_str filename). split; [done|]. split; [by apply strchr_c_str|].
    right. exists before. rewrite Hc.
    assert (x = "/"%char) as -> by (apply code_inj; by rewrite Hx). done.
  - exists (c_str dest_file_name). split; [done|]. split; [|by left].
    by apply strchr_c_str, strchr_none_of_split_last.
Qed.

Lemma get_cache_filename_no_slash_witness :
  exists cache_name,
    get_cache_filename (fun s => c_str <$> s) "/tmp/opkg//busybox_1.36.ipk" = Some cache_name /\
    strchr cache_name 47 = None /\
    (c_str "/tmp/opkg//busybox_1.36.ipk" = cache_name \/
     exists dir, c_str "/tmp/opkg//busybox_1.36.ipk" = dir +++ "/" +++ cache_name).
Proof.
  apply (get_cache_filename_no_slash (fun s => c_str <$> s) "/tmp/opkg//busybox_1.36.ipk").
  reflexivity.
Defined.

(** ** The architecture of a stanza (pkg_parse.c) *)

(** The loop that steps [e] back while it is after [s] and the character
    it points to is white space; [e] is counted from [s]. *)
Fixpoint back_over_spaces (s : string) (e : nat) : nat :=
  match e with
  | O => O
  | S e' => if isspace (deref (skipn_str e s)) then back_over_spaces s e' else e
  end.

Section ParseArchitecture.

Context {A : Type}.

(** [pkg_set_architecture] (pkg.h): the architecture as a string and a
    length. *)
Variable pkg_set_architecture : pkg_t -> string -> nat -> A.

Definition parse_architecture (pkg : pkg_t) (str : string) : A :=
  let s := skip_spaces str in
  let e := strlen s in
  let e := back_over_spaces s e in
  pkg_set_architecture pkg s e.

End ParseArchitecture.

Lemma deref_skipn_strlen s : deref (skipn_str (strlen s) s) = 0.
Proof.
  induction s as [|c s IH]; simpl; [done|].
  destruct (Z.eqb_spec (code c) 0) as [E|E]; simpl; done.
Qed.

(** [parse_architecture] passes the rest of the line from its first
    character that is not white space to its very end: the loop meant to
    step back over white space at the end starts on the NUL and never
    moves, so white space at the end is kept. *)
Theorem parse_architecture_keeps_the_end {A} (pkg_set_architecture : pkg_t -> string -> nat -> A)
  (pkg : pkg_t) (str : string) :
  parse_architecture pkg_set_architecture pkg str =
  pkg_set_architecture pkg (skip_spaces str) (strlen (skip_spaces str)) /\
  isspace (deref (skip_spaces str)) = false.
Proof.
  split; [|apply skip_spaces_deref]. unfold parse_architecture. f_equal.
  destruct (strlen (skip_spaces str)) as [|e] eqn:He; [done|].
  cbn [back_over_spaces]. by rewrite <- He, deref_skipn_strlen.
Qed.

(** ** A tilde sorts before the end of the version *)

(** No NUL inside the string. *)
Definition nul_free (s : string) : bool := all_chars (fun x => negb (x =? 0)) s.

Lemma nul_free_drop_nd s : nul_free s = true -> nul_free (drop_nd s) = true.
Proof.
  induction s as [|c s IH]; [done|]. cbn [drop_nd]. intros H.
  destruct (is_nondigit (String c s)); [|done].
  apply IH. unfold nul_free in *. simpl in H. by apply andb_true_iff in H as [_ H].
Qed.

Lemma nul_free_skip_zeros s : nul_free s = true -> nul_free (skip_zeros s) = true.
Proof.
  induction s as [|c s IH]; [done|]. cbn [skip_zeros]. intros H.
  destruct (code c =? 48); [|done].
  apply IH. unfold nul_free in *. simpl in H. by apply andb_true_iff in H as [_ H].
Qed.

Lemma nul_free_drop_digits s : nul_free s = true -> nul_free (drop_digits s) = true.
Proof.
  induction s as [|c s IH]; [done|]. cbn [drop_digits]. intros H.
  destruct (isdigit (deref (String c s))); [|done].
  apply IH. unfold nul_free in *. simpl in H. by apply andb_true_iff in H as [_ H].
Qed.

Lemma nul_free_deref s : nul_free s = true -> s <> EmptyString -> deref s <> 0.
Proof.
  destruct s as [|c s]; [done|]. unfold nul_free. simpl.
  intros [H _]%andb_true_iff _. apply negb_true_iff in H. by apply Z.eqb_neq.
Qed.

Lemma drop_nd_app s r :
  (drop_nd s <> EmptyString ->
   nd_key (s +++ r) = nd_key s /\ drop_nd (s +++ r) = drop_nd s +++ r) /\
  (drop_nd s = EmptyString ->
   nd_key (s +++ r) = nd_key s ++ nd_key r /\ drop_nd (s +++ r) = drop_nd r).
Proof.
  induction s as [|c s IH]; [done|].
  cbn [String.append drop_nd nd_key].
  change (is_nondigit (String c (s +++ r))) with (is_nondigit (String c s)).
  destruct (is_nondigit (String c s)).
  - destruct IH as [IH1 IH2]. split; intros H.
    + destruct (IH1 H) as [-> ->]. done.
    + destruct (IH2 H) as [-> ->]. done.
  - split; [done|]. done.
Qed.

Lemma skip_zeros_app s r :
  (skip_zeros s <> EmptyString -> skip_zeros (s +++ r) = skip_zeros s +++ r) /\
  (skip_zeros s = EmptyString -> skip_zeros (s +++ r) = skip_zeros r).
Proof.
  induction s as [|c s IH]; [done|].
  cbn [String.append skip_zeros]. destruct (code c =? 48); [done|]. split; done.
Qed.

Lemma drop_digits_app s r :
  (drop_digits s <> EmptyString ->
   digits (s +++ r) = digits s /\ drop_digits (s +++ r) = drop_digits s +++ r) /\
  (drop_digits s = EmptyString ->
   digits (s +++ r) = digits s ++ digits r /\ drop_digits (s +++ r) = drop_digits r).
Proof.
  induction s as [|c s IH]; [done|].
  cbn [String.append drop_digits digits]. cbn [deref].
  destruct (isdigit (code c)).
  - destruct IH as [IH1 IH2]. split; intros H.
    + destruct (IH1 H) as [-> ->]. done.
    + destruct (IH2 H) as [-> ->]. done.
  - split; [done|]. done.
Qed.

Section Tilde.

Variable t : string.

(** What follows the common part: a tilde and anything. *)
Definition tilde_rest : string := String "~" t.

Lemma key_tilde_end n :
  differ_at (key (S n) tilde_rest) (key (S n) EmptyString) (-1) 0.
Proof.
  cbn [key]. apply differ_at_ext. unfold seg_key, tilde_rest. cbn [nd_key].
  change (is_nondigit (String "~" t)) with true. cbv iota.
  change (order (deref (String "~" t))) with (-1). cbn [app].
  apply differ_at_here.
Qed.

Lemma key_tilde n : forall s,
  nul_free s = true -> (String.length s < n)%nat ->
  differ_at (key n (s +++ tilde_rest)) (key n s) (-1) 0.
Proof.
  induction n as [|n IH]; intros s Hs Hn; [lia|].
  destruct (string_dec s EmptyString) as [->|Hne]; [apply key_tilde_end|].
  assert (n <> O) as Hn0 by (destruct s; simpl in *; [done|lia]).
  destruct n as [|n]; [done|]. clear Hn0.
  cbn [key]. unfold seg_key, next_seg.
  destruct (drop_nd_app s tilde_rest) as [Hnd1 Hnd2].
  destruct (string_dec (drop_nd s) EmptyString) as [End|End].
  - destruct (Hnd2 End) as [-> _]. rewrite <- !app_assoc.
    apply differ_at_app. unfold tilde_rest at 1. cbn [nd_key].
    change (is_nondigit (String "~" t)) with true. cbv iota.
    change (order (deref (String "~" t))) with (-1). cbn [app].
    apply differ_at_here.
  - destruct (Hnd1 End) as [-> ->].
    destruct (skip_zeros_app (drop_nd s) tilde_rest) as [Hz1 Hz2].
    destruct (string_dec (skip_zeros (drop_nd s)) EmptyString) as [Ez|Ez].
    + rewrite (Hz2 Ez), Ez. cbn [skip_zeros tilde_rest].
      change (code "~" =? 48) with false. cbv iota.
      change (num_key (String "~" t)) with (num_key EmptyString).
      apply differ_at_app. change (drop_digits (String "~" t)) with tilde_rest.
      apply (key_tilde_end n).
    + rewrite (Hz1 Ez).
      destruct (drop_digits_app (skip_zeros (drop_nd s)) tilde_rest) as [Hd1 Hd2].
      destruct (string_dec (drop_digits (skip_zeros (drop_nd s))) EmptyString) as [Ed|Ed].
      * destruct (Hd2 Ed) as [Hdig ->]. unfold num_key. rewrite Hdig, Ed.
        change (digits tilde_rest) with (@nil Z). rewrite app_nil_r.
        apply differ_at_app. change (drop_digits tilde_rest) with tilde_rest.
        apply (key_tilde_end n).
      * destruct (Hd1 Ed) as [Hdig ->]. unfold num_key. rewrite Hdig.
        apply differ_at_app. apply IH.
        -- by apply nul_free_drop_digits, nul_free_skip_zeros, nul_free_drop_nd.
        -- pose proof (next_seg_length s (nul_free_deref s Hs Hne)) as Hl.
           unfold next_seg in Hl. lia.
Qed.

End Tilde.

(** A version followed by a tilde and anything sorts before the version
    itself (as 1.0~rc1 before 1.0), whatever the version is, and the other
    way round. *)
Theorem verrevcmp_tilde_sorts_first (s t : string) :
  nul_free s = true ->
  verrevcmp (Some (s +++ String "~" t)) (Some s) < 0 /\
  verrevcmp (Some s) (Some (s +++ String "~" t)) > 0.
Proof.
  intros Hs.
  assert ((verrevcmp (Some (s +++ String "~" t)) (Some s) ?= 0) = Lt) as Hlt.
  { rewrite (verrevcmp_key (S (String.length (s +++ String "~" t)))).
    - unfold vkey, or_empty. rewrite (lexcmp_differ_at _ _ (-1) 0); [done| |done].
      apply (key_tilde t). + done. + rewrite length_app. simpl. lia.
    - simpl. lia.
    - simpl. rewrite length_app. lia. }
  split; [by apply Z.compare_lt_iff|].
  pose proof (verrevcmp_antisym (Some (s +++ String "~" t)) (Some s)) as Ha.
  rewrite Hlt in Ha. simpl in Ha. exact Ha.
Qed.

Lemma verrevcmp_tilde_sorts_first_witness :
  verrevcmp (Some ("1.0" +++ String "~" "rc1")) (Some "1.0"%string) < 0 /\
  verrevcmp (Some "1.0"%string) (Some ("1.0" +++ String "~" "rc1")) > 0.
Proof. apply (verrevcmp_tilde_sorts_first "1.0" "rc1"). reflexivity. Defined.

(** ** When the two tests for a replaced package agree *)

(** [is_pkg_a_replaces] compares names and [pkg_replaces] compares
    abstract packages.  For a scout that provides only itself, under the
    name of its abstract package, in a hash where the abstract packages of
    the Replaces list are told apart by their names, they agree. *)
Theorem is_pkg_a_replaces_agrees (h : hash_t) (pkg_scout pkg : pkg_t)
  (own : abstract_pkg_ptr) (ab_own : abstract_pkg_t) (scout_name own_name : string) :
  pkg_get_abstracts_ptr pkg_scout PKG_PROVIDES = Some [own] ->
  get_abstract h own = Ok ab_own -> ab_name ab_own = Some own_name ->
  name pkg_scout = Some scout_name -> c_str scout_name = c_str own_name ->
  (forall r, r ∈ default [] (pkg_get_abstracts_ptr pkg PKG_REPLACES) ->
     exists ab_pkg r_name,
       get_abstract h r = Ok ab_pkg /\ ab_name ab_pkg = Some r_name /\
       (c_str r_name = c_str own_name -> r = own)) ->
  is_pkg_a_replaces h pkg_scout pkg = Ok (pkg_replaces pkg pkg_scout).
Proof.
  intros Hprov Hown Hown_name Hname Hsame Hrep.
  unfold is_pkg_a_replaces, pkg_replaces. rewrite Hprov. cbn [default].
  destruct (pkg_get_abstracts_ptr pkg PKG_REPLACES) as [replaces|]; [|done].
  cbn [default] in *. induction replaces as [|r replaces IH]; [done|].
  cbn [is_pkg_a_replaces_loop existsb].
  destruct (Hrep r ltac:(by left)) as (ab_pkg & r_name & Hab & Hrn & Hinj).
  rewrite Hab. simpl. unfold strcmp_ptr. rewrite Hname, Hrn. simpl.
  rewrite orb_false_r.
  destruct (Z.eqb_spec (strcmp scout_name r_name) 0) as [E|E].
  - apply strcmp_zero_iff in E. rewrite Hinj by congruence.
    by rewrite Nat.eqb_refl.
  - destruct (Nat.eqb_spec r own) as [->|Hne].
    + rewrite Hown in Hab. injection Hab as <-. rewrite Hown_name in Hrn.
      injection Hrn as <-. by apply strcmp_zero_iff in Hsame.
    + simpl. apply IH. intros r' Hr'. apply Hrep. by right.
Qed.

Lemma is_pkg_a_replaces_agrees_witness :
  is_pkg_a_replaces hash_replaces
    (mk_pkg "old-foo" 1%nat "1.0" SS_INSTALLED SW_INSTALL
       [(PKG_PROVIDES, BAbstracts (Some [1%nat]))])
    (mk_pkg "new-foo" 0%nat "2.0" SS_NOT_INSTALLED SW_INSTALL
       [(PKG_CONFLICTS, BDepends (Some [depends_on CONFLICTS [atom NONE None 1%nat]]));
        (PKG_REPLACES, BAbstracts (Some [1%nat]));
        (PKG_PROVIDES, BAbstracts (Some [0%nat]))])
  = Ok (pkg_replaces
          (mk_pkg "new-foo" 0%nat "2.0" SS_NOT_INSTALLED SW_INSTALL
             [(PKG_CONFLICTS, BDepends (Some [depends_on CONFLICTS [atom NONE None 1%nat]]));
              (PKG_REPLACES, BAbstracts (Some [1%nat]));
              (PKG_PROVIDES, BAbstracts (Some [0%nat]))])
          (mk_pkg "old-foo" 1%nat "1.0" SS_INSTALLED SW_INSTALL
             [(PKG_PROVIDES, BAbstracts (Some [1%nat]))])).
Proof.
  apply (is_pkg_a_replaces_agrees hash_replaces _ _ 1%nat
           (mk_abstract "old-foo" [1%nat] [1%nat]) "old-foo" "old-foo").
  - reflexivity.
  - reflexivity.
  - reflexivity.
  - reflexivity.
  - reflexivity.
  - intros r Hr. vm_compute in Hr. apply list_elem_of_singleton in Hr as ->.
    exists (mk_abstract "old-foo" [1%nat] [1%nat]), "old-foo"%string.
    split; [reflexivity|]. split; [reflexivity|]. done.
Defined.

(** ** A package whose dependencies are all installed *)

Lemma resolve_compounds_all_installed best self pkg p compound_depends : forall i st,
  Forall (fun compound_depend =>
            type compound_depend <> GREEDY_DEPEND /\
            find_installed_satisfier best st.2 (possibilities compound_depend) = Ok true)
         compound_depends ->
  resolve_compounds best self pkg p i compound_depends st = Some (Ok st).
Proof.
  induction compound_depends as [|c l IH]; intros i st Hall; [done|].
  inversion Hall as [|? ? [Hty Hfound] Hrest]; subst.
  cbn [resolve_compounds]. unfold resolve_compound at 1.
  destruct st as [[the_lost unsatisfied] h]. cbn [snd] in *.
  rewrite bool_decide_eq_false_2 by done. rewrite Hfound. simpl.
  by apply IH.
Qed.

(** When every compound dependency of a package is an ordinary one that
    an installed package satisfies, the resolver adds nothing: the vector
    is as it was given, the unresolved list is NULL, the value returned is
    the length of the vector, and no other package is visited. *)
Theorem resolver_all_installed best depth (h : hash_t) (pkg : pkg_ptr) (p : pkg_t)
  (ab_ptr : abstract_pkg_ptr) (ab_pkg : abstract_pkg_t)
  (compound_depends : list compound_depend_t) (unsatisfied : list pkg_ptr) :
  get_pkg h pkg = Ok p -> parent p = Some ab_ptr ->
  get_abstract h ab_ptr = Ok ab_pkg -> dependencies_checked ab_pkg = false ->
  pkg_get_depends_ptr p PKG_DEPENDS = Some compound_depends -> compound_depends <> [] ->
  Forall (fun compound_depend =>
            type compound_depend <> GREEDY_DEPEND /\
            find_installed_satisfier best (set_dependencies_checked h ab_ptr)
              (possibilities compound_depend) = Ok true)
         compound_depends ->
  pkg_hash_fetch_unsatisfied_dependencies best (S depth) h pkg unsatisfied =
  Some (Ok (Z.of_nat (length unsatisfied), None, unsatisfied,
            set_dependencies_checked h ab_ptr)).
Proof.
  intros Hp Hpar Hab Hc Hd Hne Hall. simpl. unfold resolver_body.
  rewrite Hp. simpl. rewrite Hpar, Hab. simpl. rewrite Hc, Hd.
  destruct compound_depends as [|c l]; [done|].
  by rewrite (resolve_compounds_all_installed best _ pkg p (c :: l) O
                (None, unsatisfied, set_dependencies_checked h ab_ptr) Hall).
Qed.

(** B 2.0 depends on A (>= 1.0), and A 1.0 is installed. *)
Definition hash_installed_dep : hash_t :=
  {| abstracts := [mk_abstract "A" [0%nat] [0%nat]; mk_abstract "B" [1%nat] [1%nat]];
     packages :=
       [mk_pkg "A" 0%nat "1.0" SS_INSTALLED SW_INSTALL [];
        mk_pkg "B" 1%nat "2.0" SS_NOT_INSTALLED SW_UNKNOWN
          [(PKG_DEPENDS,
            BDepends (Some [depends_on DEPEND [atom LATER_EQUAL (Some "1.0"%string) 0%nat]]))]] |}.

Lemma resolver_all_installed_witness :
  pkg_hash_fetch_unsatisfied_dependencies best_candidate 1 hash_installed_dep 1%nat [] =
  Some (Ok (Z.of_nat (length (@nil pkg_ptr)), None, [],
            set_dependencies_checked hash_installed_dep 1%nat)).
Proof.
  eapply (resolver_all_installed best_candidate 0 hash_installed_dep 1%nat _ 1%nat).
  - reflexivity.
  - reflexivity.
  - reflexivity.
  - reflexivity.
  - reflexivity.
  - discriminate.
  - repeat constructor. discriminate.
Defined.

(** ** The Status line (pkg_parse.c, pkg.c) *)

(** *** [sscanf] on the format of the Status line

    The three kinds of directive of [Status: %63s %63s %63s]: an ordinary
    character must be the next character of the input; white space in the
    format skips the white space of the input, if any; [%Ns] skips white
    space, then stores up to N characters that are neither white space nor
    the end of the input, and fails when there is none. *)

Fixpoint scan_literal (lit input : string) : option string :=
  match lit with
  | EmptyString => Some input
  | String c lit' =>
      match input with
      | EmptyString => None
      | String d input' =>
          if (code d =? code c) && negb (code d =? 0) then scan_literal lit' input'
          else None
      end
  end.

(** A character that [%s] stores. *)
Definition word_char (x : Z) : bool := negb (x =? 0) && negb (isspace x).

Fixpoint scan_word (width : nat) (input : string) : string * string :=
  match width, input with
  | S width', String c input' =>
      if word_char (code c) then
        let '(word, rest) := scan_word width' input' in (String c word, rest)
      else (EmptyString, input)
  | _, _ => (EmptyString, input)
  end.

Definition scan_s (width : nat) (input : string) : option (string * string) :=
  match scan_word width (skip_spaces input) with
  | (EmptyString, _) => None
  | (word, rest) => Some (word, rest)
  end.

(** [sscanf(sstr, "Status: %63s %63s %63s", sw_str, sf_str, ss_str)]: the
    three strings when it returns 3, [None] when it returns anything
    else. *)
Definition sscanf_status (sstr : string) : option (string * string * string) :=
  rest ← scan_literal "Status:" sstr;
  '(sw_str, rest) ← scan_s 63 (skip_spaces rest);
  '(sf_str, rest) ← scan_s 63 (skip_spaces rest);
  '(ss_str, _) ← scan_s 63 (skip_spaces rest);
  Some (sw_str, sf_str, ss_str).

Definition set_states (pkg : pkg_t) (sw : pkg_state_want_t) (sf : Z)
  (ss : pkg_state_status_t) : pkg_t :=
  {| name := name pkg; src := src pkg; dest := dest pkg;
     state_want := sw; state_flag := sf; state_status := ss;
     installed_files := installed_files pkg;
     installed_files_ref_cnt := installed_files_ref_cnt pkg;
     essential := essential pkg; provided_by_hand := provided_by_hand pkg;
     auto_installed := auto_installed pkg; parent := parent pkg; blob := blob pkg |}.

(** A string that one [%Ns] stores whole: not empty, no longer than the
    width, without white space or NUL. *)
Definition is_word (width : nat) (s : string) : bool :=
  (1 <=? String.length s)%nat && (String.length s <=? width)%nat && all_chars word_char s.

Section StatusLine.

Variables SF_REINSTREQ SF_HOLD SF_REPLACE SF_NOPRUNE SF_PREFER SF_OBSOLETE SF_USER : Z.
Variable SF_NONVOLATILE_FLAGS : Z.

(** [parse_status]: a line that does not give three words is reported
    and the package is left as it is. *)
Definition parse_status (pkg : pkg_t) (sstr : string) : pkg_t :=
  match sscanf_status sstr with
  | Some (sw_str, sf_str, ss_str) =>
      set_states pkg (pkg_state_want_from_str sw_str)
        (Z.lor (state_flag pkg)
           (pkg_state_flag_from_str SF_REINSTREQ SF_HOLD SF_REPLACE SF_NOPRUNE SF_PREFER
              SF_OBSOLETE SF_USER sf_str))
        (pkg_state_status_from_str ss_str)
  | None => pkg
  end.

(** The line the Status case of [pkg_formatted_field] prints:
    [fprintf(fp, "Status: %s %s %s\n", ...)]. *)
Definition status_line (pkg : pkg_t) : res string :=
  pflag ← pkg_state_flag_to_str SF_REINSTREQ SF_HOLD SF_REPLACE SF_NOPRUNE SF_PREFER
            SF_OBSOLETE SF_USER SF_NONVOLATILE_FLAGS (state_flag pkg);
  Ok ("Status: " +++ pkg_state_want_to_str (state_want pkg) +++ " " +++ pflag +++ " "
        +++ pkg_state_status_to_str (state_status pkg) +++ String "010" EmptyString).

End StatusLine.

Lemma scan_word_app (word : string) :
  forall width rest,
    all_chars word_char word = true -> (String.length word <= width)%nat ->
    word_char (deref rest) = false ->
    scan_word width (word +++ rest) = (word, rest).
Proof.
  induction word as [|c word IH]; intros width rest Hw Hl He.
  - simpl. destruct width, rest as [|d rest]; try done. simpl in *. by rewrite He.
  - simpl in Hw, Hl. apply andb_true_iff in Hw as [Hc Hw].
    destruct width as [|width]; [lia|]. simpl. rewrite Hc, (IH width rest); [done..|lia|done].
Qed.

Lemma skip_spaces_word width word rest :
  is_word width word = true -> skip_spaces (word +++ rest) = word +++ rest.
Proof.
  unfold is_word. intros [[Hne _]%andb_true_iff Hw]%andb_true_iff.
  apply Nat.leb_le in Hne. destruct word as [|c word]; [simpl in Hne; lia|].
  simpl in *. apply andb_true_iff in Hw as [Hc _]. unfold word_char in Hc.
  apply andb_true_iff in Hc as [_ Hc]. by destruct (isspace (code c)).
Qed.

Lemma scan_s_word width word rest :
  is_word width word = true -> word_char (deref rest) = false ->
  scan_s width (word +++ rest) = Some (word, rest).
Proof.
  intros Hword He. unfold scan_s. rewrite (skip_spaces_word width) by done.
  unfold is_word in Hword.
  apply andb_true_iff in Hword as [[Hne Hl]%andb_true_iff Hw].
  apply Nat.leb_le in Hne, Hl. rewrite scan_word_app by done.
  destruct word; [simpl in Hne; lia|done].
Qed.

Lemma sscanf_status_words sw_str sf_str ss_str tail :
  is_word 63 sw_str = true -> is_word 63 sf_str = true -> is_word 63 ss_str = true ->
  word_char (deref tail) = false ->
  sscanf_status ("Status: " +++ sw_str +++ " " +++ sf_str +++ " " +++ ss_str +++ tail)
  = Some (sw_str, sf_str, ss_str).
Proof.
  intros Hw Hf Hs Ht. unfold sscanf_status.
  change (scan_literal "Status:" ("Status: " +++ ?x)) with (Some (" " +++ x)).
  cbn [mbind option_bind].
  assert (forall word rest, is_word 63 word = true -> word_char (deref rest) = false ->
            scan_s 63 (skip_spaces (" " +++ word +++ rest)) = Some (word, rest)) as Hstep.
  { intros word rest Hword Hrest.
    change (skip_spaces (" " +++ ?x)) with (skip_spaces x).
    rewrite (skip_spaces_word 63) by done. by apply scan_s_word. }
  rewrite (Hstep sw_str) by done. cbn [mbind option_bind].
  rewrite (Hstep sf_str) by done. cbn [mbind option_bind].
  by rewrite (Hstep ss_str).
Qed.

(** The two loops of [pkg_state_flag_to_str] over a table whose entries
    are already tested against the flag set. *)
Definition selected_flags_text (sel : list (bool * string)) : res string :=
  let len :=
    fold_left (fun len (e : bool * string) =>
                 if fst e then (len + strlen (snd e) + 1)%nat else len) sel O in
  let str :=
    fold_left (fun str (e : bool * string) =>
                 if fst e then strncat (strncat str (snd e) len) "," len else str)
              sel EmptyString in
  squash_last str.

Lemma fold_left_map {A B C} (f : A -> B -> A) (g : C -> B) (l : list C) :
  forall a, fold_left f (map g l) a = fold_left (fun a x => f a (g x)) l a.
Proof. induction l as [|x l IH]; intros a; simpl; [done|apply IH]. Qed.

Lemma pkg_state_flag_to_str_selected
  (SF_REINSTREQ SF_HOLD SF_REPLACE SF_NOPRUNE SF_PREFER SF_OBSOLETE SF_USER : Z)
  (SF_NONVOLATILE_FLAGS sf : Z) :
  pkg_state_flag_to_str SF_REINSTREQ SF_HOLD SF_REPLACE SF_NOPRUNE SF_PREFER
    SF_OBSOLETE SF_USER SF_NONVOLATILE_FLAGS sf =
  let x := Z.land sf SF_NONVOLATILE_FLAGS in
  if x =? 0 then Ok "ok"%string
  else selected_flags_text
         (map (fun e : Z * string => (negb (Z.land x (fst e) =? 0), snd e))
              (pkg_state_flag_map SF_REINSTREQ SF_HOLD SF_REPLACE SF_NOPRUNE SF_PREFER
                 SF_OBSOLETE SF_USER)).
Proof.
  unfold pkg_state_flag_to_str, selected_flags_text. cbv zeta.
  destruct (Z.land sf SF_NONVOLATILE_FLAGS =? 0); [done|].
  by rewrite !fold_left_map.
Qed.

(** The text of a flag set is one word of at most 63 characters,
    whatever the values of the flags: one [%63s] reads it whole. *)
Lemma pkg_state_flag_to_str_word
  (SF_REINSTREQ SF_HOLD SF_REPLACE SF_NOPRUNE SF_PREFER SF_OBSOLETE SF_USER : Z)
  (SF_NONVOLATILE_FLAGS sf : Z) (flags : string) :
  pkg_state_flag_to_str SF_REINSTREQ SF_HOLD SF_REPLACE SF_NOPRUNE SF_PREFER
    SF_OBSOLETE SF_USER SF_NONVOLATILE_FLAGS sf = Ok flags ->
  is_word 63 flags = true.
Proof.
  rewrite pkg_state_flag_to_str_selected. cbv zeta.
  generalize (Z.land sf SF_NONVOLATILE_FLAGS). intros x.
  destruct (x =? 0); [by intros [= <-]|].
  unfold pkg_state_flag_map. cbn [map fst snd].
  generalize (Z.land x SF_OK =? 0) (Z.land x SF_REINSTREQ =? 0) (Z.land x SF_HOLD =? 0)
    (Z.land x SF_REPLACE =? 0) (Z.land x SF_NOPRUNE =? 0) (Z.land x SF_PREFER =? 0)
    (Z.land x SF_OBSOLETE =? 0) (Z.land x SF_USER =? 0).
  intros [] [] [] [] [] [] [] [] H; vm_compute in H;
    first [discriminate H | injection H as <-; reflexivity].
Qed.

(** [parse_status] reads back the line that [pkg_formatted_field] writes
    for Status: the state wanted and the status become those of the
    package written, and the flags read from the flag text are added to
    the flags the package already has; nothing else of the package
    changes. *)
Theorem parse_status_reads_status_line
  (SF_REINSTREQ SF_HOLD SF_REPLACE SF_NOPRUNE SF_PREFER SF_OBSOLETE SF_USER : Z)
  (SF_NONVOLATILE_FLAGS : Z) (pkg written : pkg_t) (line : string) :
  status_line SF_REINSTREQ SF_HOLD SF_REPLACE SF_NOPRUNE SF_PREFER SF_OBSOLETE SF_USER
    SF_NONVOLATILE_FLAGS written = Ok line ->
  exists flags,
    pkg_state_flag_to_str SF_REINSTREQ SF_HOLD SF_REPLACE SF_NOPRUNE SF_PREFER
      SF_OBSOLETE SF_USER SF_NONVOLATILE_FLAGS (state_flag written) = Ok flags /\
    parse_status SF_REINSTREQ SF_HOLD SF_REPLACE SF_NOPRUNE SF_PREFER SF_OBSOLETE SF_USER
      pkg line =
    set_states pkg (state_want written)
      (Z.lor (state_flag pkg)
         (pkg_state_flag_from_str SF_REINSTREQ SF_HOLD SF_REPLACE SF_NOPRUNE SF_PREFER
            SF_OBSOLETE SF_USER flags))
      (state_status written).
Proof.
  unfold status_line. intros H.
  destruct (pkg_state_flag_to_str _ _ _ _ _ _ _ _ (state_flag written)) as [flags|] eqn:Hf;
    [|done].
  assert (line = "Status: " +++ pkg_state_want_to_str (state_want written) +++ " "
                   +++ flags +++ " " +++ pkg_state_status_to_str (state_status written)
                   +++ String "010" EmptyString) as -> by (by injection H).
  exists flags. split; [done|]. unfold parse_status.
  rewrite (sscanf_status_words (pkg_state_want_to_str (state_want written)) flags
             (pkg_state_status_to_str (state_status written))).
  - f_equal; [by destruct (state_want written)|by destruct (state_status written)].
  - by destruct (state_want written).
  - by eapply pkg_state_flag_to_str_word.
  - by destruct (state_status written).
  - done.
Qed.

(** A package on hold that prefers its version, written and read into
    a fresh record. *)
Lemma parse_status_reads_status_line_witness :
  exists flags,
    pkg_state_flag_to_str 1 2 4 8 16 32 256 314
      (state_flag (set_states pkg_new SW_INSTALL (2 + 16 + 64) SS_INSTALLED)) = Ok flags /\
    parse_status 1 2 4 8 16 32 256 pkg_new
      ("Status: install hold,prefer installed" +++ String "010" EmptyString) =
    set_states pkg_new
      (state_want (set_states pkg_new SW_INSTALL (2 + 16 + 64) SS_INSTALLED))
      (Z.lor (state_flag pkg_new) (pkg_state_flag_from_str 1 2 4 8 16 32 256 flags))
      (state_status (set_states pkg_new SW_INSTALL (2 + 16 + 64) SS_INSTALLED)).
Proof.
  apply (parse_status_reads_status_line 1 2 4 8 16 32 256 314 pkg_new
           (set_states pkg_new SW_INSTALL (2 + 16 + 64) SS_INSTALLED)).
  vm_compute. reflexivity.
Defined.

Lemma blank_word_char tail : blank tail = true -> word_char (deref tail) = false.
Proof.
  unfold blank, word_char. destruct tail as [|c tail]; simpl; [done|].
  destruct (Z.eqb_spec (code c) 0) as [E|E]; [done|]. simpl.
  intros [-> _]%andb_true_iff. done.
Qed.

Lemma scan_s_blank width tail : blank tail = true -> scan_s width tail = None.
Proof.
  intros Hb. unfold scan_s. rewrite <- blank_skip_spaces in Hb.
  apply blank_word_char in Hb.
  destruct width, (skip_spaces tail) as [|c rest]; try done. simpl in *. by rewrite Hb.
Qed.

(** A Status line with fewer than three words changes nothing: the
    package is as it was, also the state the first word names is not
    stored. *)
Theorem parse_status_short_line
  (SF_REINSTREQ SF_HOLD SF_REPLACE SF_NOPRUNE SF_PREFER SF_OBSOLETE SF_USER : Z)
  (pkg : pkg_t) (sw_str sf_str tail : string) :
  is_word 63 sw_str = true -> is_word 63 sf_str = true -> blank tail = true ->
  let parse := parse_status SF_REINSTREQ SF_HOLD SF_REPLACE SF_NOPRUNE SF_PREFER
                 SF_OBSOLETE SF_USER pkg in
  parse ("Status:" +++ tail) = pkg /\
  parse ("Status: " +++ sw_str +++ tail) = pkg /\
  parse ("Status: " +++ sw_str +++ " " +++ sf_str +++ tail) = pkg.
Proof.
  intros Hw Hf Hb. cbv zeta. unfold parse_status, sscanf_status.
  assert (scan_s 63 (skip_spaces tail) = None) as Htail.
  { apply scan_s_blank. by rewrite blank_skip_spaces. }
  assert (forall word rest, is_word 63 word = true -> word_char (deref rest) = false ->
            scan_s 63 (skip_spaces (" " +++ word +++ rest)) = Some (word, rest)) as Hstep.
  { intros word rest Hword Hrest.
    change (skip_spaces (" " +++ ?x)) with (skip_spaces x).
    rewrite (skip_spaces_word 63) by done. by apply scan_s_word. }
  pose proof (blank_word_char tail Hb) as Hend.
  split; [|split].
  - change (scan_literal "Status:" ("Status:" +++ ?x)) with (Some x).
    cbn [mbind option_bind]. by rewrite Htail.
  - change (scan_literal "Status:" ("Status: " +++ ?x)) with (Some (" " +++ x)).
    cbn [mbind option_bind]. rewrite (Hstep sw_str) by done.
    cbn [mbind option_bind]. by rewrite Htail.
  - change (scan_literal "Status:" ("Status: " +++ ?x)) with (Some (" " +++ x)).
    cbn [mbind option_bind]. rewrite (Hstep sw_str) by done.
    cbn [mbind option_bind]. rewrite (Hstep sf_str) by done.
    cbn [mbind option_bind]. by rewrite Htail.
Qed.

Lemma parse_status_short_line_witness :
  let parse := parse_status 1 2 4 8 16 32 256 pkg_new in
  parse ("Status:" +++ " ") = pkg_new /\
  parse ("Status: " +++ "install" +++ " ") = pkg_new /\
  parse ("Status: " +++ "install" +++ " " +++ "ok" +++ " ") = pkg_new.
Proof.
  apply (parse_status_short_line 1 2 4 8 16 32 256 pkg_new "install" "ok" " ");
    reflexivity.
Defined.

(** ** What a suggestion or a recommendation changes (pkg_depends.c) *)

(** A Suggest compound only runs the two searches and reads the name of
    its first atom for the notice when they find nothing: whatever they
    find, the unresolved list, the vector and the marks stay as they were,
    and the resolver is not called.  A Suggest or Recommend compound for
    which no candidate is found, and whose first atom names an abstract
    package of the hash, adds no entry to the unresolved list. *)
Theorem suggest_changes_nothing best (self : resolver_t) (pkg : pkg_ptr) (p : pkg_t)
  (i : nat) (compound_depend : compound_depend_t)
  (st : unresolved_t * list pkg_ptr * hash_t) :
  (type compound_depend = SUGGEST ->
   resolve_compound best self pkg p i compound_depend st =
   lift (r ← find_candidate best st.2 compound_depend;
         match r with
         | (false, None) => _ ← first_possibility_name st.2 compound_depend; Ok st
         | _ => Ok st
         end)) /\
  (type compound_depend = SUGGEST \/ type compound_depend = RECOMMEND ->
   find_candidate best st.2 compound_depend = Ok (false, None) ->
   forall first rest ab_pkg,
     possibilities compound_depend = first :: rest ->
     get_abstract st.2 (dep_pkg first) = Ok ab_pkg ->
     resolve_compound best self pkg p i compound_depend st = Some (Ok st)).
Proof.
  destruct st as [[the_lost unsatisfied] h]. cbn [snd].
  unfold resolve_compound, find_candidate, settle_compound. split.
  - intros Ht. rewrite Ht. simpl.
    destruct (find_installed_satisfier best h _) as [[|]|]; simpl; try done.
    destruct (find_satisfier best h SUGGEST _) as [[s|]|]; simpl; try done.
    by destruct (first_possibility_name h compound_depend).
  - intros Ht Hc first rest ab_pkg Hp Hab.
    assert (bool_decide (type compound_depend = GREEDY_DEPEND) = false) as ->.
    { destruct Ht as [-> | ->]; done. }
    destruct (find_installed_satisfier best h _) as [[|]|]; simpl in *; try done.
    destruct (find_satisfier best h _ _) as [[s|]|]; simpl in *; try done.
    unfold first_possibility_name. rewrite Hp. simpl. rewrite Hab. simpl.
    destruct Ht as [-> | ->]; done.
Qed.

Lemma suggest_changes_nothing_witness :
  let st := (None, [], hash_suggests) in
  resolve_compound best_candidate (fun _ _ _ => None) 0%nat
    (mk_pkg "app" 0%nat "1.0" SS_NOT_INSTALLED SW_UNKNOWN []) 0
    (depends_on SUGGEST [atom NONE None 1%nat]) st = Some (Ok st) /\
  resolve_compound best_candidate (fun _ _ _ => None) 0%nat
    (mk_pkg "app" 0%nat "1.0" SS_NOT_INSTALLED SW_UNKNOWN []) 1
    (depends_on RECOMMEND [atom NONE None 2%nat]) st = Some (Ok st).
Proof.
  split.
  - rewrite (proj1 (suggest_changes_nothing best_candidate (fun _ _ _ => None) 0%nat
                      (mk_pkg "app" 0%nat "1.0" SS_NOT_INSTALLED SW_UNKNOWN []) 0
                      (depends_on SUGGEST [atom NONE None 1%nat])
                      (None, [], hash_suggests)) eq_refl).
    reflexivity.
  - apply (proj2 (suggest_changes_nothing best_candidate (fun _ _ _ => None) 0%nat
                    (mk_pkg "app" 0%nat "1.0" SS_NOT_INSTALLED SW_UNKNOWN []) 1
                    (depends_on RECOMMEND [atom NONE None 2%nat])
                    (None, [], hash_suggests)) (or_intror eq_refl) eq_refl
             (atom NONE None 2%nat) [] (mk_abstract "gone" [] [2%nat])).
    + reflexivity.
    + reflexivity.
Defined.

(** ** Storing a string over a string (pkg.c) *)




